(** * A red-black tree with parent links: RBTree.c

    The C program keeps its nodes in malloc'ed storage and links them with
    [parent], [left] and [right] pointers.  The embedding keeps that shape:
    a node store (a finite map from addresses to node records), NULL as
    [None], every dereference explicit, and the rotations and fix-ups
    written as the pointer updates the source performs, in its order. *)

From Stdlib Require Import ZArith Lia.
From stdpp Require Import gmap list.

Local Open Scope Z_scope.

(** ** Constants of RBTree.c *)

Definition NO_ITEMS : Z := 0.
Definition FAILURE : Z := 0.
Definition SUCCESS : Z := 1.
Definition LEFT : Z := -1.
Definition EQUAL : Z := 0.
Definition RIGHT : Z := 1.

(** ** Data model *)

(** Modelled from the spec: RBTree.h is not part of the sources; the spec's
    data model gives a node a color (RED or BLACK). *)
Inductive Color := RED | BLACK.

Global Instance Color_eq_dec : EqDecision Color.
Proof. solve_decision. Defined.

Definition addr := positive.

(** A [Node *]: [None] is NULL. *)
Abbreviation ptr := (option addr).

Section RBTree.

(** The referent of the [void *] payload; a payload pointer is an
    [option A], NULL being [None]. *)
Context {A : Type}.

(** Modelled from the spec: RBTree.h is not part of the sources; a node
    holds its payload, a color and links to parent, left and right child. *)
Record Node := mkNode {
  parent : ptr;
  left : ptr;
  right : ptr;
  color : Color;
  data : option A
}.

(** Modelled from the spec: RBTree.h is not part of the sources; the tree
    holds the root reference and a count of elements ([compFunc] and
    [freeFunc] are the section's variables).  The record also carries what
    the tree's functions act on besides the tree object: the node store and
    the log of the payloads handed to [freeFunc], oldest first. *)
Record state := mkState {
  root : ptr;
  size : Z;
  heap : gmap addr Node;
  freed : list (option A)
}.

Variable compFunc : option A → option A → Z.

Definition set_parent (v : ptr) (n : Node) : Node :=
  mkNode v (left n) (right n) (color n) (data n).
Definition set_left (v : ptr) (n : Node) : Node :=
  mkNode (parent n) v (right n) (color n) (data n).
Definition set_right (v : ptr) (n : Node) : Node :=
  mkNode (parent n) (left n) v (color n) (data n).
Definition set_color (c : Color) (n : Node) : Node :=
  mkNode (parent n) (left n) (right n) c (data n).

Definition set_root (v : ptr) (st : state) : state :=
  mkState v (size st) (heap st) (freed st).
Definition set_size (z : Z) (st : state) : state :=
  mkState (root st) z (heap st) (freed st).
Definition set_heap (h : gmap addr Node) (st : state) : state :=
  mkState (root st) (size st) h (freed st).
Definition log_free (d : option A) (st : state) : state :=
  mkState (root st) (size st) (heap st) (freed st ++ [d]).

(** [p->field]: undefined ([None]) when [p] is NULL or not allocated. *)
Definition load (p : ptr) (st : state) : option Node :=
  a ← p; heap st !! a.

(** [p->field = v], as an update [f] of the node at [p]. *)
Definition store (p : ptr) (f : Node → Node) (st : state) : option state :=
  a ← p; n ← heap st !! a; Some (set_heap (<[a := f n]> (heap st)) st).

(** [free(p)] of a node. *)
Definition release (p : ptr) (st : state) : option state :=
  a ← p; _ ← heap st !! a; Some (set_heap (delete a (heap st)) st).

(** [newRBTree]: the empty tree (the allocation of the tree object itself
    is not modelled). *)
Definition newRBTree : state := mkState None NO_ITEMS ∅ [].

(** ** Structural primitives *)

Definition connectNode (node par : ptr) (side : Z) (st : state) : option state :=
  st ← match node with
       | Some _ => store node (set_parent par) st
       | None => Some st
       end;
  match par with
  | None => Some (set_root node st)
  | Some _ =>
      if decide (side = LEFT) then store par (set_left node) st
      else store par (set_right node) st
  end.

Definition getSide (child : ptr) (st : state) : option Z :=
  match child with
  | None => Some FAILURE
  | Some _ =>
      c ← load child st;
      match parent c with
      | None => Some FAILURE
      | Some _ =>
          p ← load (parent c) st;
          if decide (child = left p) then Some LEFT else Some RIGHT
      end
  end.

Definition connectNodes (par child : ptr) (side : Z) (st : state) : option state :=
  st ← match par with
       | None => Some (set_root child st)
       | Some _ =>
           if decide (side = LEFT) then store par (set_left child) st
           else store par (set_right child) st
       end;
  match child with
  | Some _ => store child (set_parent par) st
  | None => Some st
  end.

Definition rotate (child par : ptr) (st : state) : option state :=
  childSide ← getSide child st;
  p ← load par st;
  st ← match parent p with
       | None =>
           store child (set_parent None) (set_root child st)
       | Some _ =>
           parentSide ← getSide par st;
           st ← store child (set_parent (parent p)) st;
           if decide (parentSide = LEFT)
           then store (parent p) (set_left child) st
           else store (parent p) (set_right child) st
       end;
  c ← load child st;
  if decide (childSide = LEFT) then
    st ← connectNodes par (right c) LEFT st;
    connectNodes child par RIGHT st
  else
    st ← connectNodes par (left c) RIGHT st;
    connectNodes child par LEFT st.

(** ** Insertion engine *)

Definition updateColorBlackUncle (gParent par node : ptr) (parentSide : Z)
    (st : state) : option (Color * state) :=
  childSide ← getSide node st;
  '(par, st) ← (if decide (childSide ≠ parentSide)
                then st ← rotate node par st; Some (node, st)
                else Some (par, st));
  st ← rotate par gParent st;
  st ← store par (set_color BLACK) st;
  st ← store gParent (set_color RED) st;
  if decide (node = par) then Some (BLACK, st) else Some (RED, st).

(** The recursion of [updateColors] is bounded by [fuel]; running out of
    it is [None], like any undefined step. *)
Fixpoint updateColors (fuel : nat) (node : ptr) (st : state) : option (Color * state) :=
  match fuel with
  | O => None
  | S fuel =>
      n ← load node st;
      match parent n with
      | None => Some (BLACK, st)
      | Some _ =>
          p ← load (parent n) st;
          if decide (color p = BLACK) then Some (RED, st)
          else
            let gParent := parent p in
            parentSide ← getSide (parent n) st;
            g ← load gParent st;
            let uncle := if decide (parentSide = LEFT) then right g else left g in
            uncleBlack ← match uncle with
                         | None => Some true
                         | Some _ => u ← load uncle st; Some (bool_decide (color u = BLACK))
                         end;
            if (uncleBlack : bool)
            then updateColorBlackUncle gParent (parent n) node parentSide st
            else
              st ← store (parent n) (set_color BLACK) st;
              st ← store uncle (set_color BLACK) st;
              '(c, st) ← updateColors fuel gParent st;
              st ← store gParent (set_color c) st;
              Some (RED, st)
      end
  end.

(** The [while] loop of [insertNode], from [curNode] with the last
    [par] and [side]. *)
Fixpoint insertNode_loop (fuel : nat) (newNode curNode par : ptr) (side : Z)
    (st : state) : option (Z * state) :=
  match curNode with
  | None => st ← connectNode newNode par side st; Some (SUCCESS, st)
  | Some _ =>
      match fuel with
      | O => None
      | S fuel =>
          nn ← load newNode st;
          cur ← load curNode st;
          let compRes := compFunc (data nn) (data cur) in
          if decide (compRes = EQUAL) then
            st ← release newNode st; Some (FAILURE, st)
          else if decide (compRes < EQUAL) then
            insertNode_loop fuel newNode (left cur) curNode LEFT st
          else
            insertNode_loop fuel newNode (right cur) curNode RIGHT st
      end
  end.

(** [insertNode]: with an empty tree the source reads [parent] and [side]
    uninitialised, which is undefined. *)
Definition insertNode (fuel : nat) (newNode : ptr) (st : state) : option (Z * state) :=
  match root st with
  | None => None
  | Some _ => insertNode_loop fuel newNode (root st) None 0 st
  end.

(** The bound given to every loop and recursion of a public operation:
    more than the number of allocated nodes. *)
Definition fuel_of (st : state) : nat := (base.size (heap st) + 2)%nat.

(** [insertToRBTree(tree, data)]: [tree] is [None] for a NULL tree;
    [newNode] is what [malloc] returns (NULL, or an address not in use). *)
Definition insertToRBTree (tree : option state) (d : option A) (newNode : ptr)
    : option (Z * option state) :=
  match tree with
  | None => Some (FAILURE, None)
  | Some st =>
      match d with
      | None => Some (FAILURE, Some st)
      | Some _ =>
          match newNode with
          | None => Some (FAILURE, Some st)
          | Some a =>
              let st := set_heap (<[a := mkNode None None None BLACK d]> (heap st)) st in
              match root st with
              | None => Some (SUCCESS, Some (set_size (size st + 1) (set_root newNode st)))
              | Some _ =>
                  '(r, st) ← insertNode (fuel_of st) newNode st;
                  if decide (r = 0) then Some (FAILURE, Some st)
                  else
                    '(c, st) ← updateColors (fuel_of st) newNode st;
                    st ← store newNode (set_color c) st;
                    Some (SUCCESS, Some (set_size (size st + 1) st))
              end
          end
      end
  end.

(** ** Lookup *)

Fixpoint findNode_loop (fuel : nat) (d : option A) (curNode : ptr) (st : state)
    : option ptr :=
  match curNode with
  | None => Some None
  | Some _ =>
      match fuel with
      | O => None
      | S fuel =>
          cur ← load curNode st;
          let compRes := compFunc d (data cur) in
          if decide (compRes = EQUAL) then Some curNode
          else if decide (compRes < EQUAL) then findNode_loop fuel d (left cur) st
          else findNode_loop fuel d (right cur) st
      end
  end.

Definition findNode (fuel : nat) (st : state) (d : option A) : option ptr :=
  findNode_loop fuel d (root st) st.

Fixpoint findSuccessor_loop (fuel : nat) (child : ptr) (st : state) : option ptr :=
  match child with
  | None => Some child
  | Some _ =>
      match fuel with
      | O => None
      | S fuel =>
          c ← load child st;
          match left c with
          | Some _ => findSuccessor_loop fuel (left c) st
          | None => Some child
          end
      end
  end.

Definition findSuccessor (fuel : nat) (node : ptr) (st : state) : option ptr :=
  n ← load node st; findSuccessor_loop fuel (right n) st.

Definition RBTreeContains (tree : option state) (d : option A) : option Z :=
  match tree with
  | None => Some FAILURE
  | Some st =>
      r ← findNode (fuel_of st) st d;
      Some (if decide (r ≠ None) then 1 else 0)
  end.

(** ** Deletion engine *)

Fixpoint freeNode (fuel : nat) (toFree : ptr) (st : state) : option state :=
  match toFree with
  | None => Some st
  | Some _ =>
      match fuel with
      | O => None
      | S fuel =>
          n ← load toFree st;
          st ← freeNode fuel (left n) st;
          n ← load toFree st;
          st ← freeNode fuel (right n) st;
          n ← load toFree st;
          release toFree (log_free (data n) st)
      end
  end.

Definition getSingleChild (node : ptr) (st : state) : option ptr :=
  n ← load node st;
  if decide (left n = None ∧ right n ≠ None) then Some (right n)
  else if decide (left n ≠ None ∧ right n = None) then Some (left n)
  else Some None.

Definition switchNodes (highNode lowNode : ptr) (st : state) : option state :=
  high ← load highNode st;
  let highParent := parent high in
  let highRight := right high in
  let highLeft := left high in
  let highCol := color high in
  highSide ← getSide highNode st;
  lowSide ← getSide lowNode st;
  low ← load lowNode st;
  st ← connectNodes highNode (left low) LEFT st;
  low ← load lowNode st;
  st ← connectNodes highNode (right low) RIGHT st;
  low ← load lowNode st;
  st ← (if decide (parent low ≠ highNode) then
          st ← connectNodes (parent low) highNode lowSide st;
          st ← connectNodes lowNode highRight RIGHT st;
          connectNodes lowNode highLeft LEFT st
        else
          st ← connectNodes lowNode highNode lowSide st;
          if decide (lowSide = LEFT)
          then connectNodes lowNode highRight RIGHT st
          else connectNodes lowNode highLeft LEFT st);
  st ← connectNodes highParent lowNode highSide st;
  low ← load lowNode st;
  st ← store highNode (set_color (color low)) st;
  store lowNode (set_color highCol) st.

(** A [Node **]: the address of a local variable of a caller, or of a link
    field of a node.  The callees only read through the address of a local,
    so such a reference carries the variable's value; a field reference
    names the node and is read from, and written to, the node store. *)
Inductive nodeRef :=
  | RefVar (v : ptr)
  | RefParent (p : ptr)
  | RefLeft (p : ptr)
  | RefRight (p : ptr).

Definition deref (r : nodeRef) (st : state) : option ptr :=
  match r with
  | RefVar v => Some v
  | RefParent p => n ← load p st; Some (parent n)
  | RefLeft p => n ← load p st; Some (left n)
  | RefRight p => n ← load p st; Some (right n)
  end.

Definition assign (r : nodeRef) (v : ptr) (st : state) : option state :=
  match r with
  | RefVar _ => None
  | RefParent p => store p (set_parent v) st
  | RefLeft p => store p (set_left v) st
  | RefRight p => store p (set_right v) st
  end.

(** [p != NULL && p->color == RED] *)
Definition isRed (p : ptr) (st : state) : option bool :=
  match p with
  | None => Some false
  | Some _ => n ← load p st; Some (bool_decide (color n = RED))
  end.

(** [p == NULL || p->color == BLACK] *)
Definition isNullOrBlack (p : ptr) (st : state) : option bool :=
  match p with
  | None => Some true
  | Some _ => n ← load p st; Some (bool_decide (color n = BLACK))
  end.

Definition closeRedNephewDB (siblingP : nodeRef) (childSide : Z) (st : state)
    : option state :=
  let leftCase :=
    if decide (childSide = LEFT) then
      sib ← deref siblingP st; s ← load sib st; isRed (left s) st
    else Some false in
  lc ← leftCase;
  if (lc : bool) then
    sib ← deref siblingP st;
    s ← load sib st;
    st ← store (left s) (set_color BLACK) st;
    st ← store sib (set_color RED) st;
    s ← load sib st;
    rotate (left s) sib st
  else
    let rightCase :=
      if decide (childSide = RIGHT) then
        sib ← deref siblingP st; s ← load sib st; isRed (right s) st
      else Some false in
    rc ← rightCase;
    if (rc : bool) then
      sib ← deref siblingP st;
      s ← load sib st;
      st ← store (right s) (set_color BLACK) st;
      st ← store sib (set_color RED) st;
      s ← load sib st;
      rotate (right s) sib st
    else Some st.

Definition farRedNephewDB (parentP siblingP : nodeRef) (childSide : Z) (st : state)
    : option state :=
  let leftCase :=
    if decide (childSide = LEFT) then
      sib ← deref siblingP st; s ← load sib st; isRed (right s) st
    else Some false in
  lc ← leftCase;
  rc ← (if (lc : bool) then Some true
        else if decide (childSide = RIGHT) then
          sib ← deref siblingP st; s ← load sib st; isRed (left s) st
        else Some false);
  if (rc : bool) then
    sib ← deref siblingP st;
    s ← load sib st;
    let temp := color s in
    par ← deref parentP st;
    p ← load par st;
    st ← store sib (set_color (color p)) st;
    st ← store par (set_color temp) st;
    s ← load sib st;
    rr ← isRed (right s) st;
    st ← (if (rr : bool) then store (right s) (set_color BLACK) st
          else store (left s) (set_color BLACK) st);
    rotate sib par st
  else Some st.

Definition blackSiblingDB
    (solveDB : nodeRef → nodeRef → Z → state → option state)
    (parentP siblingP childP : nodeRef) (childSide : Z) (st : state) : option state :=
  let rest (st : state) : option state :=
    st ← closeRedNephewDB siblingP childSide st;
    par ← deref parentP st;
    p ← load par st;
    child ← deref childP st;
    st ← assign siblingP (if decide (left p = child) then right p else left p) st;
    farRedNephewDB parentP siblingP childSide st in
  sib ← deref siblingP st;
  s ← load sib st;
  lb ← isNullOrBlack (left s) st;
  if (lb : bool) then
    rb ← isNullOrBlack (right s) st;
    if (rb : bool) then
      st ← store sib (set_color RED) st;
      par ← deref parentP st;
      p ← load par st;
      if decide (color p = RED) then
        st ← store par (set_color BLACK) st;
        rest st
      else
        side ← getSide par st;
        solveDB (RefParent par) parentP side st
    else rest st
  else rest st.

Fixpoint solveDB (fuel : nat) (parentP childP : nodeRef) (childSide : Z) (st : state)
    : option state :=
  match fuel with
  | O => None
  | S fuel =>
      par ← deref parentP st;
      match par with
      | None => Some st
      | Some _ =>
          p ← load par st;
          child ← deref childP st;
          let siblingP := if decide (left p = child) then RefRight par else RefLeft par in
          sib ← deref siblingP st;
          s ← load sib st;
          if decide (color s = RED) then
            st ← store sib (set_color BLACK) st;
            st ← store par (set_color RED) st;
            st ← rotate sib par st;
            solveDB fuel parentP childP childSide st
          else
            blackSiblingDB (solveDB fuel) parentP siblingP childP childSide st
      end
  end.

(** [placeBeforeDeletion]: the result, the value left in [*childPtr]
    (given as [child] on entry) and the state. *)
Definition placeBeforeDeletion (fuel : nat) (toSwitch child : ptr) (st : state)
    : option (Z * ptr * state) :=
  match toSwitch with
  | None => Some (FAILURE, child, st)
  | Some _ =>
      child ← getSingleChild toSwitch st;
      match child with
      | Some _ =>
          st ← switchNodes toSwitch child st; Some (SUCCESS, child, st)
      | None =>
          n ← load toSwitch st;
          if decide (right n ≠ None ∧ left n ≠ None) then
            suc ← findSuccessor fuel toSwitch st;
            st ← switchNodes toSwitch suc st;
            Some (SUCCESS, child, st)
          else Some (SUCCESS, child, st)
      end
  end.

(** [balanceTree]: [par], [toDelete] and [child] are the caller's locals
    behind [parentP], [toDeleteP] and [childP]. *)
Definition balanceTree (fuel : nat) (par toDelete child : ptr) (toDeleteSide : Z)
    (st : state) : option state :=
  td ← load toDelete st;
  if decide (color td = RED) then connectNode None par toDeleteSide st
  else
    child ← getSingleChild toDelete st;
    st ← connectNode child par toDeleteSide st;
    red ← isRed child st;
    if (red : bool) then store child (set_color BLACK) st
    else solveDB fuel (RefVar par) (RefVar child) toDeleteSide st.

Definition deleteFromRBTree (tree : option state) (d : option A)
    : option (Z * option state) :=
  match tree with
  | None => Some (FAILURE, None)
  | Some st =>
      let fuel := fuel_of st in
      toDelete ← findNode fuel st d;
      '(r, child, st) ← placeBeforeDeletion fuel toDelete None st;
      if decide (r = 0) then Some (FAILURE, Some st)
      else
        td ← load toDelete st;
        let par := parent td in
        toDeleteSide ← getSide toDelete st;
        st ← balanceTree fuel par toDelete child toDeleteSide st;
        st ← store toDelete (set_right None) st;
        st ← store toDelete (set_left None) st;
        st ← freeNode fuel toDelete st;
        Some (SUCCESS, Some (set_size (size st - 1) st))
  end.

(** ** Traversal *)

Section ForEach.

(** The callback's [args] object is a value of type [Args] that the callback
    may update. *)
Context {Args : Type}.
Variable func : option A → Args → Z * Args.

Fixpoint forEachNode (fuel : nat) (node : ptr) (st : state) (args : Args)
    : option (Z * Args) :=
  match node with
  | None => Some (SUCCESS, args)
  | Some _ =>
      match fuel with
      | O => None
      | S fuel =>
          n ← load node st;
          '(r, args) ← forEachNode fuel (left n) st args;
          if decide (r = FAILURE) then Some (FAILURE, args)
          else
            let '(r, args) := func (data n) args in
            if decide (r = FAILURE) then Some (FAILURE, args)
            else
              '(r, args) ← forEachNode fuel (right n) st args;
              if decide (r = FAILURE) then Some (FAILURE, args)
              else Some (SUCCESS, args)
      end
  end.

(** [forEachRBTree]: with a NULL tree the callback is not run and [args]
    is returned as it was. *)
Definition forEachRBTree (tree : option state) (args : Args) : option (Z * Args) :=
  match tree with
  | None => Some (FAILURE, args)
  | Some st =>
      match root st with
      | None => Some (SUCCESS, args)
      | Some _ => forEachNode (fuel_of st) (root st) st args
      end
  end.

End ForEach.

End RBTree.

(** ** The tree a node store holds *)

Section Abstraction.

Context {A : Type}.

(** A tree of nodes: color, left subtree, address, payload, right subtree. *)
Inductive tree :=
  | E
  | T (c : Color) (l : tree) (a : addr) (d : A) (r : tree).

(** The pointer to the root node of a tree. *)
Definition rootp (t : tree) : ptr :=
  match t with
  | E => None
  | T _ _ a _ _ => Some a
  end.

Fixpoint addrs (t : tree) : list addr :=
  match t with
  | E => []
  | T _ l a _ r => addrs l ++ a :: addrs r
  end.

(** Payloads in in-order sequence. *)
Fixpoint inorder (t : tree) : list A :=
  match t with
  | E => []
  | T _ l _ d r => inorder l ++ d :: inorder r
  end.

Fixpoint count (t : tree) : nat :=
  match t with
  | E => O
  | T _ l _ _ r => Datatypes.S (count l + count r)
  end.

(** [repr h par t]: the store [h] holds the nodes of [t], linked as [t]
    is, under the parent pointer [par]. *)
Fixpoint repr (h : gmap addr (@Node A)) (par : ptr) (t : tree) : Prop :=
  match t with
  | E => True
  | T c l a d r =>
      h !! a = Some (mkNode par (rootp l) (rootp r) c (Some d))
      ∧ repr h (Some a) l ∧ repr h (Some a) r
  end.

(** One step of the path from a node up to the root: the node is the
    left child of [a] (whose right subtree is [r]), or its right child. *)
Inductive frame :=
  | FL (c : Color) (a : addr) (d : A) (r : tree)
  | FR (c : Color) (l : tree) (a : addr) (d : A).

(** A position in a tree: the frames from the position up to the root. *)
Definition path := list frame.

Fixpoint plug (k : path) (t : tree) : tree :=
  match k with
  | [] => t
  | FL c a d r :: k => plug k (T c t a d r)
  | FR c l a d :: k => plug k (T c l a d t)
  end.

(** The parent pointer of the node at a position. *)
Definition hole_parent (k : path) : ptr :=
  match k with
  | [] => None
  | FL _ a _ _ :: _ => Some a
  | FR _ _ a _ :: _ => Some a
  end.

(** [getSide] of the node at a position. *)
Definition hole_side (k : path) : Z :=
  match k with
  | [] => FAILURE
  | FL _ _ _ _ :: _ => LEFT
  | FR _ _ _ _ :: _ => RIGHT
  end.

Fixpoint paddrs (k : path) : list addr :=
  match k with
  | [] => []
  | FL _ a _ r :: k => a :: addrs r ++ paddrs k
  | FR _ l a _ :: k => a :: addrs l ++ paddrs k
  end.

Fixpoint repr_path (h : gmap addr (@Node A)) (k : path) (hole : ptr) : Prop :=
  match k with
  | [] => True
  | FL c a d r :: k' =>
      h !! a = Some (mkNode (hole_parent k') hole (rootp r) c (Some d))
      ∧ repr h (Some a) r ∧ repr_path h k' (Some a)
  | FR c l a d :: k' =>
      h !! a = Some (mkNode (hole_parent k') (rootp l) hole c (Some d))
      ∧ repr h (Some a) l ∧ repr_path h k' (Some a)
  end.

(** The root pointer of [plug k t], given the root pointer of [t]. *)
Fixpoint path_root (k : path) (hole : ptr) : ptr :=
  match k with
  | [] => hole
  | FL _ a _ _ :: k' => path_root k' (Some a)
  | FR _ _ a _ :: k' => path_root k' (Some a)
  end.

(** [Rep F z fr st t]: the state [st] holds the tree [t]: its root
    pointer, the nodes of [t] in the store with all their links, no node
    twice; [F] is what the store holds besides the tree, [z] the count and
    [fr] the log of destructed payloads. *)
Definition Rep (F : gmap addr (@Node A)) (z : Z) (fr : list (option A))
    (st : @state A) (t : tree) : Prop :=
  root st = rootp t ∧ size st = z ∧ freed st = fr
  ∧ repr (heap st) None t ∧ NoDup (addrs t)
  ∧ (∀ x, x ∉ addrs t → heap st !! x = F !! x)
  ∧ (∀ x, x ∈ addrs t → F !! x = None).

(** [paint a c t]: the node at address [a] recolored [c]. *)
Fixpoint paint (a : addr) (c : Color) (t : tree) : tree :=
  match t with
  | E => E
  | T c' l x d r =>
      T (if decide (x = a) then c else c') (paint a c l) x d (paint a c r)
  end.

Definition frame_color (f : frame) : Color :=
  match f with
  | FL c _ _ _ => c
  | FR c _ _ _ => c
  end.

Definition frame_addr (f : frame) : addr :=
  match f with
  | FL _ a _ _ => a
  | FR _ _ a _ => a
  end.

(** The root color; an absent node counts as BLACK. *)
Definition tcolor (t : tree) : Color :=
  match t with
  | E => BLACK
  | T c _ _ _ _ => c
  end.

End Abstraction.

Arguments tree : clear implicits.
Arguments frame : clear implicits.
Arguments path : clear implicits.

(** ** The algorithms on trees and positions *)

Section TreeAlgorithms.

Context {A : Type}.
Variable compFunc : option A → option A → Z.

Implicit Types (t l r : tree A) (k : path A).

(** The binary-search descent of [findNode] and [insertNode] from the
    position [k] of [t]: the position of the node comparing equal to [d],
    or the empty position where the descent ends. *)
Fixpoint descend (d : option A) (k : path A) (t : tree A) : path A * tree A :=
  match t with
  | E => (k, E)
  | T c l a x r =>
      let compRes := compFunc d (Some x) in
      if decide (compRes = EQUAL) then (k, t)
      else if decide (compRes < EQUAL) then descend d (FL c a x r :: k) l
      else descend d (FR c l a x :: k) r
  end.

(** The descent of [findSuccessor] along left children. *)
Fixpoint leftmost (k : path A) (t : tree A) : path A * tree A :=
  match t with
  | E => (k, E)
  | T c l a x r =>
      match l with
      | E => (k, t)
      | T _ _ _ _ _ => leftmost (FL c a x r :: k) l
      end
  end.

Definition frame_sibling (f : frame A) : tree A :=
  match f with
  | FL _ _ _ r => r
  | FR _ l _ _ => l
  end.

(** The node of a frame, colored [c], over the subtree [t]. *)
Definition fill (c : Color) (f : frame A) (t : tree A) : tree A :=
  match f with
  | FL _ a d r => T c t a d r
  | FR _ l a d => T c l a d t
  end.

Definition recolor (c : Color) (t : tree A) : tree A :=
  match t with
  | E => E
  | T _ l a d r => T c l a d r
  end.

(** What [updateColors] makes of the tree when run on the node [a] (with
    subtrees [l] and [r]) at position [k]: the color it returns for the
    node, and the tree once the node has that color. *)
Fixpoint ins_fix (k : path A) (l : tree A) (a : addr) (d : A) (r : tree A)
    : option (Color * tree A) :=
  match k with
  | [] => Some (BLACK, T BLACK l a d r)
  | f1 :: k1 =>
      if decide (frame_color f1 = BLACK) then Some (RED, plug k (T RED l a d r))
      else
        match k1 with
        | [] => None
        | f2 :: k2 =>
            if decide (tcolor (frame_sibling f2) = BLACK) then
              Some
                match f1, f2 with
                | FL cp p dp pr, FL cg g dg u =>
                    (RED, plug k2 (T BLACK (T RED l a d r) p dp (T RED pr g dg u)))
                | FR cp pl p dp, FL cg g dg u =>
                    (BLACK, plug k2 (T BLACK (T cp pl p dp l) a d (T RED r g dg u)))
                | FR cp pl p dp, FR cg u g dg =>
                    (RED, plug k2 (T BLACK (T RED u g dg pl) p dp (T RED l a d r)))
                | FL cp p dp pr, FR cg u g dg =>
                    (BLACK, plug k2 (T BLACK (T RED u g dg l) a d (T cp r p dp pr)))
                end
            else
              let sub := fill BLACK f1 (T RED l a d r) in
              let unc := recolor BLACK (frame_sibling f2) in
              match f2 with
              | FL _ g dg _ =>
                  '(_, t) ← ins_fix k2 sub g dg unc; Some (RED, t)
              | FR _ _ g dg =>
                  '(_, t) ← ins_fix k2 unc g dg sub; Some (RED, t)
              end
        end
  end.

(** [closeRedNephewDB] on the parent's frame. *)
Definition close_step (f : frame A) : frame A :=
  match f with
  | FL cp p dp (T cs (T RED sll xl dl slr) xs ds sr) =>
      FL cp p dp (T BLACK sll xl dl (T RED slr xs ds sr))
  | FR cp (T cs sl xs ds (T RED srl xr dr srr)) p dp =>
      FR cp (T BLACK (T RED sl xs ds srl) xr dr srr) p dp
  | _ => f
  end.

(** [farRedNephewDB] on the parent's frame over the deficient subtree. *)
Definition far_step (k : path A) (f : frame A) (t : tree A) : tree A :=
  match f with
  | FL cp p dp (T cs sl xs ds (T RED srl xr dr srr)) =>
      plug k (T cp (T cs t p dp sl) xs ds (T BLACK srl xr dr srr))
  | FR cp (T cs (T RED sll xl dl slr) xs ds sr) p dp =>
      match sr with
      | T RED srl xr dr srr =>
          plug k (T cp (T RED sll xl dl slr) xs ds
                    (T cs (T BLACK srl xr dr srr) p dp t))
      | _ =>
          plug k (T cp (T BLACK sll xl dl slr) xs ds (T cs sr p dp t))
      end
  | _ => plug (f :: k) t
  end.

(** [blackSiblingDB] at the parent's frame [f] (under the position [k])
    over the deficient subtree [t]; [rec] is [solveDB]. *)
Definition black_sibling (rec : path A → tree A → option (tree A))
    (k : path A) (f : frame A) (t : tree A) : option (tree A) :=
  match frame_sibling f with
  | E => None
  | T cs sl xs ds sr =>
      if decide (tcolor sl = BLACK ∧ tcolor sr = BLACK) then
        let s' := T RED sl xs ds sr in
        let f' := match f with
                  | FL cp p dp _ => FL BLACK p dp s'
                  | FR cp _ p dp => FR BLACK s' p dp
                  end in
        if decide (frame_color f = RED) then Some (plug (f' :: k) t)
        else rec k (fill BLACK f' t)
      else Some (far_step k (close_step f) t)
  end.

(** [solveDB] at the position [k] of the deficient subtree [t]. *)
Fixpoint del_fix (fuel : nat) (k : path A) (t : tree A) : option (tree A) :=
  match fuel with
  | O => None
  | S fuel =>
      match k with
      | [] => Some t
      | f :: k' =>
          match frame_sibling f with
          | E => None
          | T cs sl xs ds sr =>
              if decide (cs = RED) then
                match f with
                | FL cp p dp _ =>
                    del_fix fuel (FL RED p dp sl :: FL BLACK xs ds sr :: k') t
                | FR cp _ p dp =>
                    del_fix fuel (FR RED sr p dp :: FR BLACK sl xs ds :: k') t
                end
              else black_sibling (del_fix fuel) k' f t
          end
      end
  end.

(** [switchNodes] as [placeBeforeDeletion] runs it on the node at position
    [k]: the node's new position, color and subtrees. *)
Definition place (k : path A) (t : tree A) : path A * tree A :=
  match t with
  | E => (k, E)
  | T c l a d r =>
      match l, r with
      | E, E => (k, t)
      | T cl ll x dl lr, E => (FL c x dl E :: k, T cl ll a d lr)
      | E, T cr rl x dr rr => (FR c E x dr :: k, T cr rl a d rr)
      | T _ _ _ _ _, T _ _ _ _ _ =>
          match leftmost [] r with
          | (kk, T cs _ x ds sr) => (kk ++ FR c l x ds :: k, T cs E a d sr)
          | (_, E) => (k, t)
          end
      end
  end.

(** [balanceTree] on the node to delete, at position [k]. *)
Definition balance (fuel : nat) (k : path A) (t : tree A) : option (tree A) :=
  match t with
  | E => None
  | T c l _ _ r =>
      if decide (c = RED) then Some (plug k E)
      else
        let child := match l, r with
                     | E, T _ _ _ _ _ => r
                     | T _ _ _ _ _, E => l
                     | _, _ => E
                     end in
        match child with
        | T RED cl x dx cr => Some (plug k (T BLACK cl x dx cr))
        | _ => del_fix fuel k child
        end
  end.

(** The traversal as the interface describes it: the callback runs on the
    payloads in sequence, and the first call that reports failure ends it,
    the remaining payloads unvisited. *)
Fixpoint visit {Args : Type} (func : option A → Args → Z * Args)
    (l : list (option A)) (args : Args) : Z * Args :=
  match l with
  | [] => (SUCCESS, args)
  | x :: l' =>
      let '(r, args') := func x args in
      if decide (r = FAILURE) then (FAILURE, args') else visit func l' args'
  end.

(** ** Red-black invariants *)

(** Black nodes down the leftmost path. *)
Fixpoint bh (t : tree A) : nat :=
  match t with
  | E => O
  | T c l _ _ _ => (bh l + if c is BLACK then 1 else 0)%nat
  end.

(** Every path from a node to an absent position below it has the same
    number of BLACK nodes. *)
Fixpoint balanced (t : tree A) : Prop :=
  match t with
  | E => True
  | T _ l _ _ r => bh l = bh r ∧ balanced l ∧ balanced r
  end.

(** No RED node has a RED child. *)
Fixpoint no_red_red (t : tree A) : Prop :=
  match t with
  | E => True
  | T c l _ _ r =>
      (c = RED → tcolor l = BLACK ∧ tcolor r = BLACK)
      ∧ no_red_red l ∧ no_red_red r
  end.

(** The number of BLACK nodes on each path from the root of [t] to an
    absent position, path by path from left to right. *)
Fixpoint path_blacks (t : tree A) : list nat :=
  match t with
  | E => [O]
  | T c l _ _ r =>
      (λ n, (n + if c is BLACK then 1 else 0)%nat) <$> (path_blacks l ++ path_blacks r)
  end.

(** [s] is [t] or a subtree of it. *)
Fixpoint subtree (s t : tree A) : Prop :=
  s = t ∨ match t with
          | E => False
          | T _ l _ _ r => subtree s l ∨ subtree s r
          end.

(** The comparator orders the list strictly. *)
Fixpoint sorted (l : list A) : Prop :=
  match l with
  | [] => True
  | x :: l' => Forall (λ y, compFunc (Some x) (Some y) < 0) l' ∧ sorted l'
  end.

Definition red_black (t : tree A) : Prop :=
  tcolor t = BLACK ∧ no_red_red t ∧ balanced t.

(** The contract of the comparator on payloads: the sign flips with the
    arguments, and "not greater" is transitive. *)
Record comparator : Prop := {
  comp_sgn : ∀ x y : A, Z.sgn (compFunc (Some y) (Some x)) = - Z.sgn (compFunc (Some x) (Some y));
  comp_trans : ∀ x y z : A,
    compFunc (Some x) (Some y) ≤ 0 → compFunc (Some y) (Some z) ≤ 0 →
    compFunc (Some x) (Some z) ≤ 0
}.

(** A state that holds a red-black search tree and nothing else. *)
Definition Inv (st : @state A) : Prop :=
  ∃ t, Rep ∅ (Z.of_nat (count t)) (freed st) st t
       ∧ red_black t ∧ sorted (inorder t).

End TreeAlgorithms.

Section PathInvariants.

Context {A : Type}.
Implicit Types (t l r : tree A) (k : path A).

(** The node above the position is BLACK. *)
Definition above_black (k : path A) : Prop :=
  match k with
  | [] => False
  | f :: _ => frame_color f = BLACK
  end.

(** [path_rb k n]: what is around the position [k] keeps the red-black
    rules, once a subtree of black height [n] sits at [k]. *)
Fixpoint path_rb (k : path A) (n : nat) : Prop :=
  match k with
  | [] => True
  | f :: k' =>
      bh (frame_sibling f) = n
      ∧ balanced (frame_sibling f) ∧ no_red_red (frame_sibling f)
      ∧ (frame_color f = RED → tcolor (frame_sibling f) = BLACK ∧ above_black k')
      ∧ path_rb k' (n + if frame_color f is BLACK then 1 else 0)%nat
  end.

(** Payloads before the position, in sequence. *)
Fixpoint pleft (k : path A) : list A :=
  match k with
  | [] => []
  | FL _ _ _ _ :: k' => pleft k'
  | FR _ l _ d :: k' => pleft k' ++ inorder l ++ [d]
  end.

(** Payloads after the position, in sequence. *)
Fixpoint pright (k : path A) : list A :=
  match k with
  | [] => []
  | FL _ _ d r :: k' => d :: inorder r ++ pright k'
  | FR _ _ _ _ :: k' => pright k'
  end.

Definition is_FL (f : frame A) : Prop :=
  match f with
  | FL _ _ _ _ => True
  | FR _ _ _ _ => False
  end.

End PathInvariants.

(** ** References to node pointers in the double-black resolution *)

Section Refs.
Context {A : Type}.

(** What [parentP] may be in [solveDB] run on the subtree [t] under the
    parent [pp]: the caller's local, or the parent field of the root of
    [t]. *)
Definition parent_ref_ok (parentP : nodeRef) (pp : ptr) (t : tree A) : Prop :=
  parentP = RefVar pp ∨ ∃ x, parentP = RefParent (Some x) ∧ rootp t = Some x.

(** What [childP] may be: the caller's local, or the parent field of the
    root of a child of [t]. *)
Definition child_ref_ok (childP : nodeRef) (t : tree A) : Prop :=
  childP = RefVar (rootp t)
  ∨ ∃ y c l a d r, childP = RefParent (Some y) ∧ t = T c l a d r
                   ∧ (rootp l = Some y ∨ rootp r = Some y).

End Refs.

(** ** Runs of the interface *)

Section Runs.

Context {A : Type}.
Variable compFunc : option A → option A → Z.

(** A client's run of insertions that all succeed: each payload comes with
    the address [malloc] returns for its node, an address not in use. *)
Fixpoint insert_all (st : @state A) (l : list (A * addr)) : option (@state A) :=
  match l with
  | [] => Some st
  | (d, a) :: l' =>
      if decide (heap st !! a = None) then
        match insertToRBTree compFunc (Some st) (Some d) (Some a) with
        | Some (r, Some st') =>
            if decide (r = FAILURE) then None else insert_all st' l'
        | _ => None
        end
      else None
  end.

(** A client's run of deletions that all succeed. *)
Fixpoint delete_all (st : @state A) (l : list A) : option (@state A) :=
  match l with
  | [] => Some st
  | d :: l' =>
      match deleteFromRBTree compFunc (Some st) (Some d) with
      | Some (r, Some st') =>
          if decide (r = FAILURE) then None else delete_all st' l'
      | _ => None
      end
  end.

(** The states a client can reach from [newRBTree] with [insertToRBTree]
    and [deleteFromRBTree], whatever they return; [malloc] fails or returns
    an address not in use. *)
Inductive reachable : @state A → Prop :=
  | reach_new : reachable newRBTree
  | reach_insert st d p r st' :
      reachable st →
      (∀ a, p = Some a → heap st !! a = None) →
      insertToRBTree compFunc (Some st) d p = Some (r, Some st') →
      reachable st'
  | reach_delete st d r st' :
      reachable st →
      deleteFromRBTree compFunc (Some st) d = Some (r, Some st') →
      reachable st'.

(** The state holds a red-black search tree and nothing else: the root,
    if present, is BLACK, no RED node has a RED child, below every node all
    paths to an absent position count the same number of BLACK nodes, and
    the payloads in sequence are strictly ordered. *)
Definition rb_search_tree (st : @state A) : Prop :=
  ∃ t, Rep ∅ (Z.of_nat (count t)) (freed st) st t
       ∧ tcolor t = BLACK
       ∧ no_red_red t
       ∧ (∀ s, subtree s t → Forall (λ n, n = bh s) (path_blacks s))
       ∧ sorted compFunc (inorder t).

(** No two payloads of the list compare equal. *)
Fixpoint distinct (l : list A) : Prop :=
  match l with
  | [] => True
  | x :: l' => Forall (λ y, compFunc (Some x) (Some y) ≠ EQUAL) l' ∧ distinct l'
  end.

(** The new node is an inner grandchild (the left child of a right child
    or the right child of a left child) under a RED parent, with the uncle
    absent or BLACK. *)
Definition zigzag (k : path A) : Prop :=
  match k with
  | FL cp _ _ _ :: FR _ u _ _ :: _ => cp = RED ∧ tcolor u = BLACK
  | FR cp _ _ _ :: FL _ _ _ u :: _ => cp = RED ∧ tcolor u = BLACK
  | _ => False
  end.

End Runs.

(** ** A comparator on integers, and a small tree *)

(** Integer payloads compared by subtraction; a NULL payload counts as 0. *)
Definition cmpZ (x y : option Z) : Z := default 0 x - default 0 y.

(** 10, 30 and 20 inserted in this order, at the addresses 1, 2 and 3. *)
Definition three_keys : list (Z * addr) :=
  [(10, 1%positive); (30, 2%positive); (20, 3%positive)].

Definition three_state : @state Z :=
  default newRBTree (insert_all cmpZ newRBTree three_keys).

Definition three_tree : tree Z :=
  T BLACK (T RED E 1%positive 10 E) 3%positive 20 (T RED E 2%positive 30 E).

(** 20, 10, 30, 25 and 35 inserted in this order, at the addresses 1 to 5:
    the BLACK node 30 has the two RED children 25 and 35. *)
Definition five_keys : list (Z * addr) :=
  [(20, 1%positive); (10, 2%positive); (30, 3%positive); (25, 4%positive);
   (35, 5%positive)].

Definition five_state : @state Z :=
  default newRBTree (insert_all cmpZ newRBTree five_keys).

Definition five_tree : tree Z :=
  T BLACK (T BLACK E 2%positive 10 E) 1%positive 20
    (T BLACK (T RED E 4%positive 25 E) 3%positive 30 (T RED E 5%positive 35 E)).

(** 10 and 30 inserted in this order, at the addresses 1 and 2. *)
Definition two_keys : list (Z * addr) := [(10, 1%positive); (30, 2%positive)].

Definition two_state : @state Z :=
  default newRBTree (insert_all cmpZ newRBTree two_keys).

Definition two_tree : tree Z := T BLACK E 1%positive 10 (T RED E 2%positive 30 E).

(** The payload 0 alone. *)
Definition zero_state : @state Z :=
  default newRBTree (insert_all cmpZ newRBTree [(0, 1%positive)]).

(** The tree 20 (10, 30 (-, 35)) once its BLACK leaf 10 is detached: the
    left position under 20 lacks one BLACK node, the sibling 30 is BLACK
    and the far nephew 35 is RED. *)
Definition left_short_tree : tree Z :=
  T BLACK E 1%positive 20 (T BLACK E 3%positive 30 (T RED E 5%positive 35 E)).

Definition left_short_state : @state Z :=
  mkState (Some 1%positive) 3
    (list_to_map
       [(1%positive, mkNode None None (Some 3%positive) BLACK (Some 20));
        (3%positive, mkNode (Some 1%positive) None (Some 5%positive) BLACK (Some 30));
        (5%positive, mkNode (Some 3%positive) None None RED (Some 35))])
    [].

(** The mirror image: 20 (10 (5, -), 30) once its BLACK leaf 30 is
    detached. *)
Definition right_short_tree : tree Z :=
  T BLACK (T BLACK (T RED E 5%positive 5 E) 3%positive 10 E) 1%positive 20 E.

Definition right_short_state : @state Z :=
  mkState (Some 1%positive) 3
    (list_to_map
       [(1%positive, mkNode None (Some 3%positive) None BLACK (Some 20));
        (3%positive, mkNode (Some 1%positive) (Some 5%positive) None BLACK (Some 10));
        (5%positive, mkNode (Some 3%positive) None None RED (Some 5))])
    [].

(** A callback that records the payloads it is given and reports failure
    on the payload [stop]. *)
Definition record_until (stop : Z) (d : option Z) (seen : list Z) : Z * list Z :=
  (if decide (d = Some stop) then FAILURE else SUCCESS, seen ++ [default 0 d]).

(** The state after 10 is deleted from the tree of five payloads. *)
Definition four_state : @state Z :=
  match deleteFromRBTree cmpZ (Some five_state) (Some 10) with
  | Some (_, Some st) => st
  | _ => five_state
  end.

(** The tree of five payloads once its BLACK leaf 10 is detached: the
    sibling 30 of the deficient position is BLACK, both nephews are RED. *)
Definition red_nephews_tree : tree Z :=
  T BLACK E 1%positive 20
    (T BLACK (T RED E 4%positive 25 E) 3%positive 30 (T RED E 5%positive 35 E)).

Definition red_nephews_state : @state Z :=
  mkState (Some 1%positive) 5
    (list_to_map
       [(1%positive, mkNode None None (Some 3%positive) BLACK (Some 20));
        (3%positive,
         mkNode (Some 1%positive) (Some 4%positive) (Some 5%positive) BLACK (Some 30));
        (4%positive, mkNode (Some 3%positive) None None RED (Some 25));
        (5%positive, mkNode (Some 3%positive) None None RED (Some 35))])
    [].

(** A RED node 20 under the root 40, its left position short of a BLACK
    node, its right child 30 a BLACK leaf. *)
Definition red_parent_tree : tree Z :=
  T BLACK (T RED E 1%positive 20 (T BLACK E 3%positive 30 E)) 7%positive 40
    (T BLACK E 8%positive 50 E).

Definition red_parent_state : @state Z :=
  mkState (Some 7%positive) 5
    (list_to_map
       [(7%positive, mkNode None (Some 1%positive) (Some 8%positive) BLACK (Some 40));
        (1%positive, mkNode (Some 7%positive) None (Some 3%positive) RED (Some 20));
        (3%positive, mkNode (Some 1%positive) None None BLACK (Some 30));
        (8%positive, mkNode (Some 7%positive) None None BLACK (Some 50))])
    [].

(** A callback that records every payload and never reports failure. *)
Definition record_all (d : option Z) (seen : list Z) : Z * list Z :=
  (SUCCESS, seen ++ [default 0 d]).

(** The mirror image of [red_nephews_tree]: under 20 the right position is
    short of a BLACK node, the sibling 10 is BLACK, both nephews are RED. *)
Definition red_nephews_right_tree : tree Z :=
  T BLACK
    (T BLACK (T RED E 5%positive 5 E) 3%positive 10 (T RED E 4%positive 15 E))
    1%positive 20 E.

Definition red_nephews_right_state : @state Z :=
  mkState (Some 1%positive) 5
    (list_to_map
       [(1%positive, mkNode None (Some 3%positive) None BLACK (Some 20));
        (3%positive,
         mkNode (Some 1%positive) (Some 5%positive) (Some 4%positive) BLACK (Some 10));
        (5%positive, mkNode (Some 3%positive) None None RED (Some 5));
        (4%positive, mkNode (Some 3%positive) None None RED (Some 15))])
    [].

(** The tree of 10 and 30 with the new node 20 just linked by insertNode,
    still BLACK as allocated: the left child of the RED right child 30,
    with no uncle. *)
Definition zigzag_tree : tree Z :=
  T BLACK E 1%positive 10 (T RED (T BLACK E 3%positive 20 E) 2%positive 30 E).

Definition zigzag_state : @state Z :=
  mkState (Some 1%positive) 2
    (list_to_map
       [(1%positive, mkNode None None (Some 2%positive) BLACK (Some 10));
        (2%positive, mkNode (Some 1%positive) (Some 3%positive) None RED (Some 30));
        (3%positive, mkNode (Some 2%positive) None None BLACK (Some 20))])
    [].

(** The tree of 20, 10 and 30 with the new node 25 just linked by
    insertNode: its parent 30 and its uncle 10 are RED. *)
Definition red_uncle_tree : tree Z :=
  T BLACK (T RED E 2%positive 10 E) 1%positive 20
    (T RED (T BLACK E 4%positive 25 E) 3%positive 30 E).

Definition red_uncle_state : @state Z :=
  mkState (Some 1%positive) 3
    (list_to_map
       [(1%positive, mkNode None (Some 2%positive) (Some 3%positive) BLACK (Some 20));
        (2%positive, mkNode (Some 1%positive) None None RED (Some 10));
        (3%positive, mkNode (Some 1%positive) (Some 4%positive) None RED (Some 30));
        (4%positive, mkNode (Some 3%positive) None None BLACK (Some 25))])
    [].

(** ** Teardown *)

Section Teardown.

Context {A : Type}.

(** [freeRBTree(tree)], [tree] pointing to the variable that holds the
    tree: the nodes are freed from the root, the tree object is freed and
    the variable is set to NULL.  The result is the variable's new value
    with what is left of the node store and the destructor log; a NULL tree
    in the variable is dereferenced, which is undefined. *)
Definition freeRBTree (tree : option (@state A))
    : option (option (@state A) * gmap addr (@Node A) * list (option A)) :=
  match tree with
  | None => None
  | Some st =>
      st' ← freeNode (fuel_of st) (root st) st;
      Some (None, heap st', freed st')
  end.

(** Payloads in post-order: left subtree, right subtree, node. *)
Fixpoint postorder (t : tree A) : list A :=
  match t with
  | E => []
  | T _ l _ d r => postorder l ++ postorder r ++ [d]
  end.

(** Nodes on the longest path from the root down. *)
Fixpoint height (t : tree A) : nat :=
  match t with
  | E => O
  | T _ l _ _ r => S (height l `max` height r)
  end.

(** The state holds a tree of at most logarithmic height: two to the
    power of the height is at most the square of the count plus one. *)
Definition shallow (st : @state A) : Prop :=
  ∃ t, Rep ∅ (size st) (freed st) st t
       ∧ 2 ^ Z.of_nat (height t) ≤ (size st + 1) ^ 2.

End Teardown.

(** ** Structs.c: the comparator of vectors *)

Definition SMALLER : Z := -1.
Definition GREATER : Z := 1.
Definition START_VAL : Z := 0.
Definition STARTING_IDX : nat := 0.

Section Vectors.

(** The coordinates are C doubles; the comparator only compares them, with
    [<] and [>]: the embedding takes their type and [<], as [ltD], as given. *)
Context {D : Type}.
Variable ltD : D → D → bool.

(** Modelled from the spec: Structs.h is not part of the sources; a vector
    is its length and the array of its coordinates. *)
Record Vector := mkVector {
  len : Z;
  vector : list D
}.

(** The [for] loop of [vectorCompare1By1] from index [i], with [n]
    iterations left; reading past the end of an array is undefined. *)
Fixpoint vectorCompare_loop (n i : nat) (va vb : list D) (shortVec : Z) : option Z :=
  match n with
  | O => Some shortVec
  | S n' =>
      aCoord ← va !! i;
      bCoord ← vb !! i;
      if ltD aCoord bCoord then Some SMALLER
      else if ltD bCoord aCoord then Some GREATER
      else vectorCompare_loop n' (S i) va vb shortVec
  end.

Definition vectorCompare1By1 (a b : Vector) : option Z :=
  let '(n, shortVec) :=
    if decide (len a = len b) then (len a, START_VAL)
    else if decide (len a < len b) then (len a, SMALLER)
    else (len b, GREATER) in
  vectorCompare_loop (Z.to_nat n) STARTING_IDX (vector a) (vector b) shortVec.

(** The order the documentation of [vectorCompare1By1] describes: element
    by element, the vector with the first larger element is the larger,
    and a vector that is a proper prefix of the other is the smaller. *)
Fixpoint lex_compare (va vb : list D) : Z :=
  match va, vb with
  | [], [] => 0
  | [], _ :: _ => SMALLER
  | _ :: _, [] => GREATER
  | x :: va', y :: vb' =>
      if ltD x y then SMALLER
      else if ltD y x then GREATER
      else lex_compare va' vb'
  end.

(** The length field is the length of the array. *)
Definition well_formed (v : Vector) : Prop := len v = Z.of_nat (length (vector v)).

(** [<] is a strict total order on the coordinates at hand (as it is on
    doubles that are not NaN). *)
Record strict_total : Prop := {
  ord_irrefl : ∀ x, ltD x x = false;
  ord_trans : ∀ x y z, ltD x y = true → ltD y z = true → ltD x z = true;
  ord_total : ∀ x y, ltD x y = false → ltD y x = false → x = y
}.

End Vectors.

(** * Proofs *)

(** ** Trees at a position *)

Section BasicFacts.
Context {A : Type}.
Implicit Types (t l r : tree A) (k : path A) (h : gmap addr (@Node A)).

Lemma repr_plug h k t :
  repr h None (plug k t) ↔ repr_path h k (rootp t) ∧ repr h (hole_parent k) t.
Proof.
  revert t. induction k as [|[c a d r|c l a d] k IH]; intros t; simpl.
  - tauto.
  - rewrite IH. simpl. tauto.
  - rewrite IH. simpl. tauto.
Qed.

Lemma plug_app k1 k2 t : plug (k1 ++ k2) t = plug k2 (plug k1 t).
Proof. revert t. induction k1 as [|[] k1 IH]; intros t; simpl; auto. Qed.

Lemma rootp_plug k t : rootp (plug k t) = path_root k (rootp t).
Proof.
  revert t. induction k as [|[c a d r|c l a d] k IH]; intros t; simpl; auto.
Qed.

Lemma addrs_plug k t : addrs (plug k t) ≡ₚ addrs t ++ paddrs k.
Proof.
  revert t. induction k as [|[c a d r|c l a d] k IH]; intros t; simpl.
  - by rewrite app_nil_r.
  - rewrite IH. simpl. by rewrite <- app_assoc.
  - rewrite IH. simpl. rewrite <- app_assoc. simpl.
    rewrite <- !Permutation_middle. f_equiv.
    by rewrite !app_assoc, (Permutation_app_comm (addrs l)).
Qed.

Lemma repr_ext h h' par t :
  (∀ x, x ∈ addrs t → h' !! x = h !! x) → repr h par t → repr h' par t.
Proof.
  revert par. induction t as [|c l IHl a d r IHr]; intros par Hx; simpl; auto.
  intros (Ha & Hl & Hr). split_and!.
  - rewrite Hx; auto. set_solver.
  - apply IHl; auto. intros; apply Hx. set_solver.
  - apply IHr; auto. intros; apply Hx. set_solver.
Qed.

Lemma repr_path_ext h h' k hole :
  (∀ x, x ∈ paddrs k → h' !! x = h !! x) → repr_path h k hole → repr_path h' k hole.
Proof.
  revert hole. induction k as [|[c a d r|c l a d] k IH]; intros hole Hx; simpl; auto.
  - intros (Ha & Hr & Hk). split_and!.
    + rewrite Hx; auto. set_solver.
    + apply (repr_ext h); [|done]. intros; apply Hx. set_solver.
    + apply IH; auto. intros; apply Hx. set_solver.
  - intros (Ha & Hr & Hk). split_and!.
    + rewrite Hx; auto. set_solver.
    + apply (repr_ext h); [|done]. intros; apply Hx. set_solver.
    + apply IH; auto. intros; apply Hx. set_solver.
Qed.

End BasicFacts.

(** ** Distinct addresses, read off one [NoDup] fact *)

Section Distinct.
Context {X : Type}.
Implicit Types (L l : list X).

Lemma nd_sub L l : NoDup L → l ⊆+ L → NoDup l.
Proof.
  intros Hnd [l' Hp]%submseteq_Permutation. rewrite Hp in Hnd.
  by apply NoDup_app in Hnd as (? & _).
Qed.

Lemma nd_neq L a b : NoDup L → [a; b] ⊆+ L → a ≠ b.
Proof.
  intros Hnd Hsub. apply (nd_sub _ _ Hnd) in Hsub.
  apply NoDup_cons in Hsub as [Hn _]. intros ->. apply Hn. by left.
Qed.

Lemma nd_notin L a l : NoDup L → a :: l ⊆+ L → a ∉ l.
Proof.
  intros Hnd Hsub. apply (nd_sub _ _ Hnd) in Hsub.
  by apply NoDup_cons in Hsub as [Hn _].
Qed.

Lemma nd_in_neq L a l x : NoDup L → a :: l ⊆+ L → x ∈ l → a ≠ x.
Proof. intros Hnd Hsub Hx ->. by apply (nd_notin L x l). Qed.

Lemma sub_elem L a : [a] ⊆+ L → a ∈ L.
Proof. intros H. eapply elem_of_submseteq; [|exact H]. by left. Qed.

Lemma notin_perm L L' x : L' ≡ₚ L → x ∉ L → x ∉ L'.
Proof. by intros ->. Qed.

Lemma in_perm L L' x : L' ≡ₚ L → x ∈ L' → x ∈ L.
Proof. by intros ->. Qed.

Lemma nodup_perm L L' : L' ≡ₚ L → NoDup L → NoDup L'.
Proof. by intros ->. Qed.

End Distinct.

Ltac distinct Hnd a b :=
  assert (a ≠ b) by (apply (nd_neq _ a b Hnd); solve_submseteq).

Ltac outside Hnd a l :=
  assert (a ∉ l) by (apply (nd_notin _ a l Hnd); solve_submseteq).

(** Symbolic execution of store code on a state given by its fields. *)
Ltac exec1 :=
  first
  [ progress cbn [rotate getSide connectNodes connectNode load store release
                  mbind option_bind
                  heap root size freed set_heap set_root set_size log_free
                  parent left right color data
                  set_parent set_left set_right set_color]
  | rewrite lookup_insert_eq
  | rewrite lookup_insert_ne by done
  | match goal with H : ?h !! ?a = Some _ |- context [?h !! ?a] => rewrite H end
  | rewrite decide_True by (done || congruence)
  | rewrite decide_False
      by (done || congruence || (let H := fresh in intros H; exact (H eq_refl))) ].
Ltac exec := repeat exec1.

Ltac frame_neq Hnd Hx :=
  match goal with
  | |- ?a ≠ _ =>
      match type of Hx with
      | _ ∈ ?l => refine (nd_in_neq _ a l _ Hnd _ Hx); solve_submseteq
      end
  end.

Ltac post Hnd :=
  repeat match goal with
  | |- _ ∧ _ => split
  | |- True => exact I
  | |- ?x = ?x => reflexivity
  | H : repr ?h ?par ?t |- repr ?h' ?par ?t =>
      is_var t;
      apply (repr_ext h h' par t);
      [ let x := fresh "x" in let Hx := fresh "Hx" in
        intros x Hx; rewrite ?lookup_insert_ne by frame_neq Hnd Hx; reflexivity
      | exact H ]
  | H : repr_path ?h ?k ?hole |- repr_path ?h' ?k ?hole =>
      is_var k;
      apply (repr_path_ext h h' k hole);
      [ let x := fresh "x" in let Hx := fresh "Hx" in
        intros x Hx; rewrite ?lookup_insert_ne by frame_neq Hnd Hx; reflexivity
      | exact H ]
  | |- _ !! _ = Some _ => exec; reflexivity
  end.

Ltac destruct_ands :=
  repeat match goal with H : _ ∧ _ |- _ => destruct H end.

Section RepFacts.
Context {A : Type}.
Implicit Types (t l r : tree A) (k : path A) (h : gmap addr (@Node A)).
Implicit Types (F : gmap addr (@Node A)) (st : @state A).

Lemma rootp_ne t x : x ∉ addrs t → Some x ≠ rootp t.
Proof. destruct t; simpl; [done|]. intros H [= ->]. set_solver. Qed.

Lemma Rep_plug F z fr st k t :
  Rep F z fr st (plug k t) ↔
  root st = path_root k (rootp t) ∧ size st = z ∧ freed st = fr
  ∧ repr_path (heap st) k (rootp t) ∧ repr (heap st) (hole_parent k) t
  ∧ NoDup (addrs t ++ paddrs k)
  ∧ (∀ x, x ∉ addrs t ++ paddrs k → heap st !! x = F !! x)
  ∧ (∀ x, x ∈ addrs t ++ paddrs k → F !! x = None).
Proof.
  unfold Rep. rewrite repr_plug, rootp_plug.
  setoid_rewrite (addrs_plug k t). tauto.
Qed.

Lemma Rep_lookup F z fr st k c l a d r :
  Rep F z fr st (plug k (T c l a d r)) →
  heap st !! a = Some (mkNode (hole_parent k) (rootp l) (rootp r) c (Some d)).
Proof. rewrite Rep_plug. simpl. tauto. Qed.

Lemma Rep_load F z fr st k c l a d r :
  Rep F z fr st (plug k (T c l a d r)) →
  load (Some a) st = Some (mkNode (hole_parent k) (rootp l) (rootp r) c (Some d)).
Proof. apply Rep_lookup. Qed.

Lemma Rep_root F z fr st t : Rep F z fr st t → root st = rootp t.
Proof. by intros (? & _). Qed.

End RepFacts.

(** Opens [Rep .. st (plug k t)] into its parts, on a state given by its
    fields. *)
Ltac rep_open HR st :=
  apply Rep_plug in HR; destruct st as [?rt ?sz ?h ?fl];
  cbn [heap root size freed] in HR;
  destruct HR as (Hroot & Hsz & Hfr & Hk & Hrepr & Hnd & Hout & HF).

(** Closes [Rep .. (mkState ..) (plug k t)] after an update of the store:
    the cells of the named nodes are read back, the untouched subtrees are
    framed. *)
Ltac rep_close Hnd Hout HF :=
  apply Rep_plug;
  refine (conj _ (conj _ (conj _ (conj _ (conj _ (conj _ (conj _ _)))))));
  simpl;
  [ try done | try done | try done
  | post Hnd | post Hnd
  | try (refine (nodup_perm _ _ _ Hnd); solve_Permutation)
  | let x := fresh "x" in let Hx := fresh "Hx" in
    intros x Hx;
    rewrite ?lookup_insert_ne by (intros ->; apply Hx; apply sub_elem; solve_submseteq);
    apply Hout; refine (notin_perm _ _ _ _ Hx); solve_Permutation
  | let x := fresh "x" in let Hx := fresh "Hx" in
    intros x Hx; apply HF; refine (in_perm _ _ _ _ Hx); solve_Permutation ].

Section Primitives.
Context {A : Type}.
Implicit Types (t l r : tree A) (k : path A) (h : gmap addr (@Node A)).
Implicit Types (F : gmap addr (@Node A)) (st : @state A).

Lemma getSide_spec F z fr st k c l a d r :
  Rep F z fr st (plug k (T c l a d r)) →
  getSide (Some a) st = Some (hole_side k).
Proof.
  intros HR. rep_open HR st.
  destruct k as [|[cg g dg rg|cg lg g dg] k']; simpl in *; destruct_ands.
  - exec. done.
  - exec. done.
  - outside Hnd a (addrs lg).
    assert (Some a ≠ rootp lg) by (by apply rootp_ne).
    exec. done.
Qed.

Lemma elem_of_addrs_plug t a :
  a ∈ addrs t → ∃ k c l d r, t = plug k (T c l a d r).
Proof.
  induction t as [|c l IHl x d r IHr]; simpl; [by intros ?%elem_of_nil|].
  rewrite elem_of_app, elem_of_cons. intros [Hl|[->|Hr]].
  - destruct (IHl Hl) as (k & c' & l' & d' & r' & ->).
    exists (k ++ [FL c x d r]), c', l', d', r'. by rewrite plug_app.
  - by exists [], c, l, d, r.
  - destruct (IHr Hr) as (k & c' & l' & d' & r' & ->).
    exists (k ++ [FR c l x d]), c', l', d', r'. by rewrite plug_app.
Qed.

Lemma paint_fresh a c t : a ∉ addrs t → paint a c t = t.
Proof.
  induction t as [|c' l IHl x d r IHr]; simpl; [done|].
  rewrite elem_of_app, elem_of_cons. intros H.
  rewrite IHl, IHr by tauto. rewrite decide_False; [done|]. intros ->. tauto.
Qed.

Lemma paint_plug a c k t :
  a ∉ paddrs k → paint a c (plug k t) = plug k (paint a c t).
Proof.
  revert t. induction k as [|[cg g dg rg|cg lg g dg] k IH]; intros t; simpl; [done|..].
  - rewrite elem_of_cons, elem_of_app. intros H. rewrite IH by tauto. simpl.
    rewrite (paint_fresh a c rg) by tauto.
    rewrite decide_False; [done|]. intros ->. tauto.
  - rewrite elem_of_cons, elem_of_app. intros H. rewrite IH by tauto. simpl.
    rewrite (paint_fresh a c lg) by tauto.
    rewrite decide_False; [done|]. intros ->. tauto.
Qed.

Lemma paint_focus a c k c0 l d r :
  NoDup (addrs (plug k (T c0 l a d r))) →
  paint a c (plug k (T c0 l a d r)) = plug k (T c l a d r).
Proof.
  rewrite addrs_plug. simpl. intros Hnd.
  outside Hnd a (paddrs k). outside Hnd a (addrs l). outside Hnd a (addrs r).
  rewrite paint_plug by done. simpl.
  rewrite decide_True by done.
  by rewrite !paint_fresh.
Qed.

Lemma addrs_paint a c t : addrs (paint a c t) = addrs t.
Proof. induction t; simpl; congruence. Qed.

Lemma inorder_paint a c t : inorder (paint a c t) = inorder t.
Proof. induction t; simpl; congruence. Qed.

(** [x->color = c] for a node of the tree. *)
Lemma store_color_focus F z fr st k c0 l a d r c :
  Rep F z fr st (plug k (T c0 l a d r)) →
  ∃ st', store (Some a) (set_color c) st = Some st'
         ∧ Rep F z fr st' (plug k (T c l a d r)).
Proof.
  intros HR. rep_open HR st. simpl in *. destruct_ands.
  exec. eexists. split; [reflexivity|].
  rep_close Hnd Hout HF.
Qed.

Lemma store_color_spec F z fr st t a c :
  Rep F z fr st t → a ∈ addrs t →
  ∃ st', store (Some a) (set_color c) st = Some st'
         ∧ Rep F z fr st' (paint a c t).
Proof.
  intros HR Ha. destruct (elem_of_addrs_plug _ _ Ha) as (k & c0 & l & d & r & ->).
  rewrite paint_focus by apply HR.
  by eapply store_color_focus.
Qed.

(** [rotate] of a left child above its parent. *)
Lemma rotate_left_spec F z fr st k cp cc a c dc b p dp r :
  Rep F z fr st (plug k (T cp (T cc a c dc b) p dp r)) →
  ∃ st', rotate (Some c) (Some p) st = Some st'
         ∧ Rep F z fr st' (plug k (T cc a c dc (T cp b p dp r))).
Proof.
  intros HR. rep_open HR st.
  destruct k as [| [cg g dg rg | cg lg g dg] k']; destruct b as [| cb bl xb db br];
    simpl in Hk, Hrepr, Hnd, Hout, HF, Hroot; destruct_ands.
  - distinct Hnd c p. exec. eexists. split; [reflexivity|].
    rep_close Hnd Hout HF.
  - distinct Hnd c p. distinct Hnd c xb. distinct Hnd p xb.
    exec. eexists. split; [reflexivity|].
    rep_close Hnd Hout HF.
  - distinct Hnd c p. distinct Hnd c g. distinct Hnd p g.
    exec. eexists. split; [reflexivity|].
    rep_close Hnd Hout HF.
  - distinct Hnd c p. distinct Hnd c xb. distinct Hnd p xb.
    distinct Hnd c g. distinct Hnd p g. distinct Hnd xb g.
    exec. eexists. split; [reflexivity|].
    rep_close Hnd Hout HF.
  - distinct Hnd c p. distinct Hnd c g. distinct Hnd p g.
    outside Hnd p (addrs lg).
    assert (Some p ≠ rootp lg) by (by apply rootp_ne).
    exec. eexists. split; [reflexivity|].
    rep_close Hnd Hout HF.
  - distinct Hnd c p. distinct Hnd c xb. distinct Hnd p xb.
    distinct Hnd c g. distinct Hnd p g. distinct Hnd xb g.
    outside Hnd p (addrs lg).
    assert (Some p ≠ rootp lg) by (by apply rootp_ne).
    exec. eexists. split; [reflexivity|].
    rep_close Hnd Hout HF.
Qed.

End Primitives.

(** ** Rotation to the right, and cells outside the tree *)

Section Primitives2.
Context {A : Type}.
Implicit Types (t l r : tree A) (k : path A) (h : gmap addr (@Node A)).
Implicit Types (F : gmap addr (@Node A)) (st : @state A).

(** [rotate] of a right child above its parent. *)
Lemma rotate_right_spec F z fr st k cp cc a c dc b p dp l :
  Rep F z fr st (plug k (T cp l p dp (T cc b c dc a))) →
  ∃ st', rotate (Some c) (Some p) st = Some st'
         ∧ Rep F z fr st' (plug k (T cc (T cp l p dp b) c dc a)).
Proof.
  intros HR. rep_open HR st.
  destruct k as [| [cg g dg rg | cg lg g dg] k']; destruct b as [| cb bl xb db br];
    simpl in Hk, Hrepr, Hnd, Hout, HF, Hroot; destruct_ands;
    outside Hnd c (addrs l);
    assert (Some c ≠ rootp l) by (by apply rootp_ne).
  - distinct Hnd c p. exec. eexists. split; [reflexivity|].
    rep_close Hnd Hout HF.
  - distinct Hnd c p. distinct Hnd c xb. distinct Hnd p xb.
    exec. eexists. split; [reflexivity|].
    rep_close Hnd Hout HF.
  - distinct Hnd c p. distinct Hnd c g. distinct Hnd p g.
    exec. eexists. split; [reflexivity|].
    rep_close Hnd Hout HF.
  - distinct Hnd c p. distinct Hnd c xb. distinct Hnd p xb.
    distinct Hnd c g. distinct Hnd p g. distinct Hnd xb g.
    exec. eexists. split; [reflexivity|].
    rep_close Hnd Hout HF.
  - distinct Hnd c p. distinct Hnd c g. distinct Hnd p g.
    outside Hnd p (addrs lg).
    assert (Some p ≠ rootp lg) by (by apply rootp_ne).
    exec. eexists. split; [reflexivity|].
    rep_close Hnd Hout HF.
  - distinct Hnd c p. distinct Hnd c xb. distinct Hnd p xb.
    distinct Hnd c g. distinct Hnd p g. distinct Hnd xb g.
    outside Hnd p (addrs lg).
    assert (Some p ≠ rootp lg) by (by apply rootp_ne).
    exec. eexists. split; [reflexivity|].
    rep_close Hnd Hout HF.
Qed.

(** *** Cells outside the tree *)

Lemma Rep_outside F z fr st t a n : Rep F z fr st t → F !! a = Some n → a ∉ addrs t.
Proof.
  intros (_ & _ & _ & _ & _ & _ & HF) Ha Hin. rewrite (HF _ Hin) in Ha. done.
Qed.

Lemma Rep_outside_lookup F z fr st t a n :
  Rep F z fr st t → F !! a = Some n → heap st !! a = Some n.
Proof.
  intros HR Ha. pose proof (Rep_outside _ _ _ _ _ _ _ HR Ha) as Hn.
  destruct HR as (_ & _ & _ & _ & _ & Hout & _). by rewrite Hout.
Qed.

Lemma frame_store F z fr st t a n f :
  Rep F z fr st t → F !! a = Some n →
  ∃ st', store (Some a) f st = Some st' ∧ Rep (<[a := f n]> F) z fr st' t.
Proof.
  intros HR Ha. pose proof (Rep_outside _ _ _ _ _ _ _ HR Ha) as Hn.
  pose proof (Rep_outside_lookup _ _ _ _ _ _ _ HR Ha) as Hl.
  destruct HR as (Hroot & Hsz & Hfr & Hrepr & Hnd & Hout & HF).
  destruct st as [rt sz h fl]. simpl in *. rewrite Hl. simpl.
  eexists. split; [reflexivity|]. unfold Rep. simpl. split_and!; try done.
  - apply (repr_ext h); [|done]. intros x Hx.
    rewrite lookup_insert_ne; [done|]. by intros ->.
  - intros x Hx. destruct (decide (a = x)) as [->|].
    + by rewrite !lookup_insert_eq.
    + rewrite !lookup_insert_ne by done. by apply Hout.
  - intros x Hx. rewrite lookup_insert_ne; [by apply HF|]. by intros ->.
Qed.

Lemma release_spec F z fr st t a n :
  Rep F z fr st t → F !! a = Some n →
  ∃ st', release (Some a) st = Some st' ∧ Rep (delete a F) z fr st' t.
Proof.
  intros HR Ha. pose proof (Rep_outside _ _ _ _ _ _ _ HR Ha) as Hn.
  pose proof (Rep_outside_lookup _ _ _ _ _ _ _ HR Ha) as Hl.
  destruct HR as (Hroot & Hsz & Hfr & Hrepr & Hnd & Hout & HF).
  destruct st as [rt sz h fl]. simpl in *. rewrite Hl. simpl.
  eexists. split; [reflexivity|]. unfold Rep. simpl. split_and!; try done.
  - apply (repr_ext h); [|done]. intros x Hx.
    rewrite lookup_delete_ne; [done|]. by intros ->.
  - intros x Hx. destruct (decide (a = x)) as [->|].
    + by rewrite !lookup_delete_eq.
    + rewrite !lookup_delete_ne by done. by apply Hout.
  - intros x Hx. rewrite lookup_delete_ne; [by apply HF|]. by intros ->.
Qed.

(** A freshly allocated node is a cell outside the tree. *)
Lemma alloc_spec F z fr st t a n :
  Rep F z fr st t → heap st !! a = None →
  Rep (<[a := n]> F) z fr (set_heap (<[a := n]> (heap st)) st) t.
Proof.
  intros (Hroot & Hsz & Hfr & Hrepr & Hnd & Hout & HF) Ha.
  assert (a ∉ addrs t) as Hn.
  { intros Hin. destruct (elem_of_addrs_plug _ _ Hin) as (k & c & l & d & r & ->).
    apply repr_plug in Hrepr as (_ & Hr). simpl in Hr. destruct Hr as (Hr & _).
    congruence. }
  destruct st as [rt sz h fl]. unfold Rep. simpl in *. split_and!; try done.
  - apply (repr_ext h); [|done]. intros x Hx.
    rewrite lookup_insert_ne; [done|]. by intros ->.
  - intros x Hx. destruct (decide (a = x)) as [->|].
    + by rewrite !lookup_insert_eq.
    + rewrite !lookup_insert_ne by done. by apply Hout.
  - intros x Hx. rewrite lookup_insert_ne; [by apply HF|]. by intros ->.
Qed.

Lemma Rep_set_size F z fr st t z' : Rep F z fr st t → Rep F z' fr (set_size z' st) t.
Proof. intros (? & ? & ? & ? & ? & ? & ?). by unfold Rep. Qed.

Lemma Rep_log_free F z fr st t d :
  Rep F z fr st t → Rep F z (fr ++ [d]) (log_free d st) t.
Proof.
  intros (? & ? & Hfr & ? & ? & ? & ?). unfold Rep. simpl. rewrite Hfr. done.
Qed.

(** With nothing outside the tree, the store is the tree's cells. *)
Lemma Rep_empty_heap z fr st : Rep ∅ z fr st E → heap st = ∅.
Proof.
  intros (_ & _ & _ & _ & _ & Hout & _). apply map_eq. intros x.
  rewrite Hout; [done|]. simpl. apply not_elem_of_nil.
Qed.

End Primitives2.

(** ** Attaching and detaching a node *)

Section Attach.
Context {A : Type}.
Implicit Types (t l r : tree A) (k : path A) (h : gmap addr (@Node A)).
Implicit Types (F : gmap addr (@Node A)) (st : @state A).

(** [connectNode] of an allocated, unlinked node at an empty position. *)
Lemma attach_spec F z fr st k a d :
  Rep F z fr st (plug k E) →
  F !! a = Some (mkNode None None None BLACK (Some d)) →
  ∃ st', connectNode (Some a) (hole_parent k) (hole_side k) st = Some st'
         ∧ Rep (delete a F) z fr st' (plug k (T BLACK E a d E)).
Proof.
  intros HR Ha.
  pose proof (Rep_outside _ _ _ _ _ _ _ HR Ha) as Hn.
  pose proof (Rep_outside_lookup _ _ _ _ _ _ _ HR Ha) as Hl.
  rewrite addrs_plug in Hn. simpl in Hn.
  rep_open HR st. simpl in Hl.
  assert (NoDup (a :: paddrs k)) as Hnd' by (by apply NoDup_cons).
  assert (∀ x, x ∉ a :: paddrs k → x ≠ a) as Hxa.
  { intros x Hx ->. apply Hx. by left. }
  destruct k as [| [cg g dg rg | cg lg g dg] k'];
    simpl in Hk, Hrepr, Hnd, Hnd', Hout, HF, Hroot, Hn; destruct_ands.
  - cbn [hole_side hole_parent]. exec. eexists. split; [reflexivity|].
    apply Rep_plug;
      refine (conj _ (conj _ (conj _ (conj _ (conj _ (conj _ (conj _ _)))))));
      simpl; [try done| try done | try done | post Hnd' | post Hnd' | done | | ].
    + intros x Hx. rewrite lookup_insert_ne by (symmetry; by apply Hxa).
      rewrite lookup_delete_ne by (symmetry; by apply Hxa).
      apply Hout. apply not_elem_of_nil.
    + intros x [->|Hx]%elem_of_cons; [apply lookup_delete_eq|].
      by apply elem_of_nil in Hx.
  - distinct Hnd' a g.
    cbn [hole_side hole_parent]. exec. eexists. split; [reflexivity|].
    apply Rep_plug;
      refine (conj _ (conj _ (conj _ (conj _ (conj _ (conj _ (conj _ _)))))));
      simpl; [try done| try done | try done | post Hnd' | post Hnd' | done | | ].
    + intros x Hx.
      rewrite ?lookup_insert_ne by (intros ->; apply Hx; apply sub_elem; solve_submseteq).
      rewrite lookup_delete_ne by (symmetry; by apply Hxa).
      apply Hout. intros Hin. apply Hx. by right.
    + intros x [->|Hx]%elem_of_cons; [apply lookup_delete_eq|].
      rewrite lookup_delete_ne by (intros ->; by apply Hn). by apply HF.
  - distinct Hnd' a g.
    cbn [hole_side hole_parent]. exec. eexists. split; [reflexivity|].
    apply Rep_plug;
      refine (conj _ (conj _ (conj _ (conj _ (conj _ (conj _ (conj _ _)))))));
      simpl; [try done| try done | try done | post Hnd' | post Hnd' | done | | ].
    + intros x Hx.
      rewrite ?lookup_insert_ne by (intros ->; apply Hx; apply sub_elem; solve_submseteq).
      rewrite lookup_delete_ne by (symmetry; by apply Hxa).
      apply Hout. intros Hin. apply Hx. by right.
    + intros x [->|Hx]%elem_of_cons; [apply lookup_delete_eq|].
      rewrite lookup_delete_ne by (intros ->; by apply Hn). by apply HF.
Qed.

(** [connectNode] of the only child of a node, or of NULL, in the node's
    place: the node leaves the tree and stays allocated. *)
Lemma detach_left_spec F z fr st k c l a d :
  Rep F z fr st (plug k (T c l a d E)) →
  ∃ st', connectNode (rootp l) (hole_parent k) (hole_side k) st = Some st'
         ∧ Rep (<[a := mkNode (hole_parent k) (rootp l) None c (Some d)]> F)
             z fr st' (plug k l).
Proof.
  intros HR. rep_open HR st.
  destruct k as [| [cg g dg rg | cg lg g dg] k']; destruct l as [| cl ll x dl lr];
    simpl in Hk, Hrepr, Hnd, Hout, HF, Hroot; destruct_ands;
    cbn [hole_side hole_parent rootp];
    try distinct Hnd a g; try distinct Hnd a x; try distinct Hnd x g;
    exec; (eexists; split; [reflexivity|]);
    (apply Rep_plug;
      refine (conj _ (conj _ (conj _ (conj _ (conj _ (conj _ (conj _ _)))))));
      simpl;
      [ try done | try done | try done | post Hnd | post Hnd
      | refine (nd_sub _ _ Hnd _); solve_submseteq
      | intros y Hy; destruct (decide (a = y)) as [<-|Hay];
        [ exec; reflexivity
        | rewrite (lookup_insert_ne F) by done;
          rewrite ?lookup_insert_ne
            by (intros ->; apply Hy; apply sub_elem; solve_submseteq);
          apply Hout; clear -Hy Hay; set_solver ]
      | intros y Hy;
        rewrite lookup_insert_ne
          by (refine (nd_in_neq _ a _ y Hnd _ Hy); solve_submseteq);
        apply HF; clear -Hy; set_solver ]).
Qed.

Lemma detach_right_spec F z fr st k c r a d :
  Rep F z fr st (plug k (T c E a d r)) →
  ∃ st', connectNode (rootp r) (hole_parent k) (hole_side k) st = Some st'
         ∧ Rep (<[a := mkNode (hole_parent k) None (rootp r) c (Some d)]> F)
             z fr st' (plug k r).
Proof.
  intros HR. rep_open HR st.
  destruct k as [| [cg g dg rg | cg lg g dg] k']; destruct r as [| cl ll x dl lr];
    simpl in Hk, Hrepr, Hnd, Hout, HF, Hroot; destruct_ands;
    cbn [hole_side hole_parent rootp];
    try distinct Hnd a g; try distinct Hnd a x; try distinct Hnd x g;
    exec; (eexists; split; [reflexivity|]);
    (apply Rep_plug;
      refine (conj _ (conj _ (conj _ (conj _ (conj _ (conj _ (conj _ _)))))));
      simpl;
      [ try done | try done | try done | post Hnd | post Hnd
      | refine (nd_sub _ _ Hnd _); solve_submseteq
      | intros y Hy; destruct (decide (a = y)) as [<-|Hay];
        [ exec; reflexivity
        | rewrite (lookup_insert_ne F) by done;
          rewrite ?lookup_insert_ne
            by (intros ->; apply Hy; apply sub_elem; solve_submseteq);
          apply Hout; clear -Hy Hay; set_solver ]
      | intros y Hy;
        rewrite lookup_insert_ne
          by (refine (nd_in_neq _ a _ y Hnd _ Hy); solve_submseteq);
        apply HF; clear -Hy; set_solver ]).
Qed.

End Attach.

(** ** switchNodes *)

Section Switch.
Context {A : Type}.
Implicit Types (t l r : tree A) (k : path A) (h : gmap addr (@Node A)).
Implicit Types (F : gmap addr (@Node A)) (st : @state A).

(** [switchNodes] of a node with its only child, a left leaf. *)
Lemma switch_left_leaf_spec F z fr st k ch cl a dh x dl :
  Rep F z fr st (plug k (T ch (T cl E x dl E) a dh E)) →
  ∃ st', switchNodes (Some a) (Some x) st = Some st'
         ∧ Rep F z fr st' (plug k (T ch (T cl E a dh E) x dl E)).
Proof.
  intros HR. rep_open HR st.
  destruct k as [| [cg g dg rg | cg lg g dg] k'];
    simpl in Hk, Hrepr, Hnd, Hout, HF, Hroot; destruct_ands;
    distinct Hnd a x; try distinct Hnd a g; try distinct Hnd x g;
    try (outside Hnd a (addrs lg);
         assert (Some a ≠ rootp lg) by (by apply rootp_ne));
    unfold switchNodes; exec; (eexists; split; [reflexivity|]);
    rep_close Hnd Hout HF.
Qed.

(** [switchNodes] of a node with its right child, which has no left
    child. *)
Lemma switch_right_child_spec F z fr st k ch cl hl a dh x dl xr :
  Rep F z fr st (plug k (T ch hl a dh (T cl E x dl xr))) →
  ∃ st', switchNodes (Some a) (Some x) st = Some st'
         ∧ Rep F z fr st' (plug k (T ch hl x dl (T cl E a dh xr))).
Proof.
  intros HR. rep_open HR st.
  destruct k as [| [cg g dg rg | cg lg g dg] k'];
    destruct hl as [| c1 l1 y1 d1 r1]; destruct xr as [| c2 l2 y2 d2 r2];
    simpl in Hk, Hrepr, Hnd, Hout, HF, Hroot; destruct_ands;
    distinct Hnd a x; try distinct Hnd a g; try distinct Hnd x g;
    try distinct Hnd a y1; try distinct Hnd x y1; try distinct Hnd g y1;
    try distinct Hnd a y2; try distinct Hnd x y2; try distinct Hnd g y2;
    try distinct Hnd y1 y2;
    try (outside Hnd a (addrs lg);
         assert (Some a ≠ rootp lg) by (by apply rootp_ne));
    unfold switchNodes; exec; (eexists; split; [reflexivity|]);
    rep_close Hnd Hout HF.
Qed.

Lemma paddrs_app k1 k2 : paddrs (k1 ++ k2) = paddrs k1 ++ paddrs k2.
Proof.
  induction k1 as [|[] k1 IH]; simpl; [done|..]; by rewrite IH, <- app_assoc.
Qed.

Lemma path_root_app k1 k2 hole :
  path_root (k1 ++ k2) hole = path_root k2 (path_root k1 hole).
Proof. revert hole. induction k1 as [|[] k1 IH]; intros hole; simpl; auto. Qed.

Lemma hole_parent_app k1 k2 k2' :
  hole_parent k2 = hole_parent k2' → hole_parent (k1 ++ k2) = hole_parent (k1 ++ k2').
Proof. by destruct k1 as [|[]]. Qed.

Lemma repr_path_app h k1 k2 hole :
  repr_path h (k1 ++ k2) hole → repr_path h k2 (path_root k1 hole).
Proof.
  revert hole. induction k1 as [|[] k1 IH]; intros hole; simpl; [done|..];
    intros (_ & _ & H); by apply IH.
Qed.

Lemma repr_path_app_change h h' k1 k2 k2' hole :
  hole_parent k2 = hole_parent k2' →
  repr_path h (k1 ++ k2) hole →
  (∀ x, x ∈ paddrs k1 → h' !! x = h !! x) →
  repr_path h' k2' (path_root k1 hole) →
  repr_path h' (k1 ++ k2') hole.
Proof.
  intros Hp. revert hole.
  induction k1 as [|[c a d r|c l a d] k1 IH]; intros hole; simpl; [done|..].
  - intros (Ha & Hr & Hk) Hx H2. split_and!.
    + rewrite Hx by (by left). by rewrite <- (hole_parent_app k1 k2 k2' Hp).
    + apply (repr_ext h); [|done]. intros x Hin. apply Hx.
      right. apply elem_of_app. by left.
    + apply IH; [done| |done]. intros x Hin. apply Hx.
      right. apply elem_of_app. by right.
  - intros (Ha & Hr & Hk) Hx H2. split_and!.
    + rewrite Hx by (by left). by rewrite <- (hole_parent_app k1 k2 k2' Hp).
    + apply (repr_ext h); [|done]. intros x Hin. apply Hx.
      right. apply elem_of_app. by left.
    + apply IH; [done| |done]. intros x Hin. apply Hx.
      right. apply elem_of_app. by right.
Qed.

(** [switchNodes] of a node with the leftmost node of its right subtree,
    when that node is the left child of the right child. *)
Lemma switch_succ_near_spec F z fr st k ch cl ct hl a dh x dl xr yt dt rt :
  Rep F z fr st (plug k (T ch hl a dh (T ct (T cl E x dl xr) yt dt rt))) →
  ∃ st', switchNodes (Some a) (Some x) st = Some st'
         ∧ Rep F z fr st' (plug k (T ch hl x dl (T ct (T cl E a dh xr) yt dt rt))).
Proof.
  intros HR. rep_open HR st.
  destruct k as [| [cg g dg rg | cg lg g dg] k'];
    destruct hl as [| c1 l1 y1 d1 r1]; destruct xr as [| c2 l2 y2 d2 r2];
    simpl in Hk, Hrepr, Hnd, Hout, HF, Hroot; destruct_ands;
    distinct Hnd a x; distinct Hnd a yt; distinct Hnd x yt;
    try distinct Hnd a g; try distinct Hnd x g; try distinct Hnd yt g;
    try distinct Hnd a y1; try distinct Hnd x y1; try distinct Hnd g y1;
    try distinct Hnd yt y1;
    try distinct Hnd a y2; try distinct Hnd x y2; try distinct Hnd g y2;
    try distinct Hnd yt y2;
    try distinct Hnd y1 y2;
    try (outside Hnd a (addrs lg);
         assert (Some a ≠ rootp lg) by (by apply rootp_ne));
    unfold switchNodes; exec; (eexists; split; [reflexivity|]);
    rep_close Hnd Hout HF.
Qed.

End Switch.

(** ** switchNodes with a distant successor *)

Section SwitchFar.
Context {A : Type}.
Implicit Types (t l r : tree A) (k : path A) (h : gmap addr (@Node A)).
Implicit Types (F : gmap addr (@Node A)) (st : @state A).

(** [switchNodes] of a node with the leftmost node of its right subtree,
    two levels or more below the right child. *)
Lemma switch_succ_far_spec F z fr st k kk ch cl ct c1 hl a dh x dl xr yt dt rt y1 d1 r1 :
  Rep F z fr st
    (plug (FL c1 y1 d1 r1 :: kk ++ FL ct yt dt rt :: FR ch hl a dh :: k)
          (T cl E x dl xr)) →
  ∃ st', switchNodes (Some a) (Some x) st = Some st'
         ∧ Rep F z fr st'
             (plug (FL c1 y1 d1 r1 :: kk ++ FL ct yt dt rt :: FR ch hl x dl :: k)
                   (T cl E a dh xr)).
Proof.
  intros HR. rep_open HR st.
  simpl in Hk. destruct Hk as (Hy1 & Hr1 & Hk).
  pose proof (repr_path_app _ _ _ _ Hk) as Hk2.
  simpl in Hroot. rewrite path_root_app in Hroot.
  simpl in Hnd, Hout, HF. rewrite paddrs_app in Hnd.
  setoid_rewrite paddrs_app in Hout. setoid_rewrite paddrs_app in HF.
  set (q := path_root kk (Some y1)) in *.
  set (p1 := hole_parent (kk ++ FL ct yt dt rt :: FR ch hl a dh :: k)) in *.
  assert (hole_parent (kk ++ FL ct yt dt rt :: FR ch hl x dl :: k) = p1) as Hp1
    by (by apply hole_parent_app).
  destruct k as [| [cg g dg rg | cg lg g dg] k'];
    destruct hl as [| c2 l2 y2 d2 r2]; destruct xr as [| c3 l3 y3 d3 r3];
    simpl in Hk2, Hrepr, Hnd, Hout, HF, Hroot; destruct_ands;
    distinct Hnd a x; distinct Hnd a yt; distinct Hnd x yt;
    distinct Hnd a y1; distinct Hnd x y1; distinct Hnd yt y1;
    try distinct Hnd a g; try distinct Hnd x g; try distinct Hnd yt g;
    try distinct Hnd y1 g;
    try distinct Hnd a y2; try distinct Hnd x y2; try distinct Hnd g y2;
    try distinct Hnd yt y2; try distinct Hnd y1 y2;
    try distinct Hnd a y3; try distinct Hnd x y3; try distinct Hnd g y3;
    try distinct Hnd yt y3; try distinct Hnd y1 y3;
    try distinct Hnd y2 y3;
    try (outside Hnd a (addrs lg);
         assert (Some a ≠ rootp lg) by (by apply rootp_ne));
    unfold switchNodes; exec; (eexists; split; [reflexivity|]);
    (apply Rep_plug;
     refine (conj _ (conj _ (conj _ (conj _ (conj _ (conj _ (conj _ _)))))));
     [ simpl; by rewrite path_root_app
     | done
     | done
     | simpl; split_and!;
       [ rewrite Hp1; exec; reflexivity
       | post Hnd
       | eapply (repr_path_app_change h); [ | exact Hk | | ];
         [ done
         | let x0 := fresh "x" in let Hx0 := fresh "Hx" in
           intros x0 Hx0; rewrite ?lookup_insert_ne by frame_neq Hnd Hx0; done
         | fold q; simpl; post Hnd ] ]
     | simpl; post Hnd
     | simpl; rewrite paddrs_app; simpl;
       refine (nodup_perm _ _ _ Hnd); solve_Permutation
     | let x0 := fresh "x" in let Hx0 := fresh "Hx" in
       simpl; intros x0 Hx0; rewrite paddrs_app in Hx0; simpl in Hx0;
       rewrite ?lookup_insert_ne
         by (intros ->; apply Hx0; apply sub_elem; solve_submseteq);
       apply Hout; refine (notin_perm _ _ _ _ Hx0); solve_Permutation
     | let x0 := fresh "x" in let Hx0 := fresh "Hx" in
       simpl; intros x0 Hx0; rewrite paddrs_app in Hx0; simpl in Hx0;
       apply HF; refine (in_perm _ _ _ _ Hx0); solve_Permutation ]).
Qed.

End SwitchFar.

(** ** The insertion fix-up on trees: sequences and colors *)

Section PureInsert.
Context {A : Type}.
Implicit Types (t l r : tree A) (k : path A).

Lemma list_ind2 {X} (P : list X → Prop) :
  P [] → (∀ x, P [x]) → (∀ x y xs, P xs → P (x :: y :: xs)) → ∀ xs, P xs.
Proof.
  intros H0 H1 H2 xs. cut (P xs ∧ ∀ x, P (x :: xs)); [tauto|].
  induction xs as [|y xs [IH1 IH2]]; split; auto.
Qed.

Lemma addrs_plug_eq k t t' : addrs t = addrs t' → addrs (plug k t) = addrs (plug k t').
Proof.
  revert t t'. induction k as [|[] k IH]; intros t t' H; simpl; [done|..];
    apply IH; simpl; by rewrite H.
Qed.

Lemma inorder_plug_eq k t t' :
  inorder t = inorder t' → inorder (plug k t) = inorder (plug k t').
Proof.
  revert t t'. induction k as [|[] k IH]; intros t t' H; simpl; [done|..];
    apply IH; simpl; by rewrite H.
Qed.

Lemma count_plug_eq k t t' : count t = count t' → count (plug k t) = count (plug k t').
Proof.
  revert t t'. induction k as [|[] k IH]; intros t t' H; simpl; [done|..];
    apply IH; simpl; by rewrite H.
Qed.

Lemma addrs_recolor c t : addrs (recolor c t) = addrs t.
Proof. by destruct t. Qed.
Lemma inorder_recolor c t : inorder (recolor c t) = inorder t.
Proof. by destruct t. Qed.
Lemma count_recolor c t : count (recolor c t) = count t.
Proof. by destruct t. Qed.

(** The fix-up keeps the nodes and payloads in their in-order sequence. *)
Lemma ins_fix_seq k :
  ∀ l a d r c Y, ins_fix k l a d r = Some (c, Y) →
    addrs Y = addrs (plug k (T c l a d r))
    ∧ inorder Y = inorder (plug k (T c l a d r))
    ∧ count Y = count (plug k (T c l a d r)).
Proof.
  induction k as [| f1 | f1 f2 k2 IH] using list_ind2; intros l a d r c Y Hfix.
  - simpl in Hfix. by injection Hfix as <- <-.
  - simpl in Hfix. destruct (decide (frame_color f1 = BLACK)); [|done].
    by injection Hfix as <- <-.
  - cbn [ins_fix] in Hfix.
    destruct (decide (frame_color f1 = BLACK)).
    { injection Hfix as <- <-. by destruct f1, f2. }
    destruct (decide (tcolor (frame_sibling f2) = BLACK)).
    { destruct f1, f2; injection Hfix as <- <-; cbn [plug]; split_and!;
        first [ apply addrs_plug_eq | apply inorder_plug_eq | apply count_plug_eq ];
        simpl; rewrite <- ?app_assoc; simpl; rewrite <- ?app_assoc; try done; lia. }
    destruct f2 as [cg g dg u|cg u g dg].
    + destruct (ins_fix k2 _ g dg _) as [[cg' Yg]|] eqn:Hrec; [|done].
      simpl in Hfix. injection Hfix as <- <-.
      apply IH in Hrec as (H1 & H2 & H3). rewrite H1, H2, H3. cbn [plug].
      destruct f1; split_and!;
        first [ apply addrs_plug_eq | apply inorder_plug_eq | apply count_plug_eq ];
        simpl; rewrite ?addrs_recolor, ?inorder_recolor, ?count_recolor; done.
    + destruct (ins_fix k2 _ g dg _) as [[cg' Yg]|] eqn:Hrec; [|done].
      simpl in Hfix. injection Hfix as <- <-.
      apply IH in Hrec as (H1 & H2 & H3). rewrite H1, H2, H3. cbn [plug].
      destruct f1; split_and!;
        first [ apply addrs_plug_eq | apply inorder_plug_eq | apply count_plug_eq ];
        simpl; rewrite ?addrs_recolor, ?inorder_recolor, ?count_recolor; done.
Qed.

Lemma paint_recolor x cx c t : x ∉ addrs t → paint x cx (recolor c t) = recolor c t.
Proof. intros. apply paint_fresh. by rewrite addrs_recolor. Qed.

Lemma not_elem_of_paddrs_cons (x : addr) (f : frame A) k :
  x ∉ paddrs (f :: k) ↔
  x ≠ frame_addr f ∧ (x ∉ addrs (frame_sibling f)) ∧ (x ∉ paddrs k).
Proof.
  destruct f; simpl; rewrite not_elem_of_cons, not_elem_of_app; tauto.
Qed.

Lemma paint_fill x cx c (f : frame A) t :
  x ≠ frame_addr f → x ∉ addrs (frame_sibling f) →
  paint x cx (fill c f t) = fill c f (paint x cx t).
Proof.
  intros H1 H2. destruct f; simpl in *;
    rewrite decide_False by congruence; by rewrite (paint_fresh x cx _ H2).
Qed.

(** [updateColors] does not look into the subtrees of the node it is run
    on: repainting a node inside them commutes with it. *)
Lemma ins_fix_paint x cx k :
  ∀ l g d r, x ∉ paddrs k → x ≠ g →
    ins_fix k (paint x cx l) g d (paint x cx r)
    = (λ '(c, t), (c, paint x cx t)) <$> ins_fix k l g d r.
Proof.
  induction k as [| f1 | f1 f2 k2 IH] using list_ind2; intros l g d r Hx Hg.
  - simpl. by rewrite decide_False.
  - cbn [ins_fix]. destruct (decide (frame_color f1 = BLACK)); [|done].
    cbn [fmap option_fmap option_map].
    rewrite paint_plug by done. simpl. by rewrite decide_False.
  - cbn [ins_fix].
    pose proof Hx as Hx'.
    apply not_elem_of_paddrs_cons in Hx' as (Hp & Hpr & Hx').
    apply not_elem_of_paddrs_cons in Hx' as (Hgg & Hu & Hk2).
    destruct (decide (frame_color f1 = BLACK)).
    { cbn [fmap option_fmap option_map].
      rewrite paint_plug by done. simpl. by rewrite decide_False. }
    destruct (decide (tcolor (frame_sibling f2) = BLACK)).
    { destruct f1, f2; simpl in Hp, Hpr, Hgg, Hu;
        cbn [fmap option_fmap option_map];
        rewrite paint_plug by done; simpl;
        rewrite !decide_False by congruence;
        rewrite ?(paint_fresh x cx _ Hpr), ?(paint_fresh x cx _ Hu); done. }
    assert (paint x cx (fill BLACK f1 (T RED l g d r))
            = fill BLACK f1 (T RED (paint x cx l) g d (paint x cx r))) as Hsub.
    { rewrite paint_fill by done. simpl. by rewrite decide_False. }
    assert (paint x cx (recolor BLACK (frame_sibling f2))
            = recolor BLACK (frame_sibling f2)) as Hunc.
    { by rewrite paint_recolor. }
    destruct f2 as [cg g' dg u|cg u g' dg]; simpl in Hgg.
    + pose proof (IH (fill BLACK f1 (T RED l g d r)) g' dg
                     (recolor BLACK (frame_sibling (FL cg g' dg u))) Hk2 Hgg) as H.
      rewrite Hsub, Hunc in H. rewrite H.
      match goal with |- context [ins_fix k2 ?x1 g' dg ?x2] =>
        by destruct (ins_fix k2 x1 g' dg x2) as [[? ?]|] end.
    + pose proof (IH (recolor BLACK (frame_sibling (FR cg u g' dg))) g' dg
                     (fill BLACK f1 (T RED l g d r)) Hk2 Hgg) as H.
      rewrite Hsub, Hunc in H. rewrite H.
      match goal with |- context [ins_fix k2 ?x1 g' dg ?x2] =>
        by destruct (ins_fix k2 x1 g' dg x2) as [[? ?]|] end.
Qed.

End PureInsert.

(** ** Symbolic execution, and updateColors *)

(** Brings the node at address [x] of the tree held by [HR] into focus. *)
Ltac plug_form HR :=
  cbn [plug] in HR;
  lazymatch type of HR with
  | Rep _ _ _ _ (plug _ _) => idtac
  | Rep ?F ?z ?fr ?st ?t => change (Rep F z fr st (plug [] t)) in HR
  end.

Ltac focus x HR :=
  plug_form HR;
  repeat lazymatch type of HR with
    | Rep _ _ _ _ (plug _ (T _ _ x _ _)) => fail
    | Rep ?F ?z ?fr ?st (plug ?k (T ?c ?l ?a ?d ?r)) =>
        lazymatch l with
        | context [T _ _ x _ _] =>
            change (Rep F z fr st (plug (FL c a d r :: k) l)) in HR
        | _ =>
            lazymatch r with
            | context [T _ _ x _ _] =>
                change (Rep F z fr st (plug (FR c l a d :: k) r)) in HR
            end
        end
    end.

(** One step of the program in the goal, against the tree held by [HR]. *)
Ltac step_load HR :=
  lazymatch goal with
  | |- context [load (Some ?x) ?st] =>
      focus x HR; rewrite (Rep_load _ _ _ _ _ _ _ _ _ _ HR);
      cbn [hole_parent mbind option_bind parent left right color data rootp]
  end.

Ltac step_side HR :=
  lazymatch goal with
  | |- context [getSide (Some ?x) ?st] =>
      focus x HR; rewrite (getSide_spec _ _ _ _ _ _ _ _ _ _ HR);
      cbn [hole_side mbind option_bind]
  end.

(** The computation the program in the goal runs first. *)
Ltac head_of e k :=
  lazymatch e with
  | @mbind _ _ _ _ _ ?m => head_of m k
  | _ => k e
  end.

Ltac goal_head k :=
  lazymatch goal with
  | |- ex (fun _ => ex (fun _ => ?e = _ ∧ _)) => head_of e k
  | |- ex (fun _ => ?e = _ ∧ _) => head_of e k
  | |- ?e = _ => head_of e k
  end.

Ltac step_color HR :=
  goal_head ltac:(fun hd =>
  lazymatch hd with
  | store (Some ?x) (set_color ?c) ?st =>
      focus x HR;
      let st' := fresh "st" in
      let E := fresh "E" in
      let HR' := fresh "HR" in
      destruct (store_color_focus _ _ _ _ _ _ _ _ _ _ c HR) as (st' & E & HR');
      rewrite E; clear E HR; rename HR' into HR;
      cbn [mbind option_bind]
  end).

Ltac step_rotate HR :=
  goal_head ltac:(fun hd =>
  lazymatch hd with
  | rotate (Some ?c) (Some ?p) ?st =>
      focus p HR;
      let st' := fresh "st" in
      let E := fresh "E" in
      let HR' := fresh "HR" in
      lazymatch type of HR with
      | Rep _ _ _ _ (plug _ (T _ (T _ _ c _ _) p _ _)) =>
          destruct (rotate_left_spec _ _ _ _ _ _ _ _ _ _ _ _ _ _ HR) as (st' & E & HR')
      | Rep _ _ _ _ (plug _ (T _ _ p _ (T _ _ c _ _))) =>
          destruct (rotate_right_spec _ _ _ _ _ _ _ _ _ _ _ _ _ _ HR) as (st' & E & HR')
      end;
      rewrite E; clear E HR; rename HR' into HR;
      cbn [mbind option_bind]
  end).

(** Settles the decided equalities in [H] that the context proves or
    refutes. *)
Ltac decides_in H :=
  repeat match type of H with
    | context [decide (?x = ?y)] =>
        first [ rewrite (decide_True (P := x = y)) in H by done
              | rewrite (decide_False (P := x = y)) in H by done ]
    end.

(** The distinctness of two named nodes of the tree held by [HR]. *)
Ltac rep_distinct HR x y :=
  let Hnd := fresh "Hnd" in
  plug_form HR;
  pose proof HR as Hnd;
  apply Rep_plug in Hnd;
  destruct Hnd as (_ & _ & _ & _ & _ & Hnd & _);
  simpl in Hnd;
  assert (x ≠ y) by (apply (nd_neq _ x y Hnd); solve_submseteq);
  clear Hnd.

Ltac step_ptr_eq HR :=
  lazymatch goal with
  | |- context [decide (Some ?x = Some ?y)] =>
      rep_distinct HR x y;
      rewrite (decide_False (P := Some x = Some y)) by congruence
  end.

Ltac step HR :=
  first [ rewrite decide_True by (done || congruence)
        | rewrite decide_False
            by (done || congruence || (let H := fresh in intros H; exact (H eq_refl)))
        | rewrite bool_decide_true by done
        | rewrite bool_decide_false by done
        | progress cbn [mbind option_bind]
        | step_load HR | step_side HR | step_color HR | step_rotate HR
        | step_ptr_eq HR ].

Section InsertFix.
Context {A : Type}.
Implicit Types (t l r : tree A) (k : path A) (h : gmap addr (@Node A)).
Implicit Types (F : gmap addr (@Node A)) (st : @state A).

Lemma Rep_nodup F z fr st t : Rep F z fr st t → NoDup (addrs t).
Proof. by intros (_ & _ & _ & _ & ? & _). Qed.

Lemma updateColors_spec F z fr n :
  ∀ k c0 l a d r st fuel c Y,
    (length k ≤ n)%nat → (length k < fuel)%nat →
    Rep F z fr st (plug k (T c0 l a d r)) →
    ins_fix k l a d r = Some (c, Y) →
    ∃ st' t', updateColors fuel (Some a) st = Some (c, st')
              ∧ Rep F z fr st' t' ∧ paint a c t' = Y.
Proof.
  induction n as [|n IH]; intros k c0 l a d r st fuel c Y Hn Hf HR Hfix.
  - destruct k; [|simpl in Hn; lia]. destruct fuel; [simpl in Hf; lia|].
    simpl in Hfix. injection Hfix as <- <-.
    cbn [updateColors]. step HR. eexists _, _. split; [reflexivity|]. split; [exact HR|].
    simpl. rewrite decide_True by done.
    pose proof (Rep_nodup _ _ _ _ _ HR) as Hnd. simpl in Hnd.
    outside Hnd a (addrs l). outside Hnd a (addrs r).
    by rewrite !paint_fresh.
  - destruct fuel; [simpl in Hf; lia|].
    destruct k as [|f1 k1].
    { simpl in Hfix. injection Hfix as <- <-.
      cbn [updateColors]. step HR. eexists _, _. split; [reflexivity|]. split; [exact HR|].
      simpl. rewrite decide_True by done.
      pose proof (Rep_nodup _ _ _ _ _ HR) as Hnd. simpl in Hnd.
      outside Hnd a (addrs l). outside Hnd a (addrs r).
      by rewrite !paint_fresh. }
    destruct f1 as [cp p dp pr|cp pr p dp]; destruct cp.
    2,4: (cbn [ins_fix frame_color] in Hfix; rewrite decide_True in Hfix by done;
          injection Hfix as <- <-;
          cbn [updateColors]; repeat step HR;
          focus a HR;
          eexists _, _; split; [reflexivity|]; split; [exact HR|];
          rewrite paint_focus by apply (Rep_nodup _ _ _ _ _ HR); reflexivity).
    all: cbn [ins_fix frame_color] in Hfix; rewrite decide_False in Hfix by done.
    all: destruct k1 as [|f2 k2]; [done|].
    all: destruct f2 as [cg g dg u|cg u g dg]; destruct u as [|[] ul xu du ur];
      cbn [frame_sibling tcolor] in Hfix;
      rewrite ?decide_True in Hfix by done; rewrite ?decide_False in Hfix by done.
    (* uncle absent or BLACK *)
    1,3,4,6,7,9,10,12:
      (injection Hfix as <- <-;
       cbn [updateColors]; repeat step HR;
       unfold updateColorBlackUncle; repeat step HR;
       focus a HR;
       eexists _, _; split; [reflexivity|]; split; [exact HR|];
       rewrite paint_focus by apply (Rep_nodup _ _ _ _ _ HR); reflexivity).
    all: destruct (ins_fix k2 _ g dg _) as [[cg' Yg]|] eqn:Hrec; [|done].
    all: simpl in Hfix; injection Hfix as <- <-.
    all: cbn [updateColors]; repeat step HR.
    all: focus g HR.
    all: pose proof HR as Hnd; apply Rep_plug in Hnd;
      destruct Hnd as (_ & _ & _ & _ & _ & Hnd & _); simpl in Hnd.
    all: outside Hnd a (paddrs k2); distinct Hnd a g; distinct Hnd a p;
      distinct Hnd a xu;
      outside Hnd a (addrs l); outside Hnd a (addrs r); outside Hnd a (addrs pr);
      outside Hnd a (addrs ul); outside Hnd a (addrs ur).
    all: match type of HR with
         | Rep _ _ _ _ (plug _ (T _ ?GL _ _ ?GR)) =>
             pose proof (ins_fix_paint a RED k2 GL g dg GR ltac:(done) ltac:(done)) as Hp;
             simpl in Hp;
             decides_in Hp;
             rewrite ?(paint_fresh a RED l), ?(paint_fresh a RED r),
               ?(paint_fresh a RED pr), ?(paint_fresh a RED ul),
               ?(paint_fresh a RED ur) in Hp by done;
             cbn [fill recolor] in Hrec; rewrite Hrec in Hp;
             destruct (ins_fix k2 GL g dg GR) as [[c1 Yh]|] eqn:Hh; [|done];
             simpl in Hp; injection Hp as <- HY
         end.
    all: assert (length k2 ≤ n)%nat as Hn2 by (simpl in Hn; lia).
    all: assert (length k2 < fuel)%nat as Hf2 by (simpl in Hf; lia).
    all: destruct (IH k2 _ _ _ _ _ _ fuel _ _ Hn2 Hf2 HR Hh)
           as (st3 & t3 & E3 & HR3 & Hpaint).
    all: rewrite E3; cbn [mbind option_bind].
    all: apply ins_fix_seq in Hh as (Haddr & _).
    all: assert (g ∈ addrs t3) as Hg3
           by (rewrite <- (addrs_paint g cg' t3), Hpaint, Haddr, addrs_plug;
               simpl; clear; set_solver).
    all: destruct (store_color_spec _ _ _ _ _ _ cg' HR3 Hg3) as (st4 & E4 & HR4).
    all: rewrite E4; cbn [mbind option_bind].
    all: rewrite Hpaint in HR4.
    all: eexists _, _; split; [reflexivity|]; split; [exact HR4|]; congruence.
Qed.

End InsertFix.

(** ** The loops: descent, successor, traversal *)

Section Loops.
Context {A : Type}.
Variable compFunc : option A → option A → Z.
Implicit Types (t l r : tree A) (k : path A) (h : gmap addr (@Node A)).
Implicit Types (F : gmap addr (@Node A)) (st : @state A).

Lemma length_addrs t : length (addrs t) = count t.
Proof. induction t; simpl; [done|]. rewrite length_app. simpl. lia. Qed.

Lemma repr_lookup_some h par t x : repr h par t → x ∈ addrs t → is_Some (h !! x).
Proof.
  revert par. induction t as [|c l IHl a d r IHr]; intros par; simpl.
  - by intros _ ?%elem_of_nil.
  - intros (Ha & Hl & Hr). rewrite elem_of_app, elem_of_cons.
    intros [?|[->|?]]; eauto.
Qed.

(** The tree has no more nodes than the store. *)
Lemma count_le_heap F z fr st t : Rep F z fr st t → (count t ≤ base.size (heap st))%nat.
Proof.
  intros (_ & _ & _ & Hrepr & Hnd & _).
  rewrite <- length_addrs.
  rewrite <- (size_list_to_set (C := gset addr) (addrs t)) by done.
  rewrite <- size_dom. apply subseteq_size.
  intros x Hx. apply elem_of_list_to_set in Hx. apply elem_of_dom.
  by eapply repr_lookup_some.
Qed.

Lemma count_plug_le k t : (count t ≤ count (plug k t))%nat.
Proof.
  revert t. induction k as [|[] k IH]; intros t; simpl; [done|..];
    (etrans; [|apply IH]); simpl; lia.
Qed.

Lemma descend_plug d k t :
  plug (descend compFunc d k t).1 (descend compFunc d k t).2 = plug k t.
Proof.
  revert k. induction t as [|c l IHl a x r IHr]; intros k; simpl; [done|].
  repeat case_decide; simpl; [done|..].
  - by rewrite IHl.
  - by rewrite IHr.
Qed.

Lemma findNode_loop_spec F z fr st d :
  ∀ t k fuel, Rep F z fr st (plug k t) → (count t < fuel)%nat →
    findNode_loop compFunc fuel d (rootp t) st
    = Some (rootp (descend compFunc d k t).2).
Proof.
  induction t as [|c l IHl a x r IHr]; intros k fuel HR Hf.
  - by destruct fuel.
  - destruct fuel; [lia|]. simpl in Hf. cbn [rootp findNode_loop descend].
    rewrite (Rep_load _ _ _ _ _ _ _ _ _ _ HR). cbn [mbind option_bind data left right].
    repeat case_decide; cbn [snd rootp]; [done|..].
    + apply (IHl (FL c a x r :: k)); [exact HR|lia].
    + apply (IHr (FR c l a x :: k)); [exact HR|lia].
Qed.

Lemma insertNode_loop_spec F z fr a d :
  ∀ t k fuel st,
    Rep F z fr st (plug k t) →
    F !! a = Some (mkNode None None None BLACK (Some d)) →
    (count t < fuel)%nat →
    ∃ st',
      match (descend compFunc (Some d) k t).2 with
      | E =>
          insertNode_loop compFunc fuel (Some a) (rootp t) (hole_parent k) (hole_side k) st
          = Some (SUCCESS, st')
          ∧ Rep (delete a F) z fr st'
              (plug (descend compFunc (Some d) k t).1 (T BLACK E a d E))
      | T _ _ _ _ _ =>
          insertNode_loop compFunc fuel (Some a) (rootp t) (hole_parent k) (hole_side k) st
          = Some (FAILURE, st')
          ∧ Rep (delete a F) z fr st' (plug k t)
      end.
Proof.
  induction t as [|c l IHl x dx r IHr]; intros k fuel st HR Ha Hf.
  - cbn [descend snd fst rootp].
    destruct (attach_spec _ _ _ _ _ _ _ HR Ha) as (st' & E1 & HR').
    exists st'. split; [|done]. destruct fuel; simpl; by rewrite E1.
  - destruct fuel; [lia|]. simpl in Hf. cbn [rootp insertNode_loop descend].
    assert (load (Some a) st = Some (mkNode None None None BLACK (Some d))) as ->
      by apply (Rep_outside_lookup _ _ _ _ _ _ _ HR Ha).
    cbn [mbind option_bind data].
    rewrite (Rep_load _ _ _ _ _ _ _ _ _ _ HR). cbn [mbind option_bind data left right].
    repeat case_decide; cbn [snd fst].
    + destruct (release_spec _ _ _ _ _ _ _ HR Ha) as (st' & E1 & HR').
      exists st'. rewrite E1. by split.
    + destruct (IHl (FL c x dx r :: k) fuel st HR Ha ltac:(lia)) as (st' & Hst).
      exists st'. exact Hst.
    + destruct (IHr (FR c l x dx :: k) fuel st HR Ha ltac:(lia)) as (st' & Hst).
      exists st'. exact Hst.
Qed.

Lemma leftmost_plug k t : plug (leftmost k t).1 (leftmost k t).2 = plug k t.
Proof.
  revert k. induction t as [|c l IHl a x r IHr]; intros k; simpl; [done|].
  destruct l; [done|]. by rewrite IHl.
Qed.

Lemma findSuccessor_loop_spec F z fr st :
  ∀ t k fuel, Rep F z fr st (plug k t) → (count t < fuel)%nat →
    findSuccessor_loop fuel (rootp t) st = Some (rootp (leftmost k t).2).
Proof.
  induction t as [|c l IHl a x r IHr]; intros k fuel HR Hf.
  - by destruct fuel.
  - destruct fuel; [lia|]. simpl in Hf. cbn [rootp findSuccessor_loop leftmost].
    rewrite (Rep_load _ _ _ _ _ _ _ _ _ _ HR). cbn [mbind option_bind left].
    destruct l as [|cl ll xl dl lr]; [done|]. cbn [rootp].
    apply (IHl (FL c a x r :: k)); [exact HR|simpl in *; lia].
Qed.

Section Traversal.
Context {Args : Type}.
Variable func : option A → Args → Z * Args.

Lemma visit_app (xs ys : list (option A)) args :
  visit func (xs ++ ys) args
  = let '(r, args') := visit func xs args in
    if decide (r = FAILURE) then (FAILURE, args') else visit func ys args'.
Proof.
  revert args. induction xs as [|x xs IH]; intros args; simpl.
  - done.
  - destruct (func x args) as [r1 args1]. case_decide; [|apply IH].
    done.
Qed.

Lemma visit_result (xs : list (option A)) args :
  (visit func xs args).1 = FAILURE ∨ (visit func xs args).1 = SUCCESS.
Proof.
  revert args. induction xs as [|x xs IH]; intros args; simpl; [by right|].
  destruct (func x args) as [r1 args1]. case_decide; [by left|apply IH].
Qed.

Lemma forEachNode_spec F z fr st :
  ∀ t k fuel args, Rep F z fr st (plug k t) → (count t < fuel)%nat →
    forEachNode func fuel (rootp t) st args
    = Some (visit func (Some <$> inorder t) args).
Proof.
  induction t as [|c l IHl a x r IHr]; intros k fuel args HR Hf.
  - by destruct fuel.
  - destruct fuel; [lia|]. simpl in Hf. cbn [rootp forEachNode inorder].
    rewrite (Rep_load _ _ _ _ _ _ _ _ _ _ HR). cbn [mbind option_bind left right data].
    rewrite (IHl (FL c a x r :: k) fuel args HR) by lia.
    rewrite fmap_app, visit_app. cbn [mbind option_bind fmap list_fmap visit].
    pose proof (visit_result (Some <$> inorder l) args) as Hres.
    destruct (visit func (Some <$> inorder l) args) as [r1 args1].
    case_decide; [done|].
    destruct (func (Some x) args1) as [r2 args2].
    case_decide; [done|].
    rewrite (IHr (FR c l a x :: k) fuel args2 HR) by lia.
    cbn [mbind option_bind].
    pose proof (visit_result (Some <$> inorder r) args2) as Hres2.
    destruct (visit func (Some <$> inorder r) args2) as [r3 args3].
    case_decide; simpl in *; [congruence|].
    destruct Hres2; congruence.
Qed.

End Traversal.

End Loops.

(** ** Reading through node references *)

Section RefFacts.
Context {A : Type}.
Implicit Types (t l r : tree A) (k : path A) (h : gmap addr (@Node A)).
Implicit Types (F : gmap addr (@Node A)) (st : @state A).

Lemma deref_parent F z fr st k t parentP pp :
  parent_ref_ok parentP pp t → Rep F z fr st (plug k t) → hole_parent k = pp →
  deref parentP st = Some pp.
Proof.
  intros [->|(x & -> & Hx)] HR <-; [done|].
  destruct t as [|c l a d r]; [done|]. injection Hx as ->.
  cbn [deref]. by rewrite (Rep_load _ _ _ _ _ _ _ _ _ _ HR).
Qed.

Lemma deref_child F z fr st k t childP :
  child_ref_ok childP t → Rep F z fr st (plug k t) →
  deref childP st = Some (rootp t).
Proof.
  intros [->|(y & c & l & a & d & r & -> & -> & [Hy|Hy])] HR; [done|..].
  - destruct l as [|cl ll x dl lr]; [done|]. injection Hy as ->.
    change (Rep F z fr st (plug (FL c a d r :: k) (T cl ll y dl lr))) in HR.
    cbn [deref rootp]. by rewrite (Rep_load _ _ _ _ _ _ _ _ _ _ HR).
  - destruct r as [|cl ll x dl lr]; [done|]. injection Hy as ->.
    change (Rep F z fr st (plug (FR c l a d :: k) (T cl ll y dl lr))) in HR.
    cbn [deref rootp]. by rewrite (Rep_load _ _ _ _ _ _ _ _ _ _ HR).
Qed.

(** Writing to a link field the value it holds changes nothing. *)
Lemma store_id st a n f :
  heap st !! a = Some n → f n = n → store (Some a) f st = Some st.
Proof.
  intros Ha Hf. unfold store. simpl. rewrite Ha. simpl. rewrite Hf.
  rewrite insert_id by done. by destruct st.
Qed.

Lemma store_left_id F z fr st k c l a d r v :
  Rep F z fr st (plug k (T c l a d r)) → v = rootp l →
  store (Some a) (set_left v) st = Some st.
Proof.
  intros HR ->. eapply store_id; [apply (Rep_lookup _ _ _ _ _ _ _ _ _ _ HR)|done].
Qed.

Lemma store_right_id F z fr st k c l a d r v :
  Rep F z fr st (plug k (T c l a d r)) → v = rootp r →
  store (Some a) (set_right v) st = Some st.
Proof.
  intros HR ->. eapply store_id; [apply (Rep_lookup _ _ _ _ _ _ _ _ _ _ HR)|done].
Qed.

End RefFacts.

Ltac step_link_id HR :=
  lazymatch goal with
  | |- context [store (Some ?x) (set_right ?v) ?st] =>
      focus x HR;
      rewrite (store_right_id _ _ _ _ _ _ _ _ _ _ v HR eq_refl)
  | |- context [store (Some ?x) (set_left ?v) ?st] =>
      focus x HR;
      rewrite (store_left_id _ _ _ _ _ _ _ _ _ _ v HR eq_refl)
  end.

Ltac stepd HR :=
  first [ progress cbn [deref assign isRed isNullOrBlack mbind option_bind rootp]
        | step HR
        | step_link_id HR ].

(** ** solveDB *)

Ltac step_refs HR :=
  match goal with
  | Hp : parent_ref_ok ?pP _ (T _ _ ?x _ _) |- context [deref ?pP _] =>
      focus x HR; rewrite (deref_parent _ _ _ _ _ _ pP _ Hp HR eq_refl)
  | Hc : child_ref_ok ?cP (T _ _ ?x _ _) |- context [deref ?cP _] =>
      focus x HR; rewrite (deref_child _ _ _ _ _ _ cP Hc HR); cbn [rootp]
  end.

Ltac run HR := repeat first [ step_refs HR | stepd HR ].

Section DeleteFix.
Context {A : Type}.
Implicit Types (t l r : tree A) (k : path A) (h : gmap addr (@Node A)).
Implicit Types (F : gmap addr (@Node A)) (st : @state A).

Lemma child_of_parent_ok parentP p t c (f : frame A) :
  parent_ref_ok parentP (Some p) t → frame_addr f = p →
  child_ref_ok parentP (fill c f t).
Proof.
  intros [->|(x & -> & Hx)] <-.
  - left. by destruct f.
  - right. destruct f as [c' a d r|c' l a d]; simpl.
    + exists x, c, t, a, d, r. by auto.
    + exists x, c, l, a, d, t. by auto.
Qed.

Lemma solveDB_spec F z fr :
  ∀ fuel k t st Y parentP childP,
    Rep F z fr st (plug k t) → del_fix fuel k t = Some Y →
    parent_ref_ok parentP (hole_parent k) t → child_ref_ok childP t →
    ∃ st', solveDB fuel parentP childP (hole_side k) st = Some st'
           ∧ Rep F z fr st' Y.
Proof.
  induction fuel as [|fuel IH]; intros k t st Y parentP childP HR Habs Hpar Hchild;
    [done|].
  cbn [solveDB]. rewrite (deref_parent _ _ _ _ _ _ _ _ Hpar HR eq_refl). cbn [mbind option_bind].
  destruct k as [|f k'].
  { simpl in Habs. injection Habs as <-. by exists st. }
  cbn [del_fix] in Habs.
  destruct f as [cp p dp s|cp s p dp]; destruct s as [|cs sl xs ds sr];
    cbn [frame_sibling hole_parent hole_side] in Habs, Hpar |- *; try done.
  all: destruct t as [|ct tl x dt tr];
    [ assert (parentP = RefVar (Some p)) as ->
        by (destruct Hpar as [?|(? & _ & ?)]; done);
      assert (childP = RefVar None) as ->
        by (destruct Hchild as [?|(? & ? & ? & ? & ? & ? & _ & ? & _)]; done)
    | ].
  all: destruct cs;
    [ rewrite decide_True in Habs by done
    | rewrite decide_False in Habs by done; unfold black_sibling in Habs;
      cbn [frame_sibling frame_color] in Habs ].
  (* sibling RED *)
  1,3,5,7: (run HR; refine (IH _ _ _ _ _ _ _ Habs _ _); [exact HR|done|done]).
  (* sibling BLACK *)
  all: unfold blackSiblingDB.
  all: destruct sl as [|[] sll xl dl slr]; destruct sr as [|[] srl xr dr srr];
    cbn [tcolor] in Habs.
  all: try (rewrite decide_True in Habs by done; destruct cp;
            [ rewrite decide_True in Habs by done
            | rewrite decide_False in Habs by done ]).
  all: try (rewrite decide_False in Habs by (intros [? ?]; done)).
  all: run HR.
  all: unfold closeRedNephewDB, farRedNephewDB; run HR.
  all: try (match goal with
            | |- context [isRed (rootp ?s) _] => destruct s as [|[] ? ? ? ?]
            end; run HR).
  all: try (cbn [far_step close_step] in Habs; injection Habs as <-;
            eexists; split; [reflexivity|]; cbn [plug] in HR |- *; exact HR).
  all: try (refine (IH k' _ _ _ _ _ _ Habs _ _);
            [ exact HR
            | right; eexists; split; reflexivity
            | first [ by left
                    | eapply (child_of_parent_ok _ p); [exact Hpar|reflexivity] ] ]).
Qed.

End DeleteFix.

(** ** The red-black rules around a position *)

Section RedBlack.
Context {A : Type}.
Implicit Types (t l r : tree A) (k : path A).

Lemma path_rb_eq k n m : n = m → path_rb k n → path_rb k m.
Proof. by intros ->. Qed.

Lemma plug_rb k : ∀ t n,
  path_rb k n → bh t = n → balanced t → no_red_red t →
  tcolor t = BLACK ∨ above_black k →
  red_black (plug k t).
Proof.
  induction k as [|f k IH]; intros t n Hk Hbh Hbal Hnrr Hc.
  - destruct Hc as [Hc|[]]. done.
  - destruct Hk as (Hs & Hsb & Hsn & Hred & Hk).
    destruct f as [c a d r|c l a d]; simpl in *.
    + apply (IH _ _ Hk); simpl.
      * by f_equal.
      * split_and!; [congruence|done..].
      * split_and!; [|done..]. intros ->.
        destruct Hc as [?|?]; [|done]. split; [done|]. by apply Hred.
      * destruct c; [right; by apply Hred|by left].
    + apply (IH _ _ Hk); simpl.
      * by f_equal.
      * split_and!; [congruence|done..].
      * split_and!; [|done..]. intros ->.
        destruct Hc as [?|?]; [|done]. split; [|done]. by apply Hred.
      * destruct c; [right; by apply Hred|by left].
Qed.

Lemma plug_rb_inv k : ∀ t,
  red_black (plug k t) →
  path_rb k (bh t) ∧ balanced t ∧ no_red_red t
  ∧ (tcolor t = BLACK ∨ above_black k).
Proof.
  induction k as [|f k IH]; intros t H.
  - destruct H as (? & ? & ?). simpl. by auto.
  - destruct f as [c a d r|c l a d]; simpl in H; apply IH in H;
      destruct H as (Hk & (Hb & Hbl & Hbr) & (Hc & Hnl & Hnr) & Habove);
      simpl in *.
    + split_and!; try done.
      * intros ->. split; [by apply Hc|]. by destruct Habove.
      * destruct c; [left; by apply Hc|by right].
    + split_and!; try done.
      * intros ->. split; [by apply Hc|]. by destruct Habove.
      * rewrite <-Hb. done.
      * destruct c; [left; by apply Hc|by right].
Qed.

Lemma path_rb_app_change kk : ∀ (f f' : frame A) k n,
  frame_color f = frame_color f' → frame_sibling f = frame_sibling f' →
  path_rb (kk ++ f :: k) n → path_rb (kk ++ f' :: k) n.
Proof.
  induction kk as [|g kk IH]; intros f f' k n Hc Hs H; simpl in *.
  - rewrite <-Hc, <-Hs. done.
  - destruct H as (? & ? & ? & Hred & H). split_and!; try done.
    + intros Hg. destruct (Hred Hg) as [? Hab]. split; [done|].
      destruct kk; simpl in *; congruence.
    + by apply (IH f).
Qed.

Lemma above_black_app_change kk (f f' : frame A) k :
  frame_color f = frame_color f' →
  above_black (kk ++ f :: k) → above_black (kk ++ f' :: k).
Proof. destruct kk; simpl; congruence. Qed.

Lemma tcolor_cases t : tcolor t = RED ∨ tcolor t = BLACK.
Proof. destruct (tcolor t); auto. Qed.

Lemma ins_fix_rb k : ∀ l a d r,
  path_rb k (bh l) → bh l = bh r → balanced l → balanced r →
  no_red_red l → no_red_red r → tcolor l = BLACK → tcolor r = BLACK →
  ∃ c Y, ins_fix k l a d r = Some (c, Y) ∧ red_black Y.
Proof.
  induction k as [| f1 | f1 f2 k2 IH] using list_ind2;
    intros l a d r Hk Hbh Hbl Hbr Hnl Hnr Hcl Hcr.
  - eexists _, _. split; [reflexivity|]. repeat split; simpl; auto.
  - cbn [ins_fix]. destruct (decide (frame_color f1 = BLACK)) as [Hf|Hf].
    + eexists _, _. split; [reflexivity|].
      apply (plug_rb _ _ _ Hk); simpl; auto.
    + destruct Hk as (_ & _ & _ & Hred & _). destruct (frame_color f1); [|done].
      by destruct Hred.
  - cbn [ins_fix]. destruct (decide (frame_color f1 = BLACK)) as [Hf|Hf].
    { eexists _, _. split; [reflexivity|].
      apply (plug_rb _ _ _ Hk); simpl; auto. }
    destruct Hk as (Hs1 & Hsb1 & Hsn1 & Hred1 & Hs2 & Hsb2 & Hsn2 & Hred2 & Hk).
    assert (frame_color f1 = RED) as Hf1 by (by destruct (frame_color f1)).
    destruct (Hred1 Hf1) as [Hsc1 Hf2]. simpl in Hf2.
    rewrite Hf1, Hf2 in *. clear Hred1 Hred2 Hf.
    destruct (decide (tcolor (frame_sibling f2) = BLACK)) as [Hu|Hu].
    + destruct f1 as [cp p dp pr|cp pl p dp], f2 as [cg g dg u|cg u g dg];
        simpl in *; subst;
        (eexists _, _; split; [reflexivity|]);
        (eapply (plug_rb _ _ _ Hk); simpl;
         [lia|split_and!; try done; lia|split_and!; try done; by intros _|by left]).
    + assert (∃ u ul x dx ur, frame_sibling f2 = T RED ul x dx ur
                               ∧ u = T BLACK ul x dx ur
                               ∧ recolor BLACK (frame_sibling f2) = u)
        as (u & ul & x & dx & ur & Hu1 & Hu2 & Hu3).
      { destruct (frame_sibling f2) as [|[] ul x dx ur]; try done.
        by eexists _, ul, x, dx, ur. }
      rewrite Hu3. rewrite Hu1 in *. simpl in Hs2, Hsb2, Hsn2.
      set (sub := fill BLACK f1 (T RED l a d r)).
      assert (bh sub = S (bh l) ∧ balanced sub ∧ no_red_red sub ∧ tcolor sub = BLACK)
        as (Hsub1 & Hsub2 & Hsub3 & Hsub4).
      { unfold sub. destruct f1; simpl in *; split_and!; try done; lia. }
      assert (bh u = S (bh l) ∧ balanced u ∧ no_red_red u ∧ tcolor u = BLACK)
        as (Hun1 & Hun2 & Hun3 & Hun4).
      { subst u. simpl. split_and!; try done; try tauto; lia. }
      clearbody sub.
      destruct f2 as [cg g dg u'|cg u' g dg].
      * destruct (IH sub g dg u) as (c & Y & -> & HY); try done; try congruence.
        { eapply path_rb_eq; [|exact Hk]. lia. }
        by eexists _, _.
      * destruct (IH u g dg sub) as (c & Y & -> & HY); try done; try congruence.
        { eapply path_rb_eq; [|exact Hk]. lia. }
        by eexists _, _.
Qed.

Lemma bh_pos t n : bh t = S n → ∃ c l a d r, t = T c l a d r.
Proof. destruct t as [|c l a d r]; [done|]. by eexists _, _, _, _, _. Qed.

Lemma del_fix_rb : ∀ fuel k t n,
  path_rb k (S n) → bh t = n → balanced t → no_red_red t → tcolor t = BLACK →
  (length k + 2 ≤ fuel ∨ (1 ≤ fuel)%nat ∧ ∃ f k', k = f :: k' ∧ frame_color f = RED)%nat →
  ∃ Y, del_fix fuel k t = Some Y ∧ red_black Y.
Proof.
  induction fuel as [|fuel IH]; intros k t n Hk Hbh Hbal Hnrr Hc Hfuel.
  { exfalso. destruct Hfuel as [?|[? _]]; lia. }
  destruct k as [|f k'].
  { exists t. by split. }
  cbn [del_fix]. destruct Hk as (Hs & Hsb & Hsn & Hred & Hk).
  destruct (bh_pos _ _ Hs) as (cs & sl & xs & ds & sr & Hsib). rewrite Hsib in *.
  simpl in Hs, Hsb, Hsn, Hred. destruct Hsb as (Hsb & Hbsl & Hbsr).
  destruct Hsn as (Hsc & Hnsl & Hnsr).
  destruct (decide (cs = RED)) as [->|Hcs].
  - (* RED sibling *)
    destruct (Hsc eq_refl) as [Hcsl Hcsr].
    assert (frame_color f = BLACK) as Hf.
    { destruct (frame_color f); [|done]. by destruct Hred. }
    rewrite Hf in Hk.
    destruct f as [cp p dp s|cp s p dp]; simpl in Hsib, Hf; subst.
    + apply (IH _ _ (bh t)); try done.
      * simpl. split_and!; try done; try lia.
        eapply path_rb_eq; [|exact Hk]. lia.
      * right. split; [|by eexists _, _].
        destruct Hfuel as [?|[_ (? & ? & ? & ?)]]; [simpl in *; lia|].
        simplify_eq/=.
    + apply (IH _ _ (bh t)); try done.
      * simpl. split_and!; try done; try lia.
        eapply path_rb_eq; [|exact Hk]. lia.
      * right. split; [|by eexists _, _].
        destruct Hfuel as [?|[_ (? & ? & ? & ?)]]; [simpl in *; lia|].
        simplify_eq/=.
  - (* BLACK sibling *)
    assert (cs = BLACK) as -> by (by destruct cs). clear Hcs Hsc.
    unfold black_sibling. rewrite Hsib.
    destruct (decide (tcolor sl = BLACK ∧ tcolor sr = BLACK)) as [[Hcl Hcr]|Hnb].
    + destruct (decide (frame_color f = RED)) as [Hf|Hf].
      * eexists. split; [reflexivity|].
        rewrite Hf in Hk.
        destruct f as [cp p dp s|cp s p dp]; simpl in Hsib, Hf; subst;
          (eapply (plug_rb (_ :: k') _ (bh t)); try done; [|by left]);
          simpl; (split_and!; try done; try lia);
          (eapply path_rb_eq; [|exact Hk]; lia).
      * assert (frame_color f = BLACK) as Hfb by (by destruct (frame_color f)).
        rewrite Hfb in Hk.
        destruct f as [cp p dp s|cp s p dp]; simpl in Hsib, Hfb; subst;
          (apply (IH _ _ (S (bh t)));
           [ eapply path_rb_eq; [|exact Hk]; lia
           | simpl; lia
           | simpl; split_and!; try done; lia
           | simpl; split_and!; try done
           | done
           | left; destruct Hfuel as [?|[_ (? & ? & ? & ?)]];
             [simpl in *; lia|simplify_eq/=] ]).
    + eexists. split; [reflexivity|]. clear IH Hfuel.
      destruct f as [cp p dp s|cp s p dp]; simpl in Hsib; subst;
        destruct sl as [|[] sll xl dl slr], sr as [|[] srl xr dr srr];
        simpl in Hnb; try (exfalso; apply Hnb; done);
        try match goal with
            | |- context [close_step (FR _ (T _ _ _ _ (T RED _ _ _ ?s)) _ _)] =>
                destruct s as [|[] ? ? ? ?]
            end;
        simpl in *;
        repeat match goal with
               | H : RED = RED → _ |- _ => specialize (H eq_refl)
               | H : _ ∧ _ |- _ => destruct H
               end;
        try discriminate;
        (destruct cp;
         [ destruct Hred as [_ Hred]; [done|]
         | clear Hred ]);
        (eapply (plug_rb _ _ _ Hk); simpl;
         [ lia
         | split_and!; (done || lia)
         | split_and!; try done; (by intros _) || (intros; discriminate)
         | by auto ]).
Qed.

Lemma length_inorder t : length (inorder t) = count t.
Proof.
  induction t as [|c l IHl a d r IHr]; [done|].
  simpl. rewrite length_app. simpl. lia.
Qed.

Lemma inorder_plug k : ∀ t, inorder (plug k t) = pleft k ++ inorder t ++ pright k.
Proof.
  induction k as [|[c a d r|c l a d] k IH]; intros t; simpl.
  - by rewrite app_nil_r.
  - rewrite IH. simpl. by rewrite <-!app_assoc.
  - rewrite IH. simpl. by rewrite <-!app_assoc.
Qed.

Ltac seq_solve :=
  apply inorder_plug_eq; simpl; rewrite <-?app_assoc; simpl;
  rewrite <-?app_assoc; reflexivity.

Lemma close_step_seq (f : frame A) k t :
  inorder (plug (close_step f :: k) t) = inorder (plug (f :: k) t).
Proof.
  destruct f as [cp p dp [|cs [|[] sll xl dl slr] xs ds sr]
                |cp [|cs sl xs ds [|[] srl xr dr srr]] p dp];
    try reflexivity; simpl; seq_solve.
Qed.

Lemma far_step_seq (f : frame A) k t :
  inorder (far_step k f t) = inorder (plug (f :: k) t).
Proof.
  destruct f as [cp p dp [|cs sl xs ds [|[] srl xr dr srr]]
                |cp [|cs [|[] sll xl dl slr] xs ds sr] p dp];
    try reflexivity; simpl; try seq_solve.
  destruct sr as [|[] srl xr dr srr]; seq_solve.
Qed.

Lemma del_fix_seq : ∀ fuel k t Y,
  del_fix fuel k t = Some Y → inorder Y = inorder (plug k t).
Proof.
  induction fuel as [|fuel IH]; intros k t Y H; [done|].
  destruct k as [|f k']; [by injection H as <-|].
  cbn [del_fix] in H.
  destruct (frame_sibling f) as [|cs sl xs ds sr] eqn:Hsib; [done|].
  destruct (decide (cs = RED)) as [->|Hcs].
  - destruct f as [cp p dp s|cp s p dp]; simpl in Hsib; subst;
      rewrite (IH _ _ _ H); simpl; seq_solve.
  - unfold black_sibling in H. rewrite Hsib in H.
    destruct (decide (tcolor sl = BLACK ∧ tcolor sr = BLACK)).
    + destruct (decide (frame_color f = RED)).
      * injection H as <-.
        destruct f as [cp p dp s|cp s p dp]; simpl in Hsib; subst; simpl; seq_solve.
      * rewrite (IH _ _ _ H).
        destruct f as [cp p dp s|cp s p dp]; simpl in Hsib; subst; simpl; seq_solve.
    + injection H as <-. by rewrite far_step_seq, close_step_seq.
Qed.

End RedBlack.

(** ** Placing and unlinking the node to delete, on trees *)

Section PureDelete.
Context {A : Type}.
Implicit Types (t l r : tree A) (k : path A).

Lemma leftmost_spec t : ∀ k,
  ∃ kk n, leftmost k t = (kk ++ k, n) ∧ Forall is_FL kk
          ∧ plug kk n = t
          ∧ (t ≠ E → ∃ cs x ds sr, n = T cs E x ds sr).
Proof.
  induction t as [|c l IHl a d r _]; intros k.
  - exists [], E. by repeat split.
  - destruct l as [|cl ll xl dl lr].
    + exists [], (T c E a d r). repeat split; try done.
      intros _. by eexists _, _, _, _.
    + destruct (IHl (FL c a d r :: k)) as (kk & n & Heq & Hfl & Hplug & Hn).
      exists (kk ++ [FL c a d r]), n. split_and!.
      * change (leftmost k (T c (T cl ll xl dl lr) a d r))
          with (leftmost (FL c a d r :: k) (T cl ll xl dl lr)).
        rewrite Heq. by rewrite <-app_assoc.
      * apply Forall_app. split; [done|]. by repeat constructor.
      * rewrite plug_app. simpl. by rewrite Hplug.
      * intros _. by apply Hn.
Qed.

Lemma pleft_FL (kk : path A) : Forall is_FL kk → pleft kk = [].
Proof.
  induction 1 as [|[] kk Hf _ IH]; simpl; try done.
Qed.

Lemma pleft_app k1 k2 : pleft (k1 ++ k2) = pleft k2 ++ pleft k1.
Proof.
  induction k1 as [|[] k1 IH]; simpl; [by rewrite app_nil_r|done|].
  rewrite IH. by rewrite <-!app_assoc.
Qed.

Lemma pright_app k1 k2 : pright (k1 ++ k2) = pright k1 ++ pright k2.
Proof.
  induction k1 as [|[] k1 IH]; simpl; [done| |done].
  rewrite IH. by rewrite <-!app_assoc.
Qed.

Lemma length_path_le k t : (length k + count t ≤ count (plug k t))%nat.
Proof.
  revert t. induction k as [|[c a d r|c l a d] k IH]; intros t; simpl; [lia|..].
  - specialize (IH (T c t a d r)). simpl in IH. lia.
  - specialize (IH (T c l a d t)). simpl in IH. lia.
Qed.

(** A balanced subtree of black height zero is absent or a RED leaf. *)
Lemma bh_zero t :
  bh t = O → balanced t → no_red_red t →
  t = E ∨ ∃ x d, t = T RED E x d E.
Proof.
  destruct t as [|[] l x d r]; [by left| |simpl; lia].
  simpl. intros Hb (Hlr & _ & _) (Hc & _ & _). right.
  destruct (Hc eq_refl) as [Hl Hr].
  destruct l as [|[] ? ? ? ?]; try done; [|simpl in *; lia].
  destruct r as [|[] ? ? ? ?]; try done; [|simpl in *; lia].
  by eexists _, _.
Qed.

Lemma node_shape k c l a d r :
  red_black (plug k (T c l a d r)) →
  (r = E → l = E ∨ ∃ x dl, l = T RED E x dl E)
  ∧ (l = E → r = E ∨ ∃ x dr, r = T RED E x dr E)
  ∧ (c = RED → l = E → r = E).
Proof.
  intros H. apply plug_rb_inv in H.
  destruct H as (_ & (Hb & Hbl & Hbr) & (Hc & Hnl & Hnr) & _).
  split_and!.
  - intros ->. apply bh_zero; done.
  - intros ->. apply bh_zero; done.
  - intros Hred ->. destruct (Hc Hred) as [_ Hr].
    destruct (bh_zero r) as [?|(? & ? & ->)]; done.
Qed.

Lemma place_spec k c l a d r :
  red_black (plug k (T c l a d r)) →
  ∃ k' c' r',
    place k (T c l a d r) = (k', T c' E a d r')
    ∧ red_black (plug k' (T c' E a d r'))
    ∧ pleft k' ++ inorder r' ++ pright k'
      = pleft k ++ inorder l ++ inorder r ++ pright k
    ∧ count (plug k' (T c' E a d r')) = count (plug k (T c l a d r)).
Proof.
  intros H. destruct (node_shape _ _ _ _ _ _ H) as (Hl & Hr & _).
  destruct l as [|cl ll x dl lr], r as [|cr rl y dr rr].
  - exists k, c, E. by split_and!.
  - destruct Hr as [?|(? & ? & [= -> -> -> -> ->])]; [done..|].
    eexists _, _, _. split; [reflexivity|]. split_and!.
    + apply plug_rb_inv in H. destruct H as (Hk & Hb & Hn & Hc).
      cbn [plug]. eapply plug_rb; [exact Hk|done..].
    + simpl. by rewrite <-!app_assoc.
    + cbn [plug]. apply count_plug_eq. simpl. lia.
  - destruct Hl as [?|(? & ? & [= -> -> -> -> ->])]; [done..|].
    eexists _, _, _. split; [reflexivity|]. split_and!.
    + apply plug_rb_inv in H. destruct H as (Hk & Hb & Hn & Hc).
      cbn [plug]. eapply plug_rb; [exact Hk|done..].
    + reflexivity.
    + cbn [plug]. apply count_plug_eq. simpl. lia.
  - destruct (leftmost_spec (T cr rl y dr rr) []) as (kk & n & Heq & Hfl & Hplug & Hn).
    destruct Hn as (cs & s & ds & sr & ->); [done|].
    rewrite app_nil_r in Heq.
    eexists _, _, _. split; [cbn [place]; rewrite Heq; reflexivity|].
    rewrite <-Hplug in H |- *.
    change (plug k (T c (T cl ll x dl lr) a d (plug kk (T cs E s ds sr))))
      with (plug (FR c (T cl ll x dl lr) a d :: k) (plug kk (T cs E s ds sr))) in H |- *.
    rewrite <-plug_app in H |- *.
    split_and!.
    + apply plug_rb_inv in H. destruct H as (Hk & Hb & Hn & Hc).
      eapply plug_rb.
      * eapply path_rb_app_change; [| |exact Hk]; done.
      * done.
      * done.
      * done.
      * destruct Hc as [?|?]; [by left|right].
        eapply above_black_app_change; [|done]. done.
    + rewrite !pleft_app, !pright_app, (pleft_FL _ Hfl). simpl.
      rewrite inorder_plug, (pleft_FL _ Hfl). simpl. by rewrite <-!app_assoc.
    + rewrite <-!length_inorder, !inorder_plug.
      repeat (rewrite ?length_app, ?pleft_app, ?pright_app; simpl). lia.
Qed.

Lemma balance_spec fuel k c a d r :
  red_black (plug k (T c E a d r)) → (length k + 2 ≤ fuel)%nat →
  ∃ Y, balance fuel k (T c E a d r) = Some Y ∧ red_black Y
       ∧ inorder Y = pleft k ++ inorder r ++ pright k.
Proof.
  intros H Hfuel. destruct (node_shape _ _ _ _ _ _ H) as (_ & Hr & Hred).
  apply plug_rb_inv in H. destruct H as (Hk & Hb & Hn & Hc).
  cbn [balance]. destruct (decide (c = RED)) as [->|Hcb].
  - rewrite (Hred eq_refl eq_refl). eexists. split; [reflexivity|]. split.
    + eapply plug_rb; [exact Hk|done..| by left].
    + by rewrite inorder_plug.
  - assert (c = BLACK) as -> by (by destruct c).
    destruct (Hr eq_refl) as [->|(x & dx & ->)].
    + destruct (del_fix_rb fuel k E O) as (Y & HY & Hrb); try done.
      { by left. }
      exists Y. split_and!; try done.
      rewrite (del_fix_seq _ _ _ _ HY). by rewrite inorder_plug.
    + eexists. split; [reflexivity|]. split.
      * eapply plug_rb; [exact Hk|done..| by left].
      * by rewrite inorder_plug.
Qed.

End PureDelete.

(** ** insertToRBTree *)

Section InsertHeap.
Context {A : Type}.
Variable compFunc : option A → option A → Z.
Implicit Types (t l r : tree A) (k : path A) (h : gmap addr (@Node A)).
Implicit Types (F : gmap addr (@Node A)) (st : @state A).

Lemma repr_det h h' t : ∀ par x,
  repr h par t → repr h' par t → x ∈ addrs t → h !! x = h' !! x.
Proof.
  induction t as [|c l IHl a d r IHr]; intros par x; simpl.
  - by intros _ _ ?%elem_of_nil.
  - intros (Ha & Hl & Hr) (Ha' & Hl' & Hr').
    rewrite elem_of_app, elem_of_cons. intros [?|[->|?]]; [eauto|congruence|eauto].
Qed.

(** The tree, the rest of the store, the count and the log fix the state. *)
Lemma Rep_inj F z fr st st' t : Rep F z fr st t → Rep F z fr st' t → st = st'.
Proof.
  intros (Hroot & Hsz & Hfr & Hrepr & _ & Hout & _)
         (Hroot' & Hsz' & Hfr' & Hrepr' & _ & Hout' & _).
  destruct st as [rt sz h fl], st' as [rt' sz' h' fl']. simpl in *.
  f_equal; try congruence.
  apply map_eq. intros x. destruct (decide (x ∈ addrs t)) as [Hx|Hx].
  - by eapply repr_det.
  - by rewrite Hout, Hout'.
Qed.

Lemma Rep_fresh F z fr st t a :
  Rep F z fr st t → heap st !! a = None → (a ∉ addrs t) ∧ F !! a = None.
Proof.
  intros HR Ha.
  assert (a ∉ addrs t) as Hn.
  { intros Hin. destruct (elem_of_addrs_plug _ _ Hin) as (k & c & l & d & r & ->).
    by rewrite (Rep_lookup _ _ _ _ _ _ _ _ _ _ HR) in Ha. }
  split; [done|]. destruct HR as (_ & _ & _ & _ & _ & Hout & _).
  by rewrite <-Hout.
Qed.

Lemma fuel_of_count F z fr st t : Rep F z fr st t → (count t < fuel_of st)%nat.
Proof. intros HR. apply count_le_heap in HR. unfold fuel_of. lia. Qed.

Lemma insert_spec F z fr st t a d :
  Rep F z fr st t → heap st !! a = None →
  match (descend compFunc (Some d) [] t).2 with
  | E =>
      ∀ c Y, ins_fix (descend compFunc (Some d) [] t).1 E a d E = Some (c, Y) →
        ∃ st', insertToRBTree compFunc (Some st) (Some d) (Some a)
               = Some (SUCCESS, Some st')
               ∧ Rep F (z + 1) fr st' Y
               ∧ color <$> heap st' !! a = Some c
  | T _ _ _ _ _ =>
      insertToRBTree compFunc (Some st) (Some d) (Some a) = Some (FAILURE, Some st)
  end.
Proof.
  intros HR Ha. destruct (Rep_fresh _ _ _ _ _ _ HR Ha) as [Hna HFa].
  pose proof (alloc_spec _ _ _ _ _ a (mkNode None None None BLACK (Some d)) HR Ha) as HR1.
  cbn [insertToRBTree]. set (st1 := set_heap _ st) in *.
  destruct t as [|c0 l0 a0 d0 r0].
  - (* empty tree *)
    cbn [descend snd fst]. intros c Y [= <- <-].
    assert (root st1 = None) as -> by (by destruct HR1 as (-> & _)).
    eexists. split; [reflexivity|].
    destruct HR as (Hroot & Hsz & Hfr & _ & _ & Hout & HF).
    destruct st as [rt sz h fl]. unfold Rep. simpl in *. subst.
    split_and!; try done.
    + by rewrite lookup_insert_eq.
    + apply NoDup_singleton.
    + intros x Hx. rewrite lookup_insert_ne; [apply Hout; apply not_elem_of_nil|].
      intros ->. apply Hx. by constructor.
    + intros x [->|[]%elem_of_nil]%elem_of_cons. done.
    + by rewrite lookup_insert_eq.
  - set (t := T c0 l0 a0 d0 r0) in *.
    assert (root st1 = Some a0) as Hroot by (by destruct HR1 as (-> & _)).
    rewrite Hroot. unfold insertNode. rewrite Hroot, <-Hroot.
    assert (root st1 = rootp t) as -> by done.
    destruct (insertNode_loop_spec compFunc _ _ _ a d t [] (fuel_of st1) st1 HR1)
      as (st2 & Hloop).
    { by rewrite lookup_insert_eq. }
    { by eapply fuel_of_count. }
    rewrite delete_insert_id in Hloop by done.
    destruct (descend compFunc (Some d) [] t) as [k n] eqn:Hd. cbn [fst snd] in *.
    destruct n as [|? ? ? ? ?].
    + destruct Hloop as [Hloop HR2]. intros c Y Hfix.
      cbn [hole_parent hole_side] in Hloop.
      change FAILURE with 0 in Hloop. rewrite Hloop. cbn [mbind option_bind].
      rewrite decide_False by done.
      destruct (updateColors_spec F z fr (length k) k BLACK E a d E st2
                  (fuel_of st2) c Y) as (st3 & t3 & -> & HR3 & Hpaint);
        [lia| |done|done|].
      { pose proof (fuel_of_count _ _ _ _ _ HR2).
        pose proof (length_path_le k (T BLACK E a d E)). lia. }
      cbn [mbind option_bind].
      assert (a ∈ addrs t3) as Hin.
      { apply (f_equal addrs) in Hpaint. rewrite addrs_paint in Hpaint.
        rewrite Hpaint.
        destruct (ins_fix_seq _ _ _ _ _ _ _ Hfix) as (-> & _).
        rewrite addrs_plug. apply elem_of_app. left. simpl. by constructor. }
      destruct (store_color_spec _ _ _ _ _ a c HR3 Hin) as (st4 & -> & HR4).
      cbn [mbind option_bind]. eexists. split; [reflexivity|].
      rewrite Hpaint in HR4.
      assert (size st4 = z) as -> by (by destruct HR4 as (_ & -> & _)).
      split; [by apply (Rep_set_size _ z)|].
      destruct (elem_of_addrs_plug _ _ Hin) as (k' & c' & l' & d' & r' & ->).
      rewrite paint_focus in Hpaint by (by eapply Rep_nodup). subst Y.
      cbn [set_size heap]. by rewrite (Rep_lookup _ _ _ _ _ _ _ _ _ _ HR4).
    + destruct Hloop as [Hloop HR2].
      cbn [hole_parent hole_side] in Hloop.
      change FAILURE with 0 in Hloop at 1. rewrite Hloop. cbn [mbind option_bind].
      rewrite decide_True by done.
      by rewrite (Rep_inj _ _ _ _ _ _ HR2 HR).
Qed.

End InsertHeap.

(** ** deleteFromRBTree *)

Section DeleteHeap.
Context {A : Type}.
Variable compFunc : option A → option A → Z.
Implicit Types (t l r : tree A) (k : path A) (h : gmap addr (@Node A)).
Implicit Types (F : gmap addr (@Node A)) (st : @state A).

Lemma getSingleChild_spec F z fr st k c l a d r :
  Rep F z fr st (plug k (T c l a d r)) →
  getSingleChild (Some a) st
  = Some match l, r with
         | E, T _ _ _ _ _ => rootp r
         | T _ _ _ _ _, E => rootp l
         | _, _ => None
         end.
Proof.
  intros HR. unfold getSingleChild.
  rewrite (Rep_load _ _ _ _ _ _ _ _ _ _ HR). cbn [mbind option_bind left right].
  destruct l, r; cbn [rootp]; repeat case_decide; try done; naive_solver.
Qed.

Lemma leftmost_app_nil k t :
  leftmost k t = ((leftmost [] t).1 ++ k, (leftmost [] t).2).
Proof.
  revert k. induction t as [|c l IHl a d r _]; intros k; [done|].
  destruct l as [|cl ll xl dl lr]; [done|].
  change (leftmost k (T c (T cl ll xl dl lr) a d r))
    with (leftmost (FL c a d r :: k) (T cl ll xl dl lr)).
  change (leftmost [] (T c (T cl ll xl dl lr) a d r))
    with (leftmost [FL c a d r] (T cl ll xl dl lr)).
  rewrite (IHl (FL c a d r :: k)), (IHl [FL c a d r]). cbn [fst snd].
  by rewrite <-app_assoc.
Qed.

Lemma snoc_case {X} (xs : list X) : xs = [] ∨ ∃ ys y, xs = ys ++ [y].
Proof.
  induction xs as [|x xs IH] using rev_ind; [by left|right]. by eexists _, _.
Qed.

(** [switchNodes] on a node and the first node of its right subtree in
    sequence. *)
Lemma switch_succ_spec F z fr st k kk ch hl a dh cl x dl xr :
  Forall is_FL kk →
  Rep F z fr st (plug (kk ++ FR ch hl a dh :: k) (T cl E x dl xr)) →
  ∃ st', switchNodes (Some a) (Some x) st = Some st'
         ∧ Rep F z fr st' (plug (kk ++ FR ch hl x dl :: k) (T cl E a dh xr)).
Proof.
  intros Hfl HR. destruct kk as [|f1 kk].
  { by apply (switch_right_child_spec _ _ _ _ k). }
  apply Forall_cons in Hfl as [Hf1 Hfl].
  destruct f1 as [c1 y1 d1 r1|]; [|done].
  destruct (snoc_case kk) as [->|(kk' & f2 & ->)].
  { by apply (switch_succ_near_spec _ _ _ _ k). }
  apply Forall_app in Hfl as [_ Hf2]. apply Forall_cons in Hf2 as [Hf2 _].
  destruct f2 as [ct yt dt rt|]; [|done].
  cbn [app] in HR |- *. rewrite <-app_assoc in HR |- *. cbn [app] in HR |- *.
  by apply switch_succ_far_spec.
Qed.

Lemma placeBeforeDeletion_spec F z fr st k c l a d r fuel :
  Rep F z fr st (plug k (T c l a d r)) →
  red_black (plug k (T c l a d r)) →
  (count (plug k (T c l a d r)) < fuel)%nat →
  ∃ ch st',
    placeBeforeDeletion fuel (Some a) None st = Some (SUCCESS, ch, st')
    ∧ Rep F z fr st' (plug (place k (T c l a d r)).1 (place k (T c l a d r)).2).
Proof.
  intros HR Hrb Hfuel. destruct (node_shape _ _ _ _ _ _ Hrb) as (Hl & Hr & _).
  cbn [placeBeforeDeletion]. rewrite (getSingleChild_spec _ _ _ _ _ _ _ _ _ _ HR).
  cbn [mbind option_bind].
  destruct l as [|cl ll x dl lr], r as [|cr rl y dr rr].
  - rewrite (Rep_load _ _ _ _ _ _ _ _ _ _ HR). cbn [mbind option_bind left right rootp].
    rewrite decide_False by (by intros [? ?]). by eexists _, _.
  - destruct Hr as [?|(? & ? & [= -> -> -> -> ->])]; [done..|].
    cbn [rootp].
    destruct (switch_right_child_spec _ _ _ _ _ _ _ _ _ _ _ _ _ HR) as (st' & -> & HR').
    by eexists _, _.
  - destruct Hl as [?|(? & ? & [= -> -> -> -> ->])]; [done..|].
    cbn [rootp].
    destruct (switch_left_leaf_spec _ _ _ _ _ _ _ _ _ _ _ HR) as (st' & -> & HR').
    by eexists _, _.
  - rewrite (Rep_load _ _ _ _ _ _ _ _ _ _ HR). cbn [mbind option_bind left right rootp].
    rewrite decide_True by done.
    unfold findSuccessor. rewrite (Rep_load _ _ _ _ _ _ _ _ _ _ HR).
    cbn [mbind option_bind left right].
    set (l := T cl ll x dl lr) in *. set (r := T cr rl y dr rr) in *.
    change (Rep F z fr st (plug (FR c l a d :: k) r)) in HR.
    rewrite (findSuccessor_loop_spec _ _ _ _ r (FR c l a d :: k) fuel HR).
    2:{ pose proof (count_plug_le (FR c l a d :: k) r). simpl in *. lia. }
    destruct (leftmost_spec r (FR c l a d :: k)) as (kk & n & Heq & Hfl & Hplug & Hn).
    destruct Hn as (cs & s & ds & sr & ->); [done|].
    rewrite Heq. cbn [snd rootp mbind option_bind].
    pose proof (leftmost_plug (FR c l a d :: k) r) as Hlp.
    rewrite Heq in Hlp. cbn [fst snd] in Hlp. rewrite <-Hlp in HR.
    destruct (switch_succ_spec _ _ _ _ _ _ _ _ _ _ _ _ _ _ Hfl HR) as (st' & -> & HR').
    eexists _, _. split; [reflexivity|].
    destruct (leftmost_spec r []) as (kk0 & n0 & Heq0 & _ & Hplug0 & _).
    rewrite app_nil_r in Heq0.
    assert (kk0 = kk ∧ n0 = T cs E s ds sr) as [-> ->].
    { pose proof (leftmost_app_nil (FR c l a d :: k) r) as Happ.
      rewrite Heq, Heq0 in Happ. cbn [fst snd] in Happ.
      injection Happ as Hk' Hn'. split; [|done]. by apply app_inv_tail in Hk'. }
    cbn [place]. fold r. rewrite Heq0. exact HR'.
Qed.

Lemma balanceTree_spec F z fr st k c a d r fuel Y ch :
  Rep F z fr st (plug k (T c E a d r)) →
  red_black (plug k (T c E a d r)) →
  balance fuel k (T c E a d r) = Some Y →
  ∃ st' n, balanceTree fuel (hole_parent k) (Some a) ch (hole_side k) st = Some st'
           ∧ Rep (<[a := n]> F) z fr st' Y ∧ data n = Some d.
Proof.
  intros HR Hrb Hbal. destruct (node_shape _ _ _ _ _ _ Hrb) as (_ & Hr & Hred).
  unfold balanceTree. rewrite (Rep_load _ _ _ _ _ _ _ _ _ _ HR).
  cbn [mbind option_bind color]. cbn [balance] in Hbal.
  destruct (decide (c = RED)) as [->|Hc].
  - rewrite (Hred eq_refl eq_refl) in *. injection Hbal as <-.
    destruct (detach_left_spec _ _ _ _ _ _ _ _ _ HR) as (st' & Hst' & HR').
    cbn [rootp] in Hst'. rewrite Hst'. by eexists _, _.
  - rewrite (getSingleChild_spec _ _ _ _ _ _ _ _ _ _ HR). cbn [mbind option_bind].
    destruct (Hr eq_refl) as [->|(x & dx & ->)].
    + destruct (detach_left_spec _ _ _ _ _ _ _ _ _ HR) as (st' & Hst' & HR').
      cbn [rootp] in Hst'. rewrite Hst'. cbn [mbind option_bind isRed].
      destruct (solveDB_spec _ _ _ fuel k E st' Y (RefVar (hole_parent k)) (RefVar None)
                  HR' Hbal) as (st'' & -> & HR''); [by left|by left|].
      by eexists _, _.
    + destruct (detach_right_spec _ _ _ _ _ _ _ _ _ HR) as (st' & Hst' & HR').
      cbn [rootp] in Hst' |- *. rewrite Hst'. cbn [mbind option_bind isRed].
      rewrite (Rep_load _ _ _ _ _ _ _ _ _ _ HR'). cbn [mbind option_bind color].
      rewrite bool_decide_true by done. injection Hbal as <-.
      destruct (store_color_focus _ _ _ _ _ _ _ _ _ _ BLACK HR') as (st'' & -> & HR'').
      by eexists _, _.
Qed.

Lemma load_outside F z fr st t a n :
  Rep F z fr st t → F !! a = Some n → load (Some a) st = Some n.
Proof. intros HR Ha. unfold load. simpl. by eapply Rep_outside_lookup. Qed.

Lemma freeNode_leaf F z fr st t a n fuel :
  Rep F z fr st t → F !! a = Some n → left n = None → right n = None →
  ∃ st', freeNode (S fuel) (Some a) st = Some st'
         ∧ Rep (delete a F) z (fr ++ [data n]) st' t.
Proof.
  intros HR Ha Hl Hr. cbn [freeNode].
  rewrite (load_outside _ _ _ _ _ _ _ HR Ha). cbn [mbind option_bind].
  assert (∀ s : @state A, freeNode fuel None s = Some s) as Hnone by (by destruct fuel).
  rewrite Hl, Hnone. cbn [mbind option_bind].
  rewrite (load_outside _ _ _ _ _ _ _ HR Ha). cbn [mbind option_bind].
  rewrite Hr, Hnone. cbn [mbind option_bind].
  rewrite (load_outside _ _ _ _ _ _ _ HR Ha). cbn [mbind option_bind].
  apply (release_spec _ _ _ _ _ _ n); [by apply Rep_log_free|done].
Qed.

Lemma delete_spec F z fr st t d k c l a x r :
  Rep F z fr st t → red_black t →
  descend compFunc d [] t = (k, T c l a x r) →
  ∃ st' Y, deleteFromRBTree compFunc (Some st) d = Some (SUCCESS, Some st')
           ∧ Rep F (z - 1) (fr ++ [Some x]) st' Y ∧ red_black Y
           ∧ inorder Y = pleft k ++ inorder l ++ inorder r ++ pright k.
Proof.
  intros HR Hrb Hd.
  pose proof (descend_plug compFunc d [] t) as Hplug. rewrite Hd in Hplug.
  cbn [fst snd plug] in Hplug. subst t.
  pose proof (fuel_of_count _ _ _ _ _ HR) as Hfuel.
  assert (F !! a = None) as HFa.
  { destruct HR as (_ & _ & _ & _ & _ & _ & HF). apply HF.
    rewrite addrs_plug. apply elem_of_app. left. simpl.
    apply elem_of_app. right. by constructor. }
  cbn [deleteFromRBTree]. unfold findNode.
  assert (root st = rootp (plug k (T c l a x r))) as -> by (by destruct HR as (-> & _)).
  rewrite (findNode_loop_spec compFunc F z fr st d _ [] (fuel_of st) HR Hfuel).
  rewrite Hd. cbn [snd rootp mbind option_bind].
  destruct (placeBeforeDeletion_spec _ _ _ _ _ _ _ _ _ _ (fuel_of st) HR Hrb Hfuel)
    as (ch & st1 & -> & HR1).
  cbn [mbind option_bind]. rewrite decide_False by done.
  destruct (place_spec _ _ _ _ _ _ Hrb) as (k' & c' & r' & Hplace & Hrb' & Hseq & Hcount).
  rewrite Hplace in HR1. cbn [fst snd] in HR1.
  rewrite (Rep_load _ _ _ _ _ _ _ _ _ _ HR1). cbn [mbind option_bind parent].
  rewrite (getSide_spec _ _ _ _ _ _ _ _ _ _ HR1). cbn [mbind option_bind].
  destruct (balance_spec (fuel_of st) k' c' a x r' Hrb') as (Y & HY & HrbY & HinY).
  { pose proof (length_path_le k' (T c' E a x r')). simpl in *. lia. }
  destruct (balanceTree_spec _ _ _ _ _ _ _ _ _ _ _ ch HR1 Hrb' HY)
    as (st2 & n & -> & HR2 & Hn).
  cbn [mbind option_bind].
  destruct (frame_store _ _ _ _ _ a n (set_right None) HR2) as (st3 & -> & HR3).
  { by rewrite lookup_insert_eq. }
  cbn [mbind option_bind].
  destruct (frame_store _ _ _ _ _ a (set_right None n) (set_left None) HR3)
    as (st4 & -> & HR4).
  { by rewrite lookup_insert_eq. }
  cbn [mbind option_bind].
  destruct (freeNode_leaf _ _ _ _ _ a (set_left None (set_right None n))
              (base.size (heap st) + 1) HR4) as (st5 & Hfree & HR5); try done.
  { by rewrite lookup_insert_eq. }
  replace (fuel_of st) with (S (base.size (heap st) + 1)) by (unfold fuel_of; lia).
  rewrite Hfree. cbn [mbind option_bind].
  eexists _, Y. split; [reflexivity|]. split_and!; try done.
  - rewrite !insert_insert_eq, delete_insert_id in HR5 by done.
    replace (data (set_left None (set_right None n))) with (Some x) in HR5
      by (by destruct n; simpl in *).
    assert (size st5 = z) as -> by (by destruct HR5 as (_ & -> & _)).
    by apply (Rep_set_size _ z).
  - by rewrite HinY, Hseq.
Qed.

Lemma delete_absent F z fr st t d :
  Rep F z fr st t → (descend compFunc d [] t).2 = E →
  deleteFromRBTree compFunc (Some st) d = Some (FAILURE, Some st).
Proof.
  intros HR Hd. cbn [deleteFromRBTree]. unfold findNode.
  assert (root st = rootp t) as -> by (by destruct HR as (-> & _)).
  rewrite (findNode_loop_spec compFunc F z fr st d _ [] (fuel_of st) HR).
  2:{ by eapply fuel_of_count. }
  rewrite Hd. reflexivity.
Qed.

End DeleteHeap.

(** ** Order: the comparator's laws and the descent *)

Section Sorted.
Context {A : Type}.
Variable compFunc : option A → option A → Z.
Hypothesis Hcmp : comparator compFunc.
Implicit Types (t l r : tree A) (k : path A) (x y d : A).

Local Abbreviation cmp x y := (compFunc (Some x) (Some y)).

Lemma cmp_flip x y :
  (cmp x y < 0 ∧ 0 < cmp y x) ∨ (cmp x y = 0 ∧ cmp y x = 0)
  ∨ (0 < cmp x y ∧ cmp y x < 0).
Proof.
  pose proof (comp_sgn _ Hcmp x y) as H.
  destruct (Z.sgn_spec (cmp x y)) as [[? E1]|[[? E1]|[? E1]]];
    destruct (Z.sgn_spec (cmp y x)) as [[? E2]|[[? E2]|[? E2]]];
    rewrite E1, E2 in H; lia.
Qed.

Lemma cmp_refl x : cmp x x = 0.
Proof. destruct (cmp_flip x x) as [?|[?|?]]; lia. Qed.

Lemma cmp_lt_trans x y z : cmp x y < 0 → cmp y z < 0 → cmp x z < 0.
Proof.
  intros Hxy Hyz.
  pose proof (comp_trans _ Hcmp x y z ltac:(lia) ltac:(lia)) as Hxz.
  destruct (decide (cmp x z = 0)) as [Heq|]; [|lia].
  pose proof (cmp_flip x z). pose proof (cmp_flip y z).
  pose proof (comp_trans _ Hcmp z x y ltac:(lia) ltac:(lia)). lia.
Qed.

Lemma cmp_eq_lt x y z : cmp x y = 0 → cmp y z < 0 → cmp x z < 0.
Proof.
  intros Hxy Hyz.
  pose proof (comp_trans _ Hcmp x y z ltac:(lia) ltac:(lia)) as Hxz.
  destruct (decide (cmp x z = 0)) as [Heq|]; [|lia].
  pose proof (cmp_flip x z). pose proof (cmp_flip y z).
  pose proof (comp_trans _ Hcmp z x y ltac:(lia) ltac:(lia)). lia.
Qed.

Lemma cmp_lt_eq x y z : cmp x y < 0 → cmp y z = 0 → cmp x z < 0.
Proof.
  intros Hxy Hyz.
  pose proof (comp_trans _ Hcmp x y z ltac:(lia) ltac:(lia)) as Hxz.
  destruct (decide (cmp x z = 0)) as [Heq|]; [|lia].
  pose proof (cmp_flip x z). pose proof (cmp_flip x y).
  pose proof (comp_trans _ Hcmp y z x ltac:(lia) ltac:(lia)). lia.
Qed.

Lemma sorted_app (l1 l2 : list A) :
  sorted compFunc (l1 ++ l2) ↔
  sorted compFunc l1 ∧ sorted compFunc l2
  ∧ ∀ x y, x ∈ l1 → y ∈ l2 → cmp x y < 0.
Proof.
  induction l1 as [|a l1 IH]; simpl.
  - split; [intros ?; split_and!; try done; by intros ? ? ?%elem_of_nil|tauto].
  - rewrite Forall_app, IH. split.
    + intros ((Ha1 & Ha2) & H1 & H2 & H12). split_and!; try done.
      intros x y [->|Hx]%elem_of_cons Hy; [|by apply H12].
      by eapply Forall_forall in Ha2.
    + intros ((Ha1 & H1) & H2 & H12). split_and!; try done.
      * apply Forall_forall. intros y Hy. apply H12; [by left|done].
      * intros x y Hx Hy. apply H12; [by right|done].
Qed.

Lemma sorted_delete (l1 l2 : list A) x :
  sorted compFunc (l1 ++ x :: l2) → sorted compFunc (l1 ++ l2).
Proof.
  rewrite !sorted_app. simpl. intros (H1 & (Hx & H2) & H12). split_and!; try done.
  intros a b Ha Hb. apply H12; [done|by right].
Qed.

Lemma sorted_insert (l1 l2 : list A) d :
  sorted compFunc (l1 ++ l2) →
  Forall (λ y, cmp y d < 0) l1 → Forall (λ y, cmp d y < 0) l2 →
  sorted compFunc (l1 ++ d :: l2).
Proof.
  rewrite !sorted_app. simpl. intros (H1 & H2 & H12) Hl Hr. split_and!; try done.
  intros a b Ha [->|Hb]%elem_of_cons; [|by apply H12].
  by eapply Forall_forall in Hl.
Qed.

Lemma sorted_unique (l0 : list A) x y :
  sorted compFunc l0 → x ∈ l0 → y ∈ l0 → cmp x y = 0 → x = y.
Proof.
  intros Hs Hx Hy Hxy. apply list_elem_of_split in Hx as (l1 & l2 & ->).
  apply sorted_app in Hs as (H1 & (Hx2 & H2) & H12).
  apply elem_of_app in Hy as [Hy|[->|Hy]%elem_of_cons]; [|done|].
  - specialize (H12 y x Hy ltac:(by left)). pose proof (cmp_flip x y). lia.
  - eapply Forall_forall in Hx2; [|exact Hy]. simpl in Hx2. lia.
Qed.

Lemma descend_bounds d : ∀ t k,
  sorted compFunc (pleft k ++ inorder t ++ pright k) →
  Forall (λ y, cmp y d < 0) (pleft k) → Forall (λ y, cmp d y < 0) (pright k) →
  Forall (λ y, cmp y d < 0) (pleft (descend compFunc (Some d) k t).1)
  ∧ Forall (λ y, cmp d y < 0) (pright (descend compFunc (Some d) k t).1).
Proof.
  induction t as [|c l IHl a x r IHr]; intros k Hs Hl Hr; [done|].
  cbn [descend]. repeat case_decide; [done|..].
  - apply IHl; cbn [pleft pright].
    + revert Hs. simpl. by rewrite <-!app_assoc.
    + done.
    + simpl in Hs. apply sorted_app in Hs as (_ & Hs & _).
      apply sorted_app in Hs as (Hs & _ & _).
      apply sorted_app in Hs as (_ & (Hxr & _) & _).
      unfold EQUAL in *.
      apply Forall_cons. split; [lia|]. apply Forall_app. split; [|done].
      eapply Forall_impl; [exact Hxr|]. simpl. intros y Hy.
      eapply cmp_lt_trans; [|exact Hy]. lia.
  - apply IHr; cbn [pleft pright].
    + revert Hs. simpl. by rewrite <-!app_assoc.
    + simpl in Hs. apply sorted_app in Hs as (_ & Hs & _).
      apply sorted_app in Hs as (Hs & _ & _).
      apply sorted_app in Hs as (_ & _ & Hlx).
      unfold EQUAL in *. pose proof (cmp_flip d x).
      apply Forall_app. split; [done|]. apply Forall_app. split.
      * apply Forall_forall. intros y Hy.
        eapply (cmp_lt_trans _ x); [apply Hlx; [done|by left]|lia].
      * apply Forall_cons. split; [lia|done].
    + done.
Qed.

Lemma descend_absent_sorted d t k0 :
  sorted compFunc (inorder t) → descend compFunc (Some d) [] t = (k0, E) →
  inorder t = pleft k0 ++ pright k0
  ∧ Forall (λ y, cmp y d < 0) (pleft k0) ∧ Forall (λ y, cmp d y < 0) (pright k0)
  ∧ sorted compFunc (pleft k0 ++ d :: pright k0).
Proof.
  intros Hs Hd.
  pose proof (descend_plug compFunc (Some d) [] t) as Hplug.
  pose proof (descend_bounds d t []) as Hb.
  rewrite Hd in Hplug, Hb. cbn [fst snd plug pleft pright] in *.
  rewrite app_nil_r in Hb. destruct (Hb Hs) as [Hl Hr]; [done..|].
  assert (inorder t = pleft k0 ++ pright k0) as Heq.
  { by rewrite <-Hplug, inorder_plug. }
  split_and!; try done. apply sorted_insert; [by rewrite <-Heq|done..].
Qed.

Lemma descend_finds d t :
  sorted compFunc (inorder t) → (∃ y, y ∈ inorder t ∧ cmp d y = 0) →
  ∃ k c l a x r, descend compFunc (Some d) [] t = (k, T c l a x r).
Proof.
  intros Hs (y & Hy & Hdy).
  destruct (descend compFunc (Some d) [] t) as [k [|c l a x r]] eqn:Hd.
  - exfalso. destruct (descend_absent_sorted d t k Hs Hd) as (Heq & Hl & Hr & _).
    rewrite Heq in Hy. apply elem_of_app in Hy as [Hy|Hy].
    + eapply Forall_forall in Hl; [|exact Hy]. simpl in Hl.
      pose proof (cmp_flip d y). lia.
    + eapply Forall_forall in Hr; [|exact Hy]. simpl in Hr. lia.
  - by eexists _, _, _, _, _, _.
Qed.

End Sorted.

Section Search.
Context {A : Type}.
Variable compFunc : option A → option A → Z.
Implicit Types (t l r : tree A) (k : path A).

Lemma descend_found d : ∀ t k k' c l a x r,
  descend compFunc d k t = (k', T c l a x r) → compFunc d (Some x) = 0.
Proof.
  induction t as [|c0 l0 IHl a0 x0 r0 IHr]; intros k k' c l a x r; [done|].
  cbn [descend]. repeat case_decide; eauto.
  by intros [= _ _ _ _ -> _].
Qed.

Lemma descend_none d : ∀ t k,
  (∀ y, y ∈ inorder t → compFunc d (Some y) ≠ 0) →
  (descend compFunc d k t).2 = E.
Proof.
  induction t as [|c0 l0 IHl a0 x0 r0 IHr]; intros k Hne; [done|].
  cbn [descend]. simpl in Hne. unfold EQUAL. repeat case_decide.
  - exfalso. eapply Hne; [|done]. apply elem_of_app. right. by left.
  - apply IHl. intros y Hy. apply Hne. apply elem_of_app. by left.
  - apply IHr. intros y Hy. apply Hne. apply elem_of_app. right. by right.
Qed.

Lemma descend_in d : ∀ t k k' c l a x r,
  descend compFunc d k t = (k', T c l a x r) → x ∈ inorder t.
Proof.
  induction t as [|c0 l0 IHl a0 x0 r0 IHr]; intros k k' c l a x r; [done|].
  cbn [descend]. simpl. repeat case_decide.
  - intros [= _ _ _ _ -> _]. apply elem_of_app. right. by left.
  - intros Hd. apply elem_of_app. left. eauto.
  - intros Hd. apply elem_of_app. right. right. eauto.
Qed.

End Search.

(** ** Insert and delete keep the red-black search tree *)

Section TopLevel.
Context {A : Type}.
Variable compFunc : option A → option A → Z.
Implicit Types (t l r : tree A) (k : path A) (h : gmap addr (@Node A)).
Implicit Types (F : gmap addr (@Node A)) (st : @state A).

Lemma Rep_new : Rep (A:=A) ∅ 0 [] newRBTree E.
Proof. unfold Rep. simpl. split_and!; try done. apply NoDup_nil_2. Qed.

Lemma count_insert k a d c :
  count (plug k (T c E a d E)) = S (count (plug k E)).
Proof.
  rewrite <-!length_inorder, !inorder_plug.
  repeat (rewrite ?length_app; simpl). lia.
Qed.

Lemma addrs_plug_perm k t : addrs (plug k t) ≡ₚ addrs t ++ paddrs k.
Proof. apply addrs_plug. Qed.

(** A successful or refused insertion into a red-black search tree. *)
Lemma insert_valid F fr st t a d :
  comparator compFunc →
  Rep F (Z.of_nat (count t)) fr st t → red_black t → sorted compFunc (inorder t) →
  heap st !! a = None →
  match descend compFunc (Some d) [] t with
  | (k, E) =>
      ∃ st' c Y,
        ins_fix k E a d E = Some (c, Y)
        ∧ insertToRBTree compFunc (Some st) (Some d) (Some a) = Some (SUCCESS, Some st')
        ∧ Rep F (Z.of_nat (count Y)) fr st' Y ∧ red_black Y
        ∧ sorted compFunc (inorder Y)
        ∧ inorder Y = pleft k ++ d :: pright k
        ∧ inorder t = pleft k ++ pright k
        ∧ addrs Y ≡ₚ a :: addrs t
        ∧ color <$> heap st' !! a = Some c
  | (k, T _ _ _ _ _) =>
      insertToRBTree compFunc (Some st) (Some d) (Some a) = Some (FAILURE, Some st)
  end.
Proof.
  intros Hcmp HR Hrb Hs Ha.
  pose proof (insert_spec compFunc _ _ _ _ _ a d HR Ha) as Hspec.
  pose proof (descend_plug compFunc (Some d) [] t) as Hplug.
  destruct (descend compFunc (Some d) [] t) as [k [|c0 l0 a0 d0 r0]] eqn:Hd;
    cbn [fst snd plug] in *; [|done].
  destruct (descend_absent_sorted compFunc Hcmp d t k Hs Hd) as (Heq & _ & _ & Hsorted).
  assert (∃ c Y, ins_fix k E a d E = Some (c, Y) ∧ red_black Y) as (c & Y & Hfix & HY).
  { rewrite <-Hplug in Hrb. apply plug_rb_inv in Hrb as (Hk & _ & _ & _).
    by apply ins_fix_rb. }
  destruct (Hspec c Y Hfix) as (st' & Hins & HR' & Hcol).
  destruct (ins_fix_seq _ _ _ _ _ _ _ Hfix) as (Haddrs & Hin & Hcount).
  exists st', c, Y. split_and!; try done.
  - rewrite Hcount, count_insert, Hplug.
    by replace (Z.of_nat (S (count t))) with (Z.of_nat (count t) + 1) by lia.
  - rewrite Hin, inorder_plug. simpl. done.
  - rewrite Hin, inorder_plug. done.
  - rewrite Haddrs, addrs_plug_perm. simpl.
    rewrite <-Hplug, addrs_plug_perm. simpl. done.
Qed.

(** A successful deletion from a red-black search tree. *)
Lemma delete_valid F fr st t d k c l a x r :
  Rep F (Z.of_nat (count t)) fr st t → red_black t → sorted compFunc (inorder t) →
  descend compFunc d [] t = (k, T c l a x r) →
  ∃ st' Y,
    deleteFromRBTree compFunc (Some st) d = Some (SUCCESS, Some st')
    ∧ Rep F (Z.of_nat (count Y)) (fr ++ [Some x]) st' Y ∧ red_black Y
    ∧ sorted compFunc (inorder Y)
    ∧ inorder t = pleft k ++ inorder l ++ x :: inorder r ++ pright k
    ∧ inorder Y = pleft k ++ inorder l ++ inorder r ++ pright k.
Proof.
  intros HR Hrb Hs Hd.
  destruct (delete_spec compFunc _ _ _ _ _ _ _ _ _ _ _ _ HR Hrb Hd)
    as (st' & Y & Hdel & HR' & HY & HinY).
  pose proof (descend_plug compFunc d [] t) as Hplug. rewrite Hd in Hplug.
  cbn [fst snd plug] in Hplug.
  assert (inorder t = pleft k ++ inorder l ++ x :: inorder r ++ pright k) as Heq.
  { rewrite <-Hplug, inorder_plug. simpl. by rewrite <-!app_assoc. }
  exists st', Y. split_and!; try done.
  - replace (Z.of_nat (count Y)) with (Z.of_nat (count t) - 1); [done|].
    rewrite <-!length_inorder, HinY, Heq.
    repeat (rewrite ?length_app; simpl). lia.
  - rewrite HinY. rewrite Heq in Hs.
    rewrite (app_assoc (pleft k)) in Hs |- *.
    by apply sorted_delete in Hs.
Qed.

Lemma Inv_new : Inv compFunc newRBTree.
Proof. exists E. split_and!; try done. apply Rep_new. Qed.

Lemma insert_Inv st d p (r : Z) st' :
  comparator compFunc → Inv compFunc st →
  (∀ a, p = Some a → heap st !! a = None) →
  insertToRBTree compFunc (Some st) d p = Some (r, Some st') →
  Inv compFunc st'.
Proof.
  intros Hcmp (t & HR & Hrb & Hs) Hfresh Hins.
  destruct d as [d|]; [|by injection Hins as _ <-; exists t].
  destruct p as [a|]; [|by injection Hins as _ <-; exists t].
  pose proof (insert_valid ∅ _ st t a d Hcmp HR Hrb Hs (Hfresh a eq_refl)) as H.
  destruct (descend compFunc (Some d) [] t) as [k [|c0 l0 a0 d0 r0]].
  - destruct H as (st1 & c & Y & _ & Hins1 & HR1 & HY & HsY & _).
    rewrite Hins1 in Hins. injection Hins as _ <-.
    exists Y. split_and!; try done.
    assert (freed st1 = freed st) as Hf by (by destruct HR1 as (_ & _ & ? & _)).
    by rewrite Hf.
  - rewrite H in Hins. injection Hins as _ <-. by exists t.
Qed.

Lemma delete_Inv st d (r : Z) st' :
  Inv compFunc st →
  deleteFromRBTree compFunc (Some st) d = Some (r, Some st') →
  Inv compFunc st'.
Proof.
  intros (t & HR & Hrb & Hs) Hdel.
  destruct (descend compFunc d [] t) as [k [|c l a x r0]] eqn:Hd.
  - rewrite (delete_absent compFunc _ _ _ _ t d HR) in Hdel by (by rewrite Hd).
    injection Hdel as _ <-. by exists t.
  - destruct (delete_valid _ _ _ _ _ _ _ _ _ _ _ HR Hrb Hs Hd)
      as (st1 & Y & Hdel1 & HR1 & HY & HsY & _).
    rewrite Hdel1 in Hdel. injection Hdel as _ <-.
    exists Y. split_and!; try done.
    assert (freed st1 = freed st ++ [Some x]) as Hf
      by (by destruct HR1 as (_ & _ & ? & _)).
    by rewrite Hf.
Qed.

Lemma balanced_paths t : balanced t → Forall (λ n, n = bh t) (path_blacks t).
Proof.
  induction t as [|c l IHl a d r IHr]; simpl.
  - intros _. by repeat constructor.
  - intros (Hb & Hl & Hr). apply Forall_fmap, Forall_app. split.
    + eapply Forall_impl; [by apply IHl|]. simpl. by intros ? ->.
    + eapply Forall_impl; [by apply IHr|]. simpl. intros ? ->. by rewrite Hb.
Qed.

Lemma balanced_subtree s t : subtree s t → balanced t → balanced s.
Proof.
  induction t as [|c l IHl a d r IHr]; simpl.
  - by intros [->|[]].
  - intros [->|[?|?]] (Hb & Hl & Hr); simpl; auto.
Qed.

(** On a red-black search tree every insert returns: failure with the
    state as it was, or success with the count one higher. *)
Lemma insert_returns st d p :
  comparator compFunc → Inv compFunc st →
  (∀ a, p = Some a → heap st !! a = None) →
  ∃ (r : Z) st', insertToRBTree compFunc (Some st) d p = Some (r, Some st')
           ∧ Inv compFunc st'
           ∧ ((r = FAILURE ∧ st' = st) ∨ (r = SUCCESS ∧ size st' = size st + 1)).
Proof.
  intros Hcmp (t & HR & Hrb & Hs) Hfresh.
  assert (Inv compFunc st) as HInv by (by exists t).
  destruct d as [d|]; [|exists FAILURE, st; split_and!; auto].
  destruct p as [a|]; [|exists FAILURE, st; split_and!; auto].
  pose proof (insert_valid ∅ _ st t a d Hcmp HR Hrb Hs (Hfresh a eq_refl)) as H.
  destruct (descend compFunc (Some d) [] t) as [k [|c0 l0 a0 d0 r0]].
  - destruct H as (st1 & c & Y & _ & Hins1 & HR1 & HY & HsY & HinY & Hint & _).
    exists SUCCESS, st1. split; [done|]. split.
    + exists Y. split_and!; try done.
      assert (freed st1 = freed st) as Hf by (by destruct HR1 as (_ & _ & ? & _)).
      by rewrite Hf.
    + right. split; [done|].
      destruct HR1 as (_ & -> & _). destruct HR as (_ & -> & _).
      rewrite <-!length_inorder, HinY, Hint.
      repeat (rewrite ?length_app; simpl). lia.
  - exists FAILURE, st. split_and!; auto.
Qed.

(** On a red-black search tree every delete returns: failure with the
    state as it was, or success with the count one lower. *)
Lemma delete_returns st d :
  Inv compFunc st →
  ∃ (r : Z) st', deleteFromRBTree compFunc (Some st) d = Some (r, Some st')
           ∧ Inv compFunc st'
           ∧ ((r = FAILURE ∧ st' = st) ∨ (r = SUCCESS ∧ size st' = size st - 1)).
Proof.
  intros (t & HR & Hrb & Hs).
  assert (Inv compFunc st) as HInv by (by exists t).
  destruct (descend compFunc d [] t) as [k [|c l a x r0]] eqn:Hd.
  - exists FAILURE, st. split_and!; auto.
    apply (delete_absent compFunc _ _ _ _ t d HR). by rewrite Hd.
  - destruct (delete_valid _ _ _ _ _ _ _ _ _ _ _ HR Hrb Hs Hd)
      as (st1 & Y & Hdel1 & HR1 & HY & HsY & Hint & HinY).
    exists SUCCESS, st1. split; [done|]. split.
    + exists Y. split_and!; try done.
      assert (freed st1 = freed st ++ [Some x]) as Hf
        by (by destruct HR1 as (_ & _ & ? & _)).
      by rewrite Hf.
    + right. split; [done|].
      destruct HR1 as (_ & -> & _). destruct HR as (_ & -> & _).
      rewrite <-!length_inorder, HinY, Hint.
      repeat (rewrite ?length_app; simpl). lia.
Qed.

Lemma Inv_rb_search_tree st : Inv compFunc st → rb_search_tree compFunc st.
Proof.
  intros (t & HR & (Hc & Hn & Hb) & Hs). exists t. split_and!; try done.
  intros s Hsub. apply balanced_paths. by eapply balanced_subtree.
Qed.

Lemma reachable_Inv st :
  comparator compFunc → reachable compFunc st → Inv compFunc st.
Proof.
  intros Hcmp. induction 1 as [|st d p r st' _ IH Hfresh Hins|st d r st' _ IH Hdel].
  - apply Inv_new.
  - by eapply insert_Inv.
  - by eapply delete_Inv.
Qed.

End TopLevel.

(** ** Facts behind the claims *)

Section Claims.
Context {A : Type}.
Variable compFunc : option A → option A → Z.
Implicit Types (t l r : tree A) (k : path A) (h : gmap addr (@Node A)).
Implicit Types (F : gmap addr (@Node A)) (st : @state A).

Lemma ins_fix_color k l a d r c Y :
  ins_fix k l a d r = Some (c, Y) → (c = BLACK ↔ k = [] ∨ zigzag k).
Proof.
  destruct k as [|f1 [|f2 k2]]; cbn [ins_fix].
  - intros [= <- _]. by split; auto.
  - case_decide; [|done]. intros [= <- _]. split; [done|].
    intros [?|?]; [done|]. by destruct f1.
  - case_decide as Hf1.
    { intros [= <- _]. split; [done|]. intros [?|Hz]; [done|].
      destruct f1, f2; simpl in *; destruct Hz; congruence. }
    case_decide as Hu.
    + destruct f1 as [cp ? ? ?|cp ? ? ?], f2; simpl in *; intros [= <- _];
        (split; [intros ?|intros [?|?]]); try done; try tauto;
        right; (split; [by destruct cp|done]).
    + intros HY.
      assert (c = RED) as ->.
      { destruct f2; simpl in HY;
          match type of HY with
          | context [ins_fix ?k ?l ?a ?d ?r] => destruct (ins_fix k l a d r) as [[? ?]|]
          end; simpl in HY; congruence. }
      split; [done|]. intros [?|Hz]; [done|].
      destruct f1, f2; simpl in *; destruct Hz; congruence.
Qed.

(** A store that holds the nodes of the tree and nothing else. *)
Lemma Rep_check st t :
  root st = rootp t → repr (heap st) None t → NoDup (addrs t) →
  base.size (heap st) = length (addrs t) →
  Rep ∅ (size st) (freed st) st t.
Proof.
  intros Hroot Hrepr Hnd Hsize. unfold Rep. split_and!; try done.
  intros x Hx. rewrite lookup_empty.
  assert (list_to_set (addrs t) ⊆ dom (heap st)) as Hsub.
  { intros y Hy. apply elem_of_list_to_set in Hy. apply elem_of_dom.
    by eapply repr_lookup_some. }
  apply (set_subseteq_size_eq (C := gset addr)) in Hsub.
  - apply not_elem_of_dom. rewrite <-Hsub. by rewrite elem_of_list_to_set.
  - rewrite size_dom, Hsize, size_list_to_set by done. lia.
Qed.

Lemma insertNode_loop_failure a : ∀ fuel cur par side st st',
  insertNode_loop compFunc fuel (Some a) cur par side st = Some (FAILURE, st') →
  st' = set_heap (delete a (heap st)) st.
Proof.
  induction fuel as [|fuel IH]; intros cur par side st st' H.
  - destruct cur; [done|]. simpl in H.
    destruct (connectNode (Some a) par side st); simplify_eq/=.
  - destruct cur as [x|].
    + cbn [insertNode_loop] in H.
      destruct (load (Some a) st) as [nn|]; [|done].
      destruct (load (Some x) st) as [cur|]; [|done].
      cbn [mbind option_bind] in H. repeat case_decide; eauto.
      unfold release in H. simpl in H.
      destruct (heap st !! a); simplify_eq/=. done.
    + simpl in H. destruct (connectNode (Some a) par side st); simplify_eq/=.
Qed.

Lemma insert_failure_same st d a st' :
  heap st !! a = None →
  insertToRBTree compFunc (Some st) (Some d) (Some a) = Some (FAILURE, Some st') →
  st' = st.
Proof.
  intros Ha H. cbn [insertToRBTree] in H.
  set (st1 := set_heap _ st) in H.
  destruct (root st1) as [rt|] eqn:Hroot; [|done].
  unfold insertNode in H. rewrite Hroot in H.
  destruct (insertNode_loop compFunc (fuel_of st1) (Some a) (Some rt) None 0 st1)
    as [[r st2]|] eqn:Hloop; [|done].
  cbn [mbind option_bind] in H. case_decide as Hr.
  - injection H as <-. rewrite Hr in Hloop.
    apply insertNode_loop_failure in Hloop. subst st2 st1.
    destruct st as [rt' sz h fl]. simpl in *. by rewrite delete_insert_id.
  - destruct (updateColors (fuel_of st2) (Some a) st2) as [[c st3]|]; [|done].
    cbn [mbind option_bind] in H.
    destruct (store (Some a) (set_color c) st3); simplify_eq/=.
Qed.

Lemma forEachRBTree_spec {Args} (func : option A → Args → Z * Args) F z fr st t args :
  Rep F z fr st t →
  forEachRBTree func (Some st) args = Some (visit func (Some <$> inorder t) args).
Proof.
  intros HR. cbn [forEachRBTree].
  assert (root st = rootp t) as -> by (by destruct HR as (-> & _)).
  destruct t as [|c l a d r]; [done|].
  cbn [rootp]. change (Some a) with (rootp (T c l a d r)).
  apply (forEachNode_spec func F z fr st _ []); [done|]. by eapply fuel_of_count.
Qed.

Lemma RBTreeContains_spec F z fr st t d :
  Rep F z fr st t →
  RBTreeContains compFunc (Some st) d
  = Some (if (descend compFunc d [] t).2 is E then 0 else 1).
Proof.
  intros HR. cbn [RBTreeContains]. unfold findNode.
  assert (root st = rootp t) as -> by (by destruct HR as (-> & _)).
  rewrite (findNode_loop_spec compFunc F z fr st d t [] (fuel_of st) HR).
  2:{ by eapply fuel_of_count. }
  cbn [mbind option_bind]. by destruct (descend compFunc d [] t).2.
Qed.

Lemma far_nephew_left F z fr st k cp p dp sl xs ds srl xr dr srr t fuel parentP childP :
  Rep F z fr st (plug (FL cp p dp (T BLACK sl xs ds (T RED srl xr dr srr)) :: k) t) →
  tcolor sl = BLACK →
  parent_ref_ok parentP (Some p) t → child_ref_ok childP t →
  ∃ st', solveDB (S fuel) parentP childP LEFT st = Some st'
         ∧ Rep F z fr st'
             (plug k (T cp (T BLACK t p dp sl) xs ds (T BLACK srl xr dr srr))).
Proof.
  intros HR Hsl Hpar Hchild.
  apply (solveDB_spec F z fr (S fuel) (FL cp p dp _ :: k) t st _
           parentP childP HR); [|done|done].
  cbn [del_fix frame_sibling]. rewrite decide_False by done.
  unfold black_sibling. cbn [frame_sibling tcolor].
  rewrite decide_False by (by intros [_ ?]).
  by destruct sl as [|[] ? ? ? ?].
Qed.

Lemma far_nephew_right F z fr st k cp p dp sll xl dl slr xs ds sr t fuel parentP childP :
  Rep F z fr st (plug (FR cp (T BLACK (T RED sll xl dl slr) xs ds sr) p dp :: k) t) →
  tcolor sr = BLACK →
  parent_ref_ok parentP (Some p) t → child_ref_ok childP t →
  ∃ st', solveDB (S fuel) parentP childP RIGHT st = Some st'
         ∧ Rep F z fr st'
             (plug k (T cp (T BLACK sll xl dl slr) xs ds (T BLACK sr p dp t))).
Proof.
  intros HR Hsr Hpar Hchild.
  apply (solveDB_spec F z fr (S fuel) (FR cp _ p dp :: k) t st _
           parentP childP HR); [|done|done].
  cbn [del_fix frame_sibling]. rewrite decide_False by done.
  unfold black_sibling. cbn [frame_sibling tcolor].
  rewrite decide_False by (by intros [? _]).
  by destruct sr as [|[] ? ? ? ?].
Qed.

Lemma close_nephew_left F z fr st k cp p dp sll xl dl slr xs ds sr t fuel parentP childP :
  Rep F z fr st (plug (FL cp p dp (T BLACK (T RED sll xl dl slr) xs ds sr) :: k) t) →
  parent_ref_ok parentP (Some p) t → child_ref_ok childP t →
  ∃ st', solveDB (S fuel) parentP childP LEFT st = Some st'
         ∧ Rep F z fr st'
             (plug k (T cp (T BLACK t p dp sll) xl dl (T BLACK slr xs ds sr))).
Proof.
  intros HR Hpar Hchild.
  apply (solveDB_spec F z fr (S fuel) (FL cp p dp _ :: k) t st _
           parentP childP HR); [|done|done].
  cbn [del_fix frame_sibling]. rewrite decide_False by done.
  unfold black_sibling. cbn [frame_sibling tcolor].
  by rewrite decide_False by (by intros [? _]).
Qed.

Lemma close_nephew_right F z fr st k cp p dp sl xs ds srl xr dr srr t fuel parentP childP :
  Rep F z fr st (plug (FR cp (T BLACK sl xs ds (T RED srl xr dr srr)) p dp :: k) t) →
  tcolor srr = BLACK →
  parent_ref_ok parentP (Some p) t → child_ref_ok childP t →
  ∃ st', solveDB (S fuel) parentP childP RIGHT st = Some st'
         ∧ Rep F z fr st'
             (plug k (T cp (T BLACK sl xs ds srl) xr dr (T BLACK srr p dp t))).
Proof.
  intros HR Hsrr Hpar Hchild.
  apply (solveDB_spec F z fr (S fuel) (FR cp _ p dp :: k) t st _
           parentP childP HR); [|done|done].
  cbn [del_fix frame_sibling]. rewrite decide_False by done.
  unfold black_sibling. cbn [frame_sibling tcolor].
  rewrite decide_False by (by intros [_ ?]).
  by destruct srr as [|[] ? ? ? ?].
Qed.

(** deleteFromRBTree reports failure only when findNode has found no
    node, and then the state is as it was. *)
Lemma delete_failure_not_found st d o :
  deleteFromRBTree compFunc (Some st) d = Some (FAILURE, o) →
  findNode compFunc (fuel_of st) st d = Some None ∧ o = Some st.
Proof.
  cbn [deleteFromRBTree]. intros Hdel.
  destruct (findNode compFunc (fuel_of st) st d) as [[x|]|]; [| |done].
  - exfalso. cbn [mbind option_bind placeBeforeDeletion] in Hdel.
    destruct (getSingleChild (Some x) st) as [[y|]|]; cbn [mbind option_bind] in Hdel;
      [| |done].
    + destruct (switchNodes (Some x) (Some y) st) as [st1|];
        cbn [mbind option_bind] in Hdel; [|done].
      rewrite decide_False in Hdel by done.
      repeat match type of Hdel with
             | context [mbind _ ?m] =>
                 destruct m; cbn [mbind option_bind] in Hdel; [|done]
             end.
      by injection Hdel.
    + destruct (load (Some x) st) as [n|]; cbn [mbind option_bind] in Hdel; [|done].
      case_decide.
      * destruct (findSuccessor (fuel_of st) (Some x) st) as [suc|];
          cbn [mbind option_bind] in Hdel; [|done].
        destruct (switchNodes (Some x) suc st) as [st1|];
          cbn [mbind option_bind] in Hdel; [|done].
        rewrite decide_False in Hdel by done.
        repeat match type of Hdel with
               | context [mbind _ ?m] =>
                   destruct m; cbn [mbind option_bind] in Hdel; [|done]
               end.
        by injection Hdel.
      * cbn [mbind option_bind] in Hdel. rewrite decide_False in Hdel by done.
        repeat match type of Hdel with
               | context [mbind _ ?m] =>
                   destruct m; cbn [mbind option_bind] in Hdel; [|done]
               end.
        by injection Hdel.
  - cbn [mbind option_bind placeBeforeDeletion] in Hdel.
    rewrite decide_True in Hdel by done. by injection Hdel as <-.
Qed.

(** findNode stops at the root when the comparator answers EQUAL there. *)
Lemma findNode_root st d x n :
  root st = Some x → heap st !! x = Some n → compFunc d (data n) = EQUAL →
  findNode compFunc (fuel_of st) st d = Some (Some x).
Proof.
  intros Hroot Hx Heq. unfold findNode, fuel_of. rewrite Hroot.
  replace (base.size (heap st) + 2)%nat with (S (base.size (heap st) + 1)) by lia.
  cbn [findNode_loop]. unfold load. cbn [mbind option_bind]. rewrite Hx.
  cbn [mbind option_bind]. by rewrite decide_True.
Qed.

End Claims.

Lemma cmpZ_comparator : comparator cmpZ.
Proof.
  split; unfold cmpZ; simpl.
  - intros x y. rewrite <-Z.sgn_opp. f_equal. lia.
  - intros x y z. lia.
Qed.

(** ** Runs of inserts and deletes *)

Section RoundTrip.
Context {A : Type}.
Variable compFunc : option A → option A → Z.
Hypothesis Hcmp : comparator compFunc.
Implicit Types (t l r : tree A) (k : path A) (h : gmap addr (@Node A)).
Implicit Types (F : gmap addr (@Node A)) (st : @state A).

Lemma inorder_nil t : inorder t = [] → t = E.
Proof.
  destruct t as [|c l a d r]; [done|]. simpl. intros H.
  apply (f_equal length) in H. rewrite length_app in H. simpl in H. lia.
Qed.

Lemma insert_all_valid : ∀ (ps : list (A * addr)) st t fr,
  Rep ∅ (Z.of_nat (count t)) fr st t → red_black t → sorted compFunc (inorder t) →
  NoDup ps.*2 → (∀ a, a ∈ ps.*2 → a ∉ addrs t) →
  distinct compFunc ps.*1 →
  (∀ x y, x ∈ ps.*1 → y ∈ inorder t → compFunc (Some x) (Some y) ≠ EQUAL) →
  ∃ st' t', insert_all compFunc st ps = Some st'
            ∧ Rep ∅ (Z.of_nat (count t')) fr st' t' ∧ red_black t'
            ∧ sorted compFunc (inorder t')
            ∧ inorder t' ≡ₚ ps.*1 ++ inorder t.
Proof.
  induction ps as [|[d a] ps IH]; intros st t fr HR Hrb Hs Hnd Hfresh Hdist Hne.
  { exists st, t. by split_and!. }
  simpl in Hnd, Hfresh, Hdist, Hne. apply NoDup_cons in Hnd as [Ha Hnd].
  destruct Hdist as [Hd Hdist].
  assert (heap st !! a = None) as Hnone.
  { destruct HR as (_ & _ & _ & _ & _ & Hout & _).
    rewrite Hout; [done|]. apply Hfresh. by left. }
  cbn [insert_all]. rewrite decide_True by done.
  pose proof (insert_valid compFunc ∅ fr st t a d Hcmp HR Hrb Hs Hnone) as Hins.
  pose proof (descend_none compFunc (Some d) t []) as Hnone'.
  destruct (descend compFunc (Some d) [] t) as [k n]. cbn [snd] in Hnone'.
  rewrite Hnone' in Hins by (intros y Hy; apply Hne; [by left|done]).
  destruct Hins as (st1 & c & Y & _ & -> & HR1 & HY & HsY & HinY & Hint & HaY & _).
  rewrite decide_False by done.
  destruct (IH st1 Y fr HR1 HY HsY Hnd) as (st' & t' & -> & HR' & Hrb' & Hs' & Hin').
  - intros x Hx. rewrite HaY. apply not_elem_of_cons. split.
    + by intros ->.
    + apply Hfresh. by right.
  - done.
  - intros x y Hx Hy. rewrite HinY in Hy.
    apply elem_of_app in Hy as [Hy|[->|Hy]%elem_of_cons].
    + apply Hne; [by right|]. rewrite Hint. apply elem_of_app. by left.
    + eapply Forall_forall in Hd; [|exact Hx]. simpl in Hd.
      pose proof (cmp_flip compFunc Hcmp x d). unfold EQUAL in *. lia.
    + apply Hne; [by right|]. rewrite Hint. apply elem_of_app. by right.
  - exists st', t'. split_and!; try done.
    rewrite Hin', HinY, Hint. cbn [fmap list_fmap fst].
    by rewrite <-!Permutation_middle.
Qed.

Lemma delete_all_valid : ∀ (ds : list A) st t fr rest,
  Rep ∅ (Z.of_nat (count t)) fr st t → red_black t → sorted compFunc (inorder t) →
  inorder t ≡ₚ ds ++ rest →
  ∃ st' t', delete_all compFunc st ds = Some st'
            ∧ Rep ∅ (Z.of_nat (count t')) (fr ++ (Some <$> ds)) st' t'
            ∧ red_black t' ∧ sorted compFunc (inorder t')
            ∧ inorder t' ≡ₚ rest.
Proof.
  induction ds as [|d ds IH]; intros st t fr rest HR Hrb Hs Hperm.
  { exists st, t. rewrite app_nil_r. by split_and!. }
  assert (d ∈ inorder t) as Hd by (rewrite Hperm; by left).
  destruct (descend_finds compFunc Hcmp d t Hs) as (k & c & l & a & x & r & Hdesc).
  { exists d. split; [done|]. by apply cmp_refl. }
  assert (x = d) as ->.
  { symmetry. eapply (sorted_unique compFunc Hcmp (inorder t)); try done.
    - by eapply descend_in.
    - by eapply descend_found. }
  destruct (delete_valid compFunc _ _ _ _ _ _ _ _ _ _ _ HR Hrb Hs Hdesc)
    as (st1 & Y & Hdel & HR1 & HY & HsY & Hint & HinY).
  cbn [delete_all]. rewrite Hdel. rewrite decide_False by done.
  destruct (IH st1 Y (fr ++ [Some d]) rest HR1 HY HsY) as (st' & t' & -> & HR' & ?).
  - apply (Permutation_cons_inv (a:=d)).
    rewrite <-Hperm, Hint, HinY.
    by rewrite <-!Permutation_middle.
  - exists st', t'. split; [done|]. simpl.
    by rewrite <-app_assoc in HR'.
Qed.

End RoundTrip.

(** ** Facts on the small trees *)

Lemma insert_all_reachable {A} (compFunc : option A → option A → Z) :
  ∀ ps st st', reachable compFunc st → insert_all compFunc st ps = Some st' →
    reachable compFunc st'.
Proof.
  induction ps as [|[d a] ps IH]; intros st st' Hst H; cbn [insert_all] in H.
  - by injection H as <-.
  - case_decide as Ha; [|done].
    destruct (insertToRBTree compFunc (Some st) (Some d) (Some a))
      as [[r [st1|]]|] eqn:Hins; try done.
    case_decide; [done|]. apply (IH st1); [|done].
    eapply reach_insert; [exact Hst| |exact Hins]. by intros ? [= <-].
Qed.

Ltac check_rep :=
  apply Rep_check;
  [ vm_compute; reflexivity
  | repeat split; vm_compute; reflexivity
  | apply (bool_decide_unpack _); vm_compute; exact I
  | vm_compute; reflexivity ].

Lemma two_Rep : Rep ∅ 2 [] two_state two_tree.
Proof. change (Rep ∅ (size two_state) (freed two_state) two_state two_tree). check_rep. Qed.

Lemma three_Rep : Rep ∅ 3 [] three_state three_tree.
Proof.
  change (Rep ∅ (size three_state) (freed three_state) three_state three_tree).
  check_rep.
Qed.

Lemma five_Rep : Rep ∅ 5 [] five_state five_tree.
Proof.
  change (Rep ∅ (size five_state) (freed five_state) five_state five_tree).
  check_rep.
Qed.

Lemma left_short_Rep : Rep ∅ 3 [] left_short_state left_short_tree.
Proof.
  change (Rep ∅ (size left_short_state) (freed left_short_state)
            left_short_state left_short_tree).
  check_rep.
Qed.

Lemma right_short_Rep : Rep ∅ 3 [] right_short_state right_short_tree.
Proof.
  change (Rep ∅ (size right_short_state) (freed right_short_state)
            right_short_state right_short_tree).
  check_rep.
Qed.

Lemma three_reachable : reachable cmpZ three_state.
Proof.
  apply (insert_all_reachable cmpZ three_keys newRBTree); [apply reach_new|].
  vm_compute. reflexivity.
Qed.

Lemma two_reachable : reachable cmpZ two_state.
Proof.
  apply (insert_all_reachable cmpZ two_keys newRBTree); [apply reach_new|].
  vm_compute. reflexivity.
Qed.

Lemma zero_reachable : reachable cmpZ zero_state.
Proof.
  apply (insert_all_reachable cmpZ [(0, 1%positive)] newRBTree); [apply reach_new|].
  vm_compute. reflexivity.
Qed.

Lemma red_nephews_Rep : Rep ∅ 5 [] red_nephews_state red_nephews_tree.
Proof.
  change (Rep ∅ (size red_nephews_state) (freed red_nephews_state)
            red_nephews_state red_nephews_tree).
  check_rep.
Qed.

Lemma red_nephews_right_Rep :
  Rep ∅ 5 [] red_nephews_right_state red_nephews_right_tree.
Proof.
  change (Rep ∅ (size red_nephews_right_state) (freed red_nephews_right_state)
            red_nephews_right_state red_nephews_right_tree).
  check_rep.
Qed.

Lemma zigzag_Rep : Rep ∅ 2 [] zigzag_state zigzag_tree.
Proof.
  change (Rep ∅ (size zigzag_state) (freed zigzag_state) zigzag_state zigzag_tree).
  check_rep.
Qed.

Lemma red_uncle_Rep : Rep ∅ 3 [] red_uncle_state red_uncle_tree.
Proof.
  change (Rep ∅ (size red_uncle_state) (freed red_uncle_state)
            red_uncle_state red_uncle_tree).
  check_rep.
Qed.

Lemma five_reachable : reachable cmpZ five_state.
Proof.
  apply (insert_all_reachable cmpZ five_keys newRBTree); [apply reach_new|].
  vm_compute. reflexivity.
Qed.

Lemma four_reachable : reachable cmpZ four_state.
Proof.
  apply (reach_delete cmpZ five_state (Some 10) SUCCESS four_state five_reachable).
  vm_compute. reflexivity.
Qed.

(** ** The claims *)

(** C1: every call of insert and delete on a state reached from the empty
    tree returns, and every state so reached holds a tree whose root, if
    present, is BLACK, in which no RED node has a RED child, in which all
    paths from a node down to an absent position count the same number of
    BLACK nodes, and whose payloads in sequence are strictly ordered by
    the comparator. *)
Theorem reachable_red_black {A} (compFunc : option A → option A → Z) st :
  comparator compFunc → reachable compFunc st →
  rb_search_tree compFunc st
  ∧ (∀ d p, (∀ a, p = Some a → heap st !! a = None) →
       ∃ (r : Z) st',
         insertToRBTree compFunc (Some st) d p = Some (r, Some st')
         ∧ rb_search_tree compFunc st')
  ∧ (∀ d, ∃ (r : Z) st',
       deleteFromRBTree compFunc (Some st) d = Some (r, Some st')
       ∧ rb_search_tree compFunc st').
Proof.
  intros Hcmp Hreach.
  pose proof (reachable_Inv compFunc st Hcmp Hreach) as HInv.
  split_and!.
  - by apply Inv_rb_search_tree.
  - intros d p Hfresh.
    destruct (insert_returns compFunc st d p Hcmp HInv Hfresh)
      as (r & st' & Hins & HInv' & _).
    exists r, st'. split; [done|]. by apply Inv_rb_search_tree.
  - intros d.
    destruct (delete_returns compFunc st d HInv) as (r & st' & Hdel & HInv' & _).
    exists r, st'. split; [done|]. by apply Inv_rb_search_tree.
Qed.

Lemma reachable_red_black_witness :
  rb_search_tree cmpZ four_state
  ∧ (∀ d p, (∀ a, p = Some a → heap four_state !! a = None) →
       ∃ (r : Z) st',
         insertToRBTree cmpZ (Some four_state) d p = Some (r, Some st')
         ∧ rb_search_tree cmpZ st')
  ∧ (∀ d, ∃ (r : Z) st',
       deleteFromRBTree cmpZ (Some four_state) d = Some (r, Some st')
       ∧ rb_search_tree cmpZ st').
Proof.
  exact (reachable_red_black cmpZ four_state cmpZ_comparator four_reachable).
Defined.

(** C2, as stated, fails: 20 inserted into the tree of 10 and 30 succeeds
    and its node ends up BLACK, although the tree was not empty. *)
Lemma insert_new_node_not_red :
  ¬ (∀ (st st' : @state Z) (d : Z) (a : addr),
       reachable cmpZ st → heap st !! a = None →
       insertToRBTree cmpZ (Some st) (Some d) (Some a) = Some (SUCCESS, Some st') →
       color <$> heap st' !! a = Some (if root st is None then BLACK else RED)).
Proof.
  intros H.
  assert (heap two_state !! 3%positive = None) as Hfresh
    by (vm_compute; reflexivity).
  assert (insertToRBTree cmpZ (Some two_state) (Some 20) (Some 3%positive)
          = Some (SUCCESS, Some three_state)) as Hins
    by (vm_compute; reflexivity).
  specialize (H two_state three_state 20 3%positive two_reachable Hfresh Hins).
  vm_compute in H. discriminate H.
Qed.

(** C2, amended: a payload that compares equal to none of the tree is
    placed where the binary-search descent ends (comparator result < 0
    goes left, > 0 goes right), insert returns success and the count grows
    by one; the new node ends up BLACK when it is the first node of an
    empty tree or an inner grandchild under a RED parent with the uncle
    absent or BLACK (the two rotations then lift it above its parent and
    grandparent), and RED otherwise. *)
Theorem insert_places_node {A} (compFunc : option A → option A → Z) F fr st t a d :
  comparator compFunc →
  Rep F (Z.of_nat (count t)) fr st t → red_black t → sorted compFunc (inorder t) →
  heap st !! a = None →
  (∀ y, y ∈ inorder t → compFunc (Some d) (Some y) ≠ EQUAL) →
  ∃ st' t' k c,
    descend compFunc (Some d) [] t = (k, E)
    ∧ insertToRBTree compFunc (Some st) (Some d) (Some a) = Some (SUCCESS, Some st')
    ∧ Rep F (Z.of_nat (count t) + 1) fr st' t'
    ∧ size st' = size st + 1
    ∧ inorder t = pleft k ++ pright k
    ∧ inorder t' = pleft k ++ d :: pright k
    ∧ color <$> heap st' !! a = Some c
    ∧ (c = BLACK ↔ k = [] ∨ zigzag k).
Proof.
  intros Hcmp HR Hrb Hs Ha Hne.
  pose proof (insert_valid compFunc F fr st t a d Hcmp HR Hrb Hs Ha) as Hins.
  pose proof (descend_none compFunc (Some d) t [] Hne) as Hnone.
  destruct (descend compFunc (Some d) [] t) as [k n]. cbn [snd] in Hnone. subst n.
  destruct Hins as (st' & c & Y & Hfix & Hins & HR' & _ & _ & HinY & Hint & _ & Hcol).
  exists st', Y, k, c.
  assert (Z.of_nat (count Y) = Z.of_nat (count t) + 1) as Hcount.
  { rewrite <-!length_inorder, HinY, Hint, !length_app. simpl. lia. }
  rewrite Hcount in HR'. split_and!; try done.
  - destruct HR' as (_ & -> & _). by destruct HR as (_ & -> & _).
  - by eapply ins_fix_color.
Qed.

Lemma insert_places_node_witness :
  ∃ st' t' k c,
    descend cmpZ (Some 20) [] two_tree = (k, E)
    ∧ insertToRBTree cmpZ (Some two_state) (Some 20) (Some 3%positive)
      = Some (SUCCESS, Some st')
    ∧ Rep ∅ (Z.of_nat (count two_tree) + 1) [] st' t'
    ∧ size st' = size two_state + 1
    ∧ inorder two_tree = pleft k ++ pright k
    ∧ inorder t' = pleft k ++ 20 :: pright k
    ∧ color <$> heap st' !! 3%positive = Some c
    ∧ (c = BLACK ↔ k = [] ∨ zigzag k).
Proof.
  apply (insert_places_node cmpZ ∅ [] two_state two_tree 3%positive 20
           cmpZ_comparator two_Rep).
  - repeat split; intros; discriminate.
  - repeat constructor; vm_compute; reflexivity.
  - vm_compute. reflexivity.
  - intros y Hy. vm_compute in Hy.
    apply elem_of_cons in Hy as [->|Hy]; [by vm_compute|].
    apply elem_of_cons in Hy as [->|Hy]; [by vm_compute|].
    by apply elem_of_nil in Hy.
Defined.

(** C3: a payload that compares equal to a payload of the tree is refused:
    insert returns failure and the state, size and structure included, is
    as before. *)
Theorem insert_duplicate_refused {A} (compFunc : option A → option A → Z)
    F z fr st t d p :
  comparator compFunc →
  Rep F z fr st t → sorted compFunc (inorder t) →
  (∀ a, p = Some a → heap st !! a = None) →
  (∃ y, y ∈ inorder t ∧ compFunc (Some d) (Some y) = EQUAL) →
  insertToRBTree compFunc (Some st) (Some d) p = Some (FAILURE, Some st).
Proof.
  intros Hcmp HR Hs Hfresh Hdup. destruct p as [a|]; [|done].
  pose proof (insert_spec compFunc F z fr st t a d HR (Hfresh a eq_refl)) as Hins.
  destruct (descend_finds compFunc Hcmp d t Hs Hdup) as (k & c & l & x & y & r & Hd).
  by rewrite Hd in Hins.
Qed.

Lemma insert_duplicate_refused_witness :
  insertToRBTree cmpZ (Some three_state) (Some 30) (Some 4%positive)
  = Some (FAILURE, Some three_state).
Proof.
  apply (insert_duplicate_refused cmpZ ∅ 3 [] three_state three_tree 30
           (Some 4%positive) cmpZ_comparator three_Rep).
  - repeat constructor; vm_compute; reflexivity.
  - intros a [= <-]. vm_compute. reflexivity.
  - exists 30. split; [|vm_compute; reflexivity].
    vm_compute. do 2 right. by left.
Defined.

(** C4: delete of a payload that compares equal to no payload of the tree
    returns failure and leaves the state as it is (structure, count and
    destructor log); so does delete on a NULL tree. *)
Theorem delete_absent_refused {A} (compFunc : option A → option A → Z) d :
  deleteFromRBTree compFunc None d = Some (FAILURE, None)
  ∧ ∀ F z fr st t,
      Rep F z fr st t →
      (∀ y, y ∈ inorder t → compFunc d (Some y) ≠ EQUAL) →
      deleteFromRBTree compFunc (Some st) d = Some (FAILURE, Some st).
Proof.
  split; [done|]. intros F z fr st t HR Hne.
  apply (delete_absent compFunc F z fr st t d HR).
  by apply descend_none.
Qed.

Lemma delete_absent_refused_witness :
  deleteFromRBTree cmpZ (Some three_state) (Some 15) = Some (FAILURE, Some three_state).
Proof.
  apply (proj2 (delete_absent_refused cmpZ (Some 15)) ∅ 3 [] three_state three_tree
           three_Rep).
  intros y Hy. vm_compute in Hy.
  apply elem_of_cons in Hy as [->|Hy]; [by vm_compute|].
  apply elem_of_cons in Hy as [->|Hy]; [by vm_compute|].
  apply elem_of_cons in Hy as [->|Hy]; [by vm_compute|].
  by apply elem_of_nil in Hy.
Defined.

(** C5: insert refuses a NULL payload, but delete and contains do not
    test the payload: they hand NULL to the comparator, first at the
    root.  When the comparator answers EQUAL there, contains reports the
    NULL payload present and delete does not return failure. *)
Theorem null_payload_reaches_comparator {A} (compFunc : option A → option A → Z)
    (st : @state A) p x n :
  root st = Some x → heap st !! x = Some n → compFunc None (data n) = EQUAL →
  insertToRBTree compFunc (Some st) None p = Some (FAILURE, Some st)
  ∧ RBTreeContains compFunc (Some st) None = Some 1
  ∧ ∀ o, deleteFromRBTree compFunc (Some st) None ≠ Some (FAILURE, o).
Proof.
  intros Hroot Hx Heq.
  pose proof (findNode_root compFunc st None x n Hroot Hx Heq) as Hfind.
  split_and!.
  - done.
  - cbn [RBTreeContains]. rewrite Hfind. cbn [mbind option_bind].
    by rewrite decide_True.
  - intros o Hdel. apply delete_failure_not_found in Hdel as [Hnone _].
    rewrite Hfind in Hnone. discriminate Hnone.
Qed.

Lemma null_payload_reaches_comparator_witness :
  (insertToRBTree cmpZ (Some zero_state) None (Some 2%positive)
   = Some (FAILURE, Some zero_state)
   ∧ RBTreeContains cmpZ (Some zero_state) None = Some 1
   ∧ ∀ o, deleteFromRBTree cmpZ (Some zero_state) None ≠ Some (FAILURE, o))
  ∧ ∃ st', deleteFromRBTree cmpZ (Some zero_state) None = Some (SUCCESS, Some st')
           ∧ root st' = None ∧ size st' = 0 ∧ freed st' = [Some 0].
Proof.
  split.
  - apply (null_payload_reaches_comparator cmpZ zero_state (Some 2%positive)
             1%positive (mkNode None None None BLACK (Some 0)));
      vm_compute; reflexivity.
  - eexists. split_and!; vm_compute; reflexivity.
Defined.

(** C6: forEach runs the callback on the payloads in in-order sequence,
    ends with failure at the first call that reports failure, leaving the
    remaining payloads unvisited, and reports success when the tree is
    empty or every call succeeds: it computes what [visit] does on the
    in-order sequence of the payloads. *)
Theorem forEach_in_order {A Args} (func : option A → Args → Z * Args)
    F z fr (st : @state A) t args :
  Rep F z fr st t →
  forEachRBTree func (Some st) args = Some (visit func (Some <$> inorder t) args).
Proof. apply forEachRBTree_spec. Qed.

Lemma forEach_in_order_witness :
  forEachRBTree (record_until 20) (Some three_state) []
  = Some (visit (record_until 20) (Some <$> inorder three_tree) []).
Proof.
  exact (forEach_in_order (record_until 20) ∅ 3 [] three_state three_tree []
           three_Rep).
Defined.

(** C7, as stated, fails: in the tree 20 (10, 30 (25, 35)) with 25 and 35
    RED, deleting 10 leaves the left position under 20 short of a BLACK
    node, the sibling 30 is BLACK and the far nephew 35 is RED; afterwards
    35 is still RED and the node above 20 is the close nephew 25, not the
    sibling 30. *)
Lemma both_nephews_red :
  color <$> heap five_state !! 3%positive = Some BLACK
  ∧ color <$> heap five_state !! 5%positive = Some RED
  ∧ ∃ st', deleteFromRBTree cmpZ (Some five_state) (Some 10) = Some (SUCCESS, Some st')
           ∧ color <$> heap st' !! 5%positive = Some RED
           ∧ parent <$> heap st' !! 1%positive = Some (Some 4%positive)
           ∧ data <$> heap st' !! 4%positive = Some (Some 25).
Proof.
  split; [vm_compute; reflexivity|]. split; [vm_compute; reflexivity|].
  eexists. split_and!; vm_compute; reflexivity.
Qed.

(** C7, amended: when the sibling of the deficient position is BLACK,
    the far nephew is RED and the close nephew is absent or BLACK, the
    resolution gives the sibling the parent's color and the parent the
    sibling's, recolors the far nephew BLACK, rotates the sibling above
    the parent and ends there, for a deficiency on the left and on the
    right.  When the close nephew is RED, whatever the far nephew, it is
    the close nephew that is rotated above the sibling and then above the
    parent: it takes the parent's color, parent and sibling end BLACK
    below it and the far nephew keeps its color; on the right this holds
    with the close nephew's right child absent or BLACK.  [parentP] and
    [childP] are the references solveDB is called with, locals of the
    caller or link fields of nodes. *)
Theorem far_nephew_red {A} F z fr (st : @state A) k cp p dp xs ds t fuel
    parentP childP :
  parent_ref_ok parentP (Some p) t → child_ref_ok childP t →
  (∀ sl srl xr dr srr,
     Rep F z fr st
       (plug (FL cp p dp (T BLACK sl xs ds (T RED srl xr dr srr)) :: k) t) →
     tcolor sl = BLACK →
     ∃ st', solveDB (S fuel) parentP childP LEFT st = Some st'
            ∧ Rep F z fr st'
                (plug k (T cp (T BLACK t p dp sl) xs ds (T BLACK srl xr dr srr))))
  ∧ (∀ sll xl dl slr sr,
       Rep F z fr st
         (plug (FR cp (T BLACK (T RED sll xl dl slr) xs ds sr) p dp :: k) t) →
       tcolor sr = BLACK →
       ∃ st', solveDB (S fuel) parentP childP RIGHT st = Some st'
              ∧ Rep F z fr st'
                  (plug k (T cp (T BLACK sll xl dl slr) xs ds (T BLACK sr p dp t))))
  ∧ (∀ sll xl dl slr sr,
       Rep F z fr st
         (plug (FL cp p dp (T BLACK (T RED sll xl dl slr) xs ds sr) :: k) t) →
       ∃ st', solveDB (S fuel) parentP childP LEFT st = Some st'
              ∧ Rep F z fr st'
                  (plug k (T cp (T BLACK t p dp sll) xl dl (T BLACK slr xs ds sr))))
  ∧ (∀ sl srl xr dr srr,
       Rep F z fr st
         (plug (FR cp (T BLACK sl xs ds (T RED srl xr dr srr)) p dp :: k) t) →
       tcolor srr = BLACK →
       ∃ st', solveDB (S fuel) parentP childP RIGHT st = Some st'
              ∧ Rep F z fr st'
                  (plug k (T cp (T BLACK sl xs ds srl) xr dr (T BLACK srr p dp t)))).
Proof.
  intros Hpar Hchild. split_and!; intros.
  - by apply far_nephew_left.
  - by apply far_nephew_right.
  - by apply close_nephew_left.
  - by apply close_nephew_right.
Qed.

Lemma far_nephew_red_witness :
  (∃ st', solveDB 1 (RefVar (Some 1%positive)) (RefVar None) LEFT left_short_state
          = Some st'
          ∧ Rep ∅ 3 [] st'
              (T BLACK (T BLACK E 1%positive 20 E) 3%positive 30
                 (T BLACK E 5%positive 35 E)))
  ∧ (∃ st', solveDB 1 (RefVar (Some 1%positive)) (RefVar None) RIGHT right_short_state
            = Some st'
            ∧ Rep ∅ 3 [] st'
                (T BLACK (T BLACK E 5%positive 5 E) 3%positive 10
                   (T BLACK E 1%positive 20 E)))
  ∧ (∃ st', solveDB 1 (RefVar (Some 1%positive)) (RefVar None) LEFT red_nephews_state
            = Some st'
            ∧ Rep ∅ 5 [] st'
                (T BLACK (T BLACK E 1%positive 20 E) 4%positive 25
                   (T BLACK E 3%positive 30 (T RED E 5%positive 35 E))))
  ∧ (∃ st', solveDB 1 (RefVar (Some 1%positive)) (RefVar None) RIGHT
              red_nephews_right_state = Some st'
            ∧ Rep ∅ 5 [] st'
                (T BLACK (T BLACK (T RED E 5%positive 5 E) 3%positive 10 E)
                   4%positive 15 (T BLACK E 1%positive 20 E))).
Proof.
  split_and!.
  - apply (proj1 (far_nephew_red ∅ 3 [] left_short_state [] BLACK 1%positive 20
                    3%positive 30 E 0 (RefVar (Some 1%positive)) (RefVar None)
                    (or_introl eq_refl) (or_introl eq_refl))
             E E 5%positive 35 E left_short_Rep).
    reflexivity.
  - apply (proj1 (proj2 (far_nephew_red ∅ 3 [] right_short_state [] BLACK 1%positive 20
                           3%positive 10 E 0 (RefVar (Some 1%positive)) (RefVar None)
                           (or_introl eq_refl) (or_introl eq_refl)))
             E 5%positive 5 E E right_short_Rep).
    reflexivity.
  - exact (proj1 (proj2 (proj2 (far_nephew_red ∅ 5 [] red_nephews_state [] BLACK
                                  1%positive 20 3%positive 30 E 0
                                  (RefVar (Some 1%positive)) (RefVar None)
                                  (or_introl eq_refl) (or_introl eq_refl))))
             E 4%positive 25 E (T RED E 5%positive 35 E) red_nephews_Rep).
  - apply (proj2 (proj2 (proj2 (far_nephew_red ∅ 5 [] red_nephews_right_state []
                                  BLACK 1%positive 20 3%positive 10 E 0
                                  (RefVar (Some 1%positive)) (RefVar None)
                                  (or_introl eq_refl) (or_introl eq_refl))))
             (T RED E 5%positive 5 E) E 4%positive 15 E red_nephews_right_Rep).
    reflexivity.
Defined.

(** C8: payloads no two of which compare equal, inserted into the empty
    tree in any order and then all deleted in any order, leave the tree
    empty (root absent, count 0, no node allocated), and the destructor has
    run once on each payload, in the order of the deletions. *)
Theorem insert_delete_round_trip {A} (compFunc : option A → option A → Z)
    (ps : list (A * addr)) (ds : list A) :
  comparator compFunc →
  NoDup ps.*2 → distinct compFunc ps.*1 → ds ≡ₚ ps.*1 →
  ∃ st1 st2,
    insert_all compFunc newRBTree ps = Some st1
    ∧ delete_all compFunc st1 ds = Some st2
    ∧ size st1 = Z.of_nat (length ps)
    ∧ root st2 = None ∧ size st2 = 0 ∧ heap st2 = ∅
    ∧ freed st2 = Some <$> ds.
Proof.
  intros Hcmp Hnd Hdist Hperm.
  destruct (insert_all_valid compFunc Hcmp ps newRBTree E [] Rep_new)
    as (st1 & t1 & Hins & HR1 & Hrb1 & Hs1 & Hin1); try done.
  { intros a _. apply not_elem_of_nil. }
  { intros x y _ Hy. by apply elem_of_nil in Hy. }
  simpl in Hin1. rewrite app_nil_r in Hin1.
  destruct (delete_all_valid compFunc Hcmp ds st1 t1 [] [] HR1 Hrb1 Hs1)
    as (st2 & t2 & Hdel & HR2 & _ & _ & Hin2).
  { by rewrite app_nil_r, Hin1, Hperm. }
  apply Permutation_nil_r in Hin2. apply inorder_nil in Hin2. subst t2.
  exists st1, st2. split_and!; try done.
  - destruct HR1 as (_ & -> & _). rewrite <-length_inorder, Hin1.
    by rewrite length_fmap.
  - by destruct HR2 as (-> & _).
  - by destruct HR2 as (_ & -> & _).
  - by eapply Rep_empty_heap.
  - by destruct HR2 as (_ & _ & -> & _).
Qed.

Lemma insert_delete_round_trip_witness :
  ∃ st1 st2,
    insert_all cmpZ newRBTree three_keys = Some st1
    ∧ delete_all cmpZ st1 [20; 10; 30] = Some st2
    ∧ size st1 = Z.of_nat (length three_keys)
    ∧ root st2 = None ∧ size st2 = 0 ∧ heap st2 = ∅
    ∧ freed st2 = Some <$> [20; 10; 30].
Proof.
  apply (insert_delete_round_trip cmpZ three_keys [20; 10; 30] cmpZ_comparator).
  - apply (bool_decide_unpack _). vm_compute. exact I.
  - repeat constructor; vm_compute; discriminate.
  - simpl. etrans; [apply perm_swap|]. apply perm_skip, perm_swap.
Defined.

(** C9: rotate on a node and its left child, or its right child, keeps the
    sequence of the payloads, and the child takes the position the parent
    had: same path to the root, the parent's former parent pointer, and
    the root pointer when the parent was the root. *)
Theorem rotate_keeps_order {A} F z fr (st : @state A) k cp cc a c dc b p dp r :
  (Rep F z fr st (plug k (T cp (T cc a c dc b) p dp r)) →
   ∃ st', rotate (Some c) (Some p) st = Some st'
          ∧ Rep F z fr st' (plug k (T cc a c dc (T cp b p dp r)))
          ∧ inorder (plug k (T cc a c dc (T cp b p dp r)))
            = inorder (plug k (T cp (T cc a c dc b) p dp r))
          ∧ parent <$> heap st' !! c = Some (hole_parent k)
          ∧ (k = [] → root st' = Some c))
  ∧ (Rep F z fr st (plug k (T cp r p dp (T cc b c dc a))) →
     ∃ st', rotate (Some c) (Some p) st = Some st'
            ∧ Rep F z fr st' (plug k (T cc (T cp r p dp b) c dc a))
            ∧ inorder (plug k (T cc (T cp r p dp b) c dc a))
              = inorder (plug k (T cp r p dp (T cc b c dc a)))
            ∧ parent <$> heap st' !! c = Some (hole_parent k)
            ∧ (k = [] → root st' = Some c)).
Proof.
  split; intros HR.
  - destruct (rotate_left_spec _ _ _ _ _ _ _ _ _ _ _ _ _ _ HR) as (st' & Hrot & HR').
    exists st'. split_and!; try done.
    + apply inorder_plug_eq. simpl. by rewrite <-app_assoc.
    + by rewrite (Rep_lookup _ _ _ _ _ _ _ _ _ _ HR').
    + intros ->. by destruct HR' as (-> & _).
  - destruct (rotate_right_spec _ _ _ _ _ _ _ _ _ _ _ _ _ _ HR) as (st' & Hrot & HR').
    exists st'. split_and!; try done.
    + apply inorder_plug_eq. simpl. by rewrite <-app_assoc.
    + by rewrite (Rep_lookup _ _ _ _ _ _ _ _ _ _ HR').
    + intros ->. by destruct HR' as (-> & _).
Qed.

Lemma rotate_keeps_order_witness :
  (∃ st', rotate (Some 1%positive) (Some 3%positive) three_state = Some st'
          ∧ Rep ∅ 3 [] st'
              (T RED E 1%positive 10
                 (T BLACK E 3%positive 20 (T RED E 2%positive 30 E)))
          ∧ inorder (T RED E 1%positive 10
                       (T BLACK E 3%positive 20 (T RED E 2%positive 30 E)))
            = inorder three_tree
          ∧ parent <$> heap st' !! 1%positive = Some None
          ∧ (@nil (frame Z) = [] → root st' = Some 1%positive))
  ∧ (∃ st', rotate (Some 2%positive) (Some 3%positive) three_state = Some st'
            ∧ Rep ∅ 3 [] st'
                (T RED (T BLACK (T RED E 1%positive 10 E) 3%positive 20 E)
                   2%positive 30 E)
            ∧ inorder (T RED (T BLACK (T RED E 1%positive 10 E) 3%positive 20 E)
                         2%positive 30 E)
              = inorder three_tree
            ∧ parent <$> heap st' !! 2%positive = Some None
            ∧ (@nil (frame Z) = [] → root st' = Some 2%positive)).
Proof.
  split.
  - exact (proj1 (rotate_keeps_order ∅ 3 [] three_state [] BLACK RED E 1%positive 10
                    E 3%positive 20 (T RED E 2%positive 30 E)) three_Rep).
  - exact (proj2 (rotate_keeps_order ∅ 3 [] three_state [] BLACK RED E 2%positive 30
                    E 3%positive 20 (T RED E 1%positive 10 E)) three_Rep).
Defined.

(** C10: an insert of a non-NULL payload that fails once its node is
    allocated (the descent met a payload that compares equal) leaves the
    destructor log as it was, so the payload stays the caller's; the node
    is released and the state is as before the call. *)
Theorem duplicate_keeps_payload {A} (compFunc : option A → option A → Z)
    (st st' : @state A) d a :
  heap st !! a = None →
  insertToRBTree compFunc (Some st) (Some d) (Some a) = Some (FAILURE, Some st') →
  freed st' = freed st ∧ heap st' !! a = None ∧ st' = st.
Proof.
  intros Ha Hins. apply insert_failure_same in Hins; [|done]. by subst.
Qed.

Lemma duplicate_keeps_payload_witness :
  freed three_state = freed three_state
  ∧ heap three_state !! 4%positive = None ∧ three_state = three_state.
Proof.
  apply (duplicate_keeps_payload cmpZ three_state three_state 30 4%positive).
  - vm_compute. reflexivity.
  - vm_compute. reflexivity.
Defined.

(** ** Further properties of the interface *)

Section Interface.
Context {A : Type}.
Variable compFunc : option A → option A → Z.
Implicit Types (t l r : tree A) (k : path A) (h : gmap addr (@Node A)).
Implicit Types (F : gmap addr (@Node A)) (st : @state A).

Lemma cmp_eq_trans x y z :
  comparator compFunc →
  compFunc (Some x) (Some y) = 0 → compFunc (Some y) (Some z) = 0 →
  compFunc (Some x) (Some z) = 0.
Proof.
  intros Hcmp Hxy Hyz.
  pose proof (comp_trans _ Hcmp x y z ltac:(lia) ltac:(lia)).
  pose proof (cmp_flip compFunc Hcmp x y). pose proof (cmp_flip compFunc Hcmp y z).
  pose proof (comp_trans _ Hcmp z y x ltac:(lia) ltac:(lia)).
  pose proof (cmp_flip compFunc Hcmp x z). lia.
Qed.

Lemma heap_size_count st t z fr :
  Rep ∅ z fr st t → base.size (heap st) = count t.
Proof.
  intros (_ & _ & _ & Hrepr & Hnd & Hout & _).
  rewrite <-length_addrs, <-(size_list_to_set (C := gset addr) (addrs t)) by done.
  rewrite <-size_dom. f_equal. apply set_eq. intros x.
  rewrite elem_of_dom, elem_of_list_to_set. split.
  - intros Hx. destruct (decide (x ∈ addrs t)) as [|Hn]; [done|].
    rewrite (Hout x Hn), lookup_empty in Hx. by destruct Hx.
  - by eapply repr_lookup_some.
Qed.

(** With no root, contains reports the payload absent, delete fails and
    leaves the state alone, and forEach succeeds without a call of the
    callback. *)
Theorem empty_tree_operations {Args} (func : option A → Args → Z * Args)
    st d args :
  root st = None →
  RBTreeContains compFunc (Some st) d = Some 0
  ∧ deleteFromRBTree compFunc (Some st) d = Some (FAILURE, Some st)
  ∧ forEachRBTree func (Some st) args = Some (SUCCESS, args).
Proof.
  intros Hroot. unfold RBTreeContains, deleteFromRBTree, forEachRBTree, findNode.
  rewrite Hroot. unfold fuel_of. by replace (base.size (heap st) + 2)%nat
    with (S (base.size (heap st) + 1)) by lia.
Qed.

Lemma contains_decides F z fr st t x :
  comparator compFunc → Rep F z fr st t → sorted compFunc (inorder t) →
  (RBTreeContains compFunc (Some st) (Some x) = Some 1
   ↔ ∃ y, y ∈ inorder t ∧ compFunc (Some x) (Some y) = EQUAL)
  ∧ (RBTreeContains compFunc (Some st) (Some x) = Some 1
     ∨ RBTreeContains compFunc (Some st) (Some x) = Some 0).
Proof.
  intros Hcmp HR Hs. rewrite (RBTreeContains_spec compFunc F z fr st t _ HR).
  destruct (descend compFunc (Some x) [] t) as [k n] eqn:Hd. cbn [snd].
  destruct n as [|c l a y r].
  - split; [|by right]. split; [done|]. intros Hex.
    destruct (descend_finds compFunc Hcmp x t Hs Hex) as (? & ? & ? & ? & ? & ? & ?).
    congruence.
  - split; [|by left]. split; [|done]. intros _. exists y. split.
    + by eapply descend_in.
    + by eapply descend_found.
Qed.

(** contains answers 1 exactly when a payload of the tree compares equal
    to the one asked for, and 0 otherwise. *)
Theorem contains_correct F z fr st t x :
  comparator compFunc → Rep F z fr st t → sorted compFunc (inorder t) →
  (RBTreeContains compFunc (Some st) (Some x) = Some 1
   ↔ ∃ y, y ∈ inorder t ∧ compFunc (Some x) (Some y) = EQUAL)
  ∧ (RBTreeContains compFunc (Some st) (Some x) = Some 1
     ∨ RBTreeContains compFunc (Some st) (Some x) = Some 0).
Proof. apply contains_decides. Qed.

Lemma delete_removes F fr st t d k c l a x r :
  Rep F (Z.of_nat (count t)) fr st t → red_black t → sorted compFunc (inorder t) →
  descend compFunc d [] t = (k, T c l a x r) →
  ∃ st' t' before after,
    deleteFromRBTree compFunc (Some st) d = Some (SUCCESS, Some st')
    ∧ Rep F (Z.of_nat (count t) - 1) (fr ++ [Some x]) st' t'
    ∧ compFunc d (Some x) = EQUAL
    ∧ inorder t = before ++ x :: after ∧ inorder t' = before ++ after
    ∧ red_black t' ∧ sorted compFunc (inorder t').
Proof.
  intros HR Hrb Hs Hd.
  destruct (delete_valid compFunc _ _ _ _ _ _ _ _ _ _ _ HR Hrb Hs Hd)
    as (st' & Y & Hdel & HR' & HY & HsY & Hint & HinY).
  exists st', Y, (pleft k ++ inorder l), (inorder r ++ pright k).
  rewrite <-!app_assoc. split_and!; try done.
  - replace (Z.of_nat (count t) - 1) with (Z.of_nat (count Y)); [done|].
    rewrite <-!length_inorder, HinY, Hint.
    repeat (rewrite ?length_app; simpl). lia.
  - by eapply descend_found.
Qed.

(** A successful delete removes from the sequence of payloads the one
    payload the descent found equal, hands that stored payload to the
    destructor, lowers the count by one and leaves a red-black search
    tree. *)
Theorem delete_removes_payload F fr st t d k c l a x r :
  Rep F (Z.of_nat (count t)) fr st t → red_black t → sorted compFunc (inorder t) →
  descend compFunc d [] t = (k, T c l a x r) →
  ∃ st' t' before after,
    deleteFromRBTree compFunc (Some st) d = Some (SUCCESS, Some st')
    ∧ Rep F (Z.of_nat (count t) - 1) (fr ++ [Some x]) st' t'
    ∧ compFunc d (Some x) = EQUAL
    ∧ inorder t = before ++ x :: after ∧ inorder t' = before ++ after
    ∧ red_black t' ∧ sorted compFunc (inorder t').
Proof. apply delete_removes. Qed.

(** After a successful insert, contains finds the payload. *)
Theorem contains_after_insert F fr st t d a st' :
  comparator compFunc →
  Rep F (Z.of_nat (count t)) fr st t → red_black t → sorted compFunc (inorder t) →
  heap st !! a = None →
  insertToRBTree compFunc (Some st) (Some d) (Some a) = Some (SUCCESS, Some st') →
  RBTreeContains compFunc (Some st') (Some d) = Some 1.
Proof.
  intros Hcmp HR Hrb Hs Ha Hins.
  pose proof (insert_valid compFunc F fr st t a d Hcmp HR Hrb Hs Ha) as H.
  destruct (descend compFunc (Some d) [] t) as [k [|? ? ? ? ?]].
  - destruct H as (st1 & c & Y & _ & Hins1 & HR1 & _ & HsY & HinY & _).
    rewrite Hins1 in Hins. injection Hins as <-.
    apply (contains_decides F _ fr st1 Y d Hcmp HR1 HsY).
    exists d. split; [|by apply cmp_refl].
    rewrite HinY. apply elem_of_app. right. by left.
  - rewrite H in Hins. discriminate Hins.
Qed.

(** After a successful delete, contains no longer finds the payload. *)
Theorem contains_after_delete F fr st t d st' :
  comparator compFunc →
  Rep F (Z.of_nat (count t)) fr st t → red_black t → sorted compFunc (inorder t) →
  deleteFromRBTree compFunc (Some st) (Some d) = Some (SUCCESS, Some st') →
  RBTreeContains compFunc (Some st') (Some d) = Some 0.
Proof.
  intros Hcmp HR Hrb Hs Hdel.
  destruct (descend compFunc (Some d) [] t) as [k [|c l a x r]] eqn:Hd.
  { rewrite (delete_absent compFunc F _ fr st t (Some d) HR) in Hdel
      by (by rewrite Hd). discriminate Hdel. }
  destruct (delete_removes F fr st t (Some d) k c l a x r HR Hrb Hs Hd)
    as (st1 & Y & xs1 & xs2 & Hdel1 & HR1 & Hdx & Hint & HinY & _ & HsY).
  rewrite Hdel1 in Hdel. injection Hdel as <-.
  destruct (contains_decides F _ _ st1 Y d Hcmp HR1 HsY) as [Hiff [H1|H0]]; [|done].
  exfalso. apply Hiff in H1 as (y & Hy & Hdy).
  assert (compFunc (Some x) (Some y) = 0) as Hxy.
  { apply (cmp_eq_trans x d y Hcmp); [|done].
    pose proof (cmp_flip compFunc Hcmp d x). unfold EQUAL in *. lia. }
  rewrite Hint in Hs. apply sorted_app in Hs as (_ & (Hx2 & _) & H12).
  rewrite HinY in Hy. apply elem_of_app in Hy as [Hy|Hy].
  - specialize (H12 y x Hy ltac:(by left)).
    pose proof (cmp_flip compFunc Hcmp x y). lia.
  - eapply Forall_forall in Hx2; [|exact Hy]. simpl in Hx2. lia.
Qed.

(** In every state a client can reach, the count field is the number of
    allocated nodes, and every further call of insert or delete returns
    with the two still equal: both one higher after a successful insert,
    one lower after a successful delete, unchanged after a failure. *)
Theorem size_counts_nodes st :
  comparator compFunc → reachable compFunc st →
  size st = Z.of_nat (base.size (heap st))
  ∧ (∀ d p, (∀ a, p = Some a → heap st !! a = None) →
       ∃ (r : Z) st',
         insertToRBTree compFunc (Some st) d p = Some (r, Some st')
         ∧ size st' = Z.of_nat (base.size (heap st'))
         ∧ size st' = size st + (if decide (r = FAILURE) then 0 else 1))
  ∧ (∀ d, ∃ (r : Z) st',
       deleteFromRBTree compFunc (Some st) d = Some (r, Some st')
       ∧ size st' = Z.of_nat (base.size (heap st'))
       ∧ size st' = size st - (if decide (r = FAILURE) then 0 else 1)).
Proof.
  intros Hcmp Hreach.
  pose proof (reachable_Inv compFunc st Hcmp Hreach) as HInv.
  assert (∀ s, Inv compFunc s → size s = Z.of_nat (base.size (heap s))) as Hsize.
  { intros s (t & HR & _). rewrite (heap_size_count _ _ _ _ HR).
    by destruct HR as (_ & -> & _). }
  split_and!.
  - by apply Hsize.
  - intros d p Hfresh.
    destruct (insert_returns compFunc st d p Hcmp HInv Hfresh)
      as (r & st' & Hins & HInv' & Hr).
    exists r, st'. split_and!; [done|by apply Hsize|].
    destruct Hr as [[-> ->]|[-> ->]]; [rewrite decide_True by done|
                                        rewrite decide_False by done]; lia.
  - intros d.
    destruct (delete_returns compFunc st d HInv) as (r & st' & Hdel & HInv' & Hr).
    exists r, st'. split_and!; [done|by apply Hsize|].
    destruct Hr as [[-> ->]|[-> ->]]; [rewrite decide_True by done|
                                        rewrite decide_False by done]; lia.
Qed.

(** An insert that reports failure, for whatever reason (NULL payload,
    failed allocation, a payload comparing equal), leaves the state as it
    was. *)
Theorem insert_failure_atomic st d p st' :
  (∀ a, p = Some a → heap st !! a = None) →
  insertToRBTree compFunc (Some st) d p = Some (FAILURE, Some st') →
  st' = st.
Proof.
  intros Hfresh Hins. destruct d as [d|]; [|by injection Hins as <-].
  destruct p as [a|]; [|by injection Hins as <-].
  apply (insert_failure_same compFunc st d a st' (Hfresh a eq_refl) Hins).
Qed.

(** A delete that reports failure leaves the state as it was. *)
Theorem delete_failure_atomic st d st' :
  deleteFromRBTree compFunc (Some st) d = Some (FAILURE, Some st') → st' = st.
Proof.
  cbn [deleteFromRBTree]. intros H.
  destruct (findNode compFunc (fuel_of st) st d) as [[x|]|]; [| |done].
  - exfalso. cbn [mbind option_bind placeBeforeDeletion] in H.
    destruct (getSingleChild (Some x) st) as [[y|]|]; cbn [mbind option_bind] in H;
      [| |done].
    + destruct (switchNodes (Some x) (Some y) st) as [st1|];
        cbn [mbind option_bind] in H; [|done].
      rewrite decide_False in H by done.
      repeat match type of H with
             | context [mbind _ ?m] =>
                 destruct m; cbn [mbind option_bind] in H; [|done]
             end.
      by injection H.
    + destruct (load (Some x) st) as [n|]; cbn [mbind option_bind] in H; [|done].
      case_decide.
      * destruct (findSuccessor (fuel_of st) (Some x) st) as [suc|];
          cbn [mbind option_bind] in H; [|done].
        destruct (switchNodes (Some x) suc st) as [st1|];
          cbn [mbind option_bind] in H; [|done].
        rewrite decide_False in H by done.
        repeat match type of H with
               | context [mbind _ ?m] =>
                   destruct m; cbn [mbind option_bind] in H; [|done]
               end.
        by injection H.
      * cbn [mbind option_bind] in H. rewrite decide_False in H by done.
        repeat match type of H with
               | context [mbind _ ?m] =>
                   destruct m; cbn [mbind option_bind] in H; [|done]
               end.
        by injection H.
  - cbn [mbind option_bind placeBeforeDeletion] in H.
    rewrite decide_True in H by done. by injection H as <-.
Qed.

End Interface.

(** ** Properties of the helpers *)

Section Helpers.
Context {A : Type}.
Variable compFunc : option A → option A → Z.
Implicit Types (t l r : tree A) (k : path A) (h : gmap addr (@Node A)).
Implicit Types (F : gmap addr (@Node A)) (st : @state A).

(** getSide tells where a node hangs: 0 for the root (and for NULL), LEFT
    under its parent's left link, RIGHT under the right link. *)
Theorem getSide_position F z fr st k c l a d r :
  Rep F z fr st (plug k (T c l a d r)) →
  getSide None st = Some FAILURE
  ∧ getSide (Some a) st
    = Some match k with
           | [] => FAILURE
           | FL _ _ _ _ :: _ => LEFT
           | FR _ _ _ _ :: _ => RIGHT
           end.
Proof.
  intros HR. split; [done|]. rewrite (getSide_spec _ _ _ _ _ _ _ _ _ _ HR).
  by destruct k as [|[] ?].
Qed.

(** getSingleChild returns the child of a node that has exactly one, and
    NULL for a node with no child or with two. *)
Theorem getSingleChild_cases F z fr st k c l a d r :
  Rep F z fr st (plug k (T c l a d r)) →
  getSingleChild (Some a) st
  = Some match l, r with
         | E, T _ _ x _ _ => Some x
         | T _ _ x _ _, E => Some x
         | _, _ => None
         end.
Proof.
  intros HR. rewrite (getSingleChild_spec _ _ _ _ _ _ _ _ _ _ HR).
  by destruct l, r.
Qed.

(** findSuccessor returns the node that holds the payload next in sequence
    after the node's own, when the node has a right subtree, and NULL
    when it has none. *)
Theorem findSuccessor_next F z fr st k c l a d r fuel :
  Rep F z fr st (plug k (T c l a d r)) → (count r < fuel)%nat →
  ∃ p, findSuccessor fuel (Some a) st = Some p
       ∧ (r = E → p = None)
       ∧ (r ≠ E → ∃ x n, p = Some x ∧ heap st !! x = Some n
                         ∧ data n = head (inorder r) ∧ left n = None).
Proof.
  intros HR Hfuel. unfold findSuccessor.
  rewrite (Rep_load _ _ _ _ _ _ _ _ _ _ HR). cbn [mbind option_bind right].
  change (Rep F z fr st (plug (FR c l a d :: k) r)) in HR.
  rewrite (findSuccessor_loop_spec _ _ _ _ r (FR c l a d :: k) fuel HR Hfuel).
  eexists. split; [reflexivity|].
  destruct (leftmost_spec r (FR c l a d :: k)) as (kk & n & Heq & Hfl & Hplug & Hn).
  rewrite Heq. cbn [snd]. split.
  - intros ->. simpl in Heq. by injection Heq as _ <-.
  - intros Hr. destruct (Hn Hr) as (cs & x & ds & sr & ->).
    pose proof (leftmost_plug (FR c l a d :: k) r) as Hlp.
    rewrite Heq in Hlp. cbn [fst snd] in Hlp. rewrite <-Hlp in HR.
    eexists x, _. split; [done|]. split; [exact (Rep_lookup _ _ _ _ _ _ _ _ _ _ HR)|].
    cbn [data left rootp]. split; [|done].
    rewrite <-Hplug, inorder_plug, (pleft_FL _ Hfl). done.
Qed.

(** switchNodes on a node with two children and the first node of its
    right subtree in sequence: the two trade places, and each takes the
    color that was at its new place. *)
Theorem switchNodes_successor F z fr st k kk ch hl a dh cl x dl xr :
  Forall is_FL kk →
  Rep F z fr st (plug (kk ++ FR ch hl a dh :: k) (T cl E x dl xr)) →
  ∃ st', switchNodes (Some a) (Some x) st = Some st'
         ∧ Rep F z fr st' (plug (kk ++ FR ch hl x dl :: k) (T cl E a dh xr)).
Proof. apply switch_succ_spec. Qed.

(** connectNode hangs a fresh node at an empty position of the tree. *)
Theorem connectNode_attach F z fr st k a d :
  Rep F z fr st (plug k E) →
  F !! a = Some (mkNode None None None BLACK (Some d)) →
  ∃ st', connectNode (Some a) (hole_parent k) (hole_side k) st = Some st'
         ∧ Rep (delete a F) z fr st' (plug k (T BLACK E a d E)).
Proof. apply attach_spec. Qed.

(** connectNode with the only child of a node, or NULL, takes the node out
    of the tree: the child hangs where the node was. *)
Theorem connectNode_detach F z fr st k c t a d :
  (Rep F z fr st (plug k (T c t a d E)) →
   ∃ st' n, connectNode (rootp t) (hole_parent k) (hole_side k) st = Some st'
            ∧ Rep (<[a := n]> F) z fr st' (plug k t) ∧ data n = Some d)
  ∧ (Rep F z fr st (plug k (T c E a d t)) →
     ∃ st' n, connectNode (rootp t) (hole_parent k) (hole_side k) st = Some st'
              ∧ Rep (<[a := n]> F) z fr st' (plug k t) ∧ data n = Some d).
Proof.
  split; intros HR.
  - destruct (detach_left_spec _ _ _ _ _ _ _ _ _ HR) as (st' & ? & ?).
    by eexists _, _.
  - destruct (detach_right_spec _ _ _ _ _ _ _ _ _ HR) as (st' & ? & ?).
    by eexists _, _.
Qed.

(** A rotation is undone by the rotation of the former parent above the
    former child: the state is again what it was. *)
Theorem rotate_back F z fr st k cp cc a c dc b p dp r :
  (Rep F z fr st (plug k (T cp (T cc a c dc b) p dp r)) →
   ∃ st', rotate (Some c) (Some p) st = Some st'
          ∧ rotate (Some p) (Some c) st' = Some st)
  ∧ (Rep F z fr st (plug k (T cp r p dp (T cc b c dc a))) →
     ∃ st', rotate (Some c) (Some p) st = Some st'
            ∧ rotate (Some p) (Some c) st' = Some st).
Proof.
  split; intros HR.
  - destruct (rotate_left_spec _ _ _ _ _ _ _ _ _ _ _ _ _ _ HR) as (st1 & Hr1 & HR1).
    destruct (rotate_right_spec _ _ _ _ _ _ _ _ _ _ _ _ _ _ HR1) as (st2 & Hr2 & HR2).
    exists st1. split; [done|]. by rewrite Hr2, (Rep_inj _ _ _ _ _ _ HR2 HR).
  - destruct (rotate_right_spec _ _ _ _ _ _ _ _ _ _ _ _ _ _ HR) as (st1 & Hr1 & HR1).
    destruct (rotate_left_spec _ _ _ _ _ _ _ _ _ _ _ _ _ _ HR1) as (st2 & Hr2 & HR2).
    exists st1. split; [done|]. by rewrite Hr2, (Rep_inj _ _ _ _ _ _ HR2 HR).
Qed.

(** updateColors on a RED node with BLACK (or absent) children, in a tree
    that keeps the red-black rules everywhere else: it returns a color,
    and with that color on the node the tree is red-black, its payloads in
    the same sequence. *)
Theorem updateColors_restores F z fr st k c0 l a d r fuel :
  Rep F z fr st (plug k (T c0 l a d r)) → (length k < fuel)%nat →
  path_rb k (bh l) → bh l = bh r → balanced l → balanced r →
  no_red_red l → no_red_red r → tcolor l = BLACK → tcolor r = BLACK →
  ∃ c st' t',
    updateColors fuel (Some a) st = Some (c, st')
    ∧ Rep F z fr st' t'
    ∧ red_black (paint a c t')
    ∧ inorder t' = inorder (plug k (T c0 l a d r)).
Proof.
  intros HR Hfuel Hk Hbh Hbl Hbr Hnl Hnr Hcl Hcr.
  destruct (ins_fix_rb k l a d r Hk Hbh Hbl Hbr Hnl Hnr Hcl Hcr) as (c & Y & Hfix & HY).
  destruct (updateColors_spec F z fr (length k) k c0 l a d r st fuel c Y)
    as (st' & t' & Hup & HR' & Hpaint); [lia|done..|].
  exists c, st', t'. split_and!; try done.
  - by rewrite Hpaint.
  - rewrite <-(inorder_paint a c t'), Hpaint.
    destruct (ins_fix_seq _ _ _ _ _ _ _ Hfix) as (_ & -> & _).
    by apply inorder_plug_eq.
Qed.

(** solveDB at a position that lacks one BLACK node, in a tree that keeps
    the red-black rules everywhere else: the result is a red-black tree
    with the payloads in the same sequence. *)
Theorem solveDB_restores F z fr st k t n fuel :
  Rep F z fr st (plug k t) → (length k + 2 ≤ fuel)%nat →
  path_rb k (S n) → bh t = n → balanced t → no_red_red t → tcolor t = BLACK →
  ∃ st' t',
    solveDB fuel (RefVar (hole_parent k)) (RefVar (rootp t)) (hole_side k) st = Some st'
    ∧ Rep F z fr st' t' ∧ red_black t'
    ∧ inorder t' = inorder (plug k t).
Proof.
  intros HR Hfuel Hk Hbh Hbal Hnrr Hc.
  destruct (del_fix_rb fuel k t n Hk Hbh Hbal Hnrr Hc) as (Y & HY & Hrb); [by left|].
  destruct (solveDB_spec F z fr fuel k t st Y (RefVar (hole_parent k)) (RefVar (rootp t))
              HR HY) as (st' & Hsolve & HR'); [by left|by left|].
  exists st', Y. split_and!; try done. by eapply del_fix_seq.
Qed.

(** solveDB with a BLACK sibling whose children are absent or BLACK, under
    a RED parent: the sibling turns RED, the parent BLACK, and nothing
    else changes. *)
Theorem black_nephews_red_parent F z fr st k p dp sl xs ds sr t fuel :
  tcolor sl = BLACK → tcolor sr = BLACK →
  (Rep F z fr st (plug (FL RED p dp (T BLACK sl xs ds sr) :: k) t) →
   ∃ st', solveDB (S fuel) (RefVar (Some p)) (RefVar (rootp t)) LEFT st = Some st'
          ∧ Rep F z fr st' (plug (FL BLACK p dp (T RED sl xs ds sr) :: k) t))
  ∧ (Rep F z fr st (plug (FR RED (T BLACK sl xs ds sr) p dp :: k) t) →
     ∃ st', solveDB (S fuel) (RefVar (Some p)) (RefVar (rootp t)) RIGHT st = Some st'
            ∧ Rep F z fr st' (plug (FR BLACK (T RED sl xs ds sr) p dp :: k) t)).
Proof.
  intros Hsl Hsr. split; intros HR.
  - apply (solveDB_spec F z fr (S fuel) (FL RED p dp _ :: k) t st _
             (RefVar (Some p)) (RefVar (rootp t)) HR); [|by left|by left].
    cbn [del_fix frame_sibling]. rewrite decide_False by done.
    unfold black_sibling. cbn [frame_sibling frame_color].
    rewrite decide_True by done. by rewrite decide_True by done.
  - apply (solveDB_spec F z fr (S fuel) (FR RED _ p dp :: k) t st _
             (RefVar (Some p)) (RefVar (rootp t)) HR); [|by left|by left].
    cbn [del_fix frame_sibling]. rewrite decide_False by done.
    unfold black_sibling. cbn [frame_sibling frame_color].
    rewrite decide_True by done. by rewrite decide_True by done.
Qed.

(** solveDB with a BLACK sibling whose close nephew is RED: the close
    nephew is rotated above the sibling and then above the parent; it
    takes the parent's color, parent and sibling end up BLACK below it.
    On the right side the code needs the close nephew's right child not
    to be RED, as it is in a red-black tree. *)
Theorem close_nephew_red F z fr st k cp p dp xs ds t fuel :
  (∀ sll xl dl slr sr,
     Rep F z fr st
       (plug (FL cp p dp (T BLACK (T RED sll xl dl slr) xs ds sr) :: k) t) →
     ∃ st', solveDB (S fuel) (RefVar (Some p)) (RefVar (rootp t)) LEFT st = Some st'
            ∧ Rep F z fr st'
                (plug k (T cp (T BLACK t p dp sll) xl dl (T BLACK slr xs ds sr))))
  ∧ (∀ sl srl xr dr srr,
       Rep F z fr st
         (plug (FR cp (T BLACK sl xs ds (T RED srl xr dr srr)) p dp :: k) t) →
       tcolor srr = BLACK →
       ∃ st', solveDB (S fuel) (RefVar (Some p)) (RefVar (rootp t)) RIGHT st = Some st'
              ∧ Rep F z fr st'
                  (plug k (T cp (T BLACK sl xs ds srl) xr dr (T BLACK srr p dp t)))).
Proof.
  split.
  - intros sll xl dl slr sr HR.
    apply (solveDB_spec F z fr (S fuel) (FL cp p dp _ :: k) t st _
             (RefVar (Some p)) (RefVar (rootp t)) HR); [|by left|by left].
    cbn [del_fix frame_sibling]. rewrite decide_False by done.
    unfold black_sibling. cbn [frame_sibling tcolor].
    by rewrite decide_False by (by intros [? _]).
  - intros sl srl xr dr srr HR Hsrr.
    apply (solveDB_spec F z fr (S fuel) (FR cp _ p dp :: k) t st _
             (RefVar (Some p)) (RefVar (rootp t)) HR); [|by left|by left].
    cbn [del_fix frame_sibling]. rewrite decide_False by done.
    unfold black_sibling. cbn [frame_sibling tcolor].
    rewrite decide_False by (by intros [_ ?]).
    by destruct srr as [|[] ? ? ? ?].
Qed.

End Helpers.

(** ** Height, teardown and traversal *)

Section Shape.
Context {A : Type}.
Variable compFunc : option A → option A → Z.
Implicit Types (t l r : tree A) (k : path A) (h : gmap addr (@Node A)).
Implicit Types (F : gmap addr (@Node A)) (st : @state A).

Lemma height_bh t :
  no_red_red t → balanced t →
  (height t ≤ 2 * bh t + if tcolor t is RED then 1 else 0)%nat.
Proof.
  induction t as [|c l IHl a d r IHr]; [simpl; lia|].
  intros (Hc & Hnl & Hnr) (Hb & Hbl & Hbr).
  specialize (IHl Hnl Hbl). specialize (IHr Hnr Hbr). simpl.
  destruct c.
  - destruct (Hc eq_refl) as [Hl Hr]. rewrite Hl in IHl. rewrite Hr in IHr. lia.
  - destruct (tcolor l), (tcolor r); lia.
Qed.

Lemma count_bh t : balanced t → (2 ^ bh t ≤ count t + 1)%nat.
Proof.
  induction t as [|c l IHl a d r IHr]; [simpl; lia|].
  intros (Hb & Hbl & Hbr). specialize (IHl Hbl). specialize (IHr Hbr).
  simpl. rewrite <-Hb in IHr. destruct c.
  - rewrite Nat.add_0_r. lia.
  - rewrite Nat.add_1_r. simpl. lia.
Qed.

Lemma Inv_shallow st : Inv compFunc st → shallow st.
Proof.
  intros (t & HR & (Hc & Hn & Hb) & _).
  assert (size st = Z.of_nat (count t)) as Hsz by (by destruct HR as (_ & -> & _)).
  exists t. rewrite Hsz. split; [done|].
  pose proof (height_bh t Hn Hb) as Hh. rewrite Hc in Hh.
  pose proof (count_bh t Hb) as Hcount.
  transitivity (2 ^ Z.of_nat (2 * bh t)).
  - apply Z.pow_le_mono_r; lia.
  - replace (Z.of_nat (2 * bh t)) with (Z.of_nat (bh t) * 2) by lia.
    rewrite Z.pow_mul_r by lia.
    apply Z.pow_le_mono_l. split; [lia|].
    apply Nat2Z.inj_le in Hcount. rewrite Nat2Z.inj_pow in Hcount.
    simpl in Hcount. lia.
Qed.

(** In every reachable state the tree is shallow: two to the power of its
    height is at most the square of the count plus one, that is the
    height is at most twice the binary logarithm of count + 1; and every
    further call of insert or delete returns with a shallow tree. *)
Theorem reachable_height st :
  comparator compFunc → reachable compFunc st →
  shallow st
  ∧ (∀ d p, (∀ a, p = Some a → heap st !! a = None) →
       ∃ (r : Z) st',
         insertToRBTree compFunc (Some st) d p = Some (r, Some st') ∧ shallow st')
  ∧ (∀ d, ∃ (r : Z) st',
       deleteFromRBTree compFunc (Some st) d = Some (r, Some st') ∧ shallow st').
Proof.
  intros Hcmp Hreach.
  pose proof (reachable_Inv compFunc st Hcmp Hreach) as HInv.
  split_and!.
  - by apply Inv_shallow.
  - intros d p Hfresh.
    destruct (insert_returns compFunc st d p Hcmp HInv Hfresh)
      as (r & st' & Hins & HInv' & _).
    exists r, st'. split; [done|]. by apply Inv_shallow.
  - intros d.
    destruct (delete_returns compFunc st d HInv) as (r & st' & Hdel & HInv' & _).
    exists r, st'. split; [done|]. by apply Inv_shallow.
Qed.

Lemma freeNode_subtree : ∀ t par fuel st,
  repr (heap st) par t → NoDup (addrs t) → (count t < fuel)%nat →
  ∃ st', freeNode fuel (rootp t) st = Some st'
         ∧ root st' = root st ∧ size st' = size st
         ∧ freed st' = freed st ++ (Some <$> postorder t)
         ∧ ∀ x, heap st' !! x = if decide (x ∈ addrs t) then None else heap st !! x.
Proof.
  induction t as [|c l IHl a d r IHr]; intros par fuel st Hrepr Hnd Hfuel.
  - exists st. destruct fuel; simpl; rewrite ?app_nil_r; split_and!; try done.
  - destruct fuel as [|fuel]; [lia|]. simpl in Hfuel, Hrepr, Hnd.
    destruct Hrepr as (Ha & Hl & Hr).
    apply NoDup_app in Hnd as (Hndl & Hla & Hnd).
    apply NoDup_cons in Hnd as (Har & Hndr).
    cbn [rootp freeNode]. change (load (Some a) st) with (heap st !! a).
    rewrite Ha. cbn [mbind option_bind left].
    destruct (IHl (Some a) fuel st Hl Hndl ltac:(lia))
      as (st1 & -> & Hroot1 & Hsz1 & Hfr1 & Hh1).
    cbn [mbind option_bind]. change (load (Some a) st1) with (heap st1 !! a).
    assert (a ∉ addrs l) as Hal.
    { intros Hin. apply (Hla a Hin). by left. }
    rewrite Hh1, decide_False, Ha by done. cbn [mbind option_bind right].
    destruct (IHr (Some a) fuel st1) as (st2 & -> & Hroot2 & Hsz2 & Hfr2 & Hh2);
      [|done|lia|].
    { apply (repr_ext (heap st)); [|done]. intros x Hx.
      rewrite Hh1, decide_False; [done|]. intros Hin. apply (Hla x Hin). by right. }
    cbn [mbind option_bind]. change (load (Some a) st2) with (heap st2 !! a).
    rewrite Hh2, decide_False, Hh1, decide_False, Ha by done.
    cbn [mbind option_bind data]. unfold release. cbn [mbind option_bind log_free heap].
    rewrite Hh2, decide_False, Hh1, decide_False, Ha by done.
    cbn [mbind option_bind]. eexists. split; [reflexivity|].
    cbn [set_heap log_free root size freed heap]. split_and!; try congruence.
    + rewrite Hfr2, Hfr1. cbn [postorder]. by rewrite !fmap_app, <-!app_assoc.
    + intros x. destruct (decide (x = a)) as [->|Hxa].
      * rewrite lookup_delete_eq, decide_True; [done|].
        apply elem_of_app. right. by left.
      * rewrite lookup_delete_ne, Hh2, Hh1 by done.
        clear -Hxa. repeat case_decide; try done; exfalso; set_solver.
Qed.

(** freeRBTree releases every node of the tree and runs the destructor
    once on every payload, children before their parent; what the store
    held besides the tree stays, and the caller's variable is set to
    NULL. *)
Theorem freeRBTree_releases_all F z fr st t :
  Rep F z fr st t →
  freeRBTree (Some st) = Some (None, F, fr ++ (Some <$> postorder t)).
Proof.
  intros HR. pose proof (fuel_of_count _ _ _ _ _ HR) as Hfuel.
  destruct HR as (Hroot & _ & Hfr & Hrepr & Hnd & Hout & HF).
  destruct (freeNode_subtree t None (fuel_of st) st Hrepr Hnd Hfuel)
    as (st' & Hfree & _ & _ & Hfr' & Hh).
  cbn [freeRBTree]. rewrite Hroot, Hfree. cbn [mbind option_bind].
  rewrite Hfr', Hfr. do 2 f_equal. f_equal. apply map_eq. intros x.
  rewrite Hh. case_decide; [by rewrite HF|by apply Hout].
Qed.

(** forEach ends at the first payload on which the callback reports
    failure: it returns failure with the callback's context as that call
    left it, whatever payloads follow. *)
Theorem forEach_stops_at_failure {Args} (func : option A → Args → Z * Args)
    F z fr st t (before after : list A) x args :
  Rep F z fr st t → inorder t = before ++ x :: after →
  (visit func (Some <$> before) args).1 = SUCCESS →
  (func (Some x) (visit func (Some <$> before) args).2).1 = FAILURE →
  forEachRBTree func (Some st) args
  = Some (FAILURE, (func (Some x) (visit func (Some <$> before) args).2).2).
Proof.
  intros HR Hin Hpre Hx. rewrite (forEachRBTree_spec func F z fr st t args HR).
  rewrite Hin, fmap_app, visit_app. f_equal.
  destruct (visit func (Some <$> before) args) as [r1 args1]. simpl in *. subst r1.
  rewrite decide_False by done.
  destruct (func (Some x) args1) as [r2 args2]. simpl in *. subst r2.
  by rewrite decide_True.
Qed.

(** With a callback that never reports failure, forEach reports success
    and the context has gone through the calls on all payloads in
    sequence. *)
Theorem forEach_all_succeed {Args} (func : option A → Args → Z * Args)
    F z fr st t args :
  Rep F z fr st t → (∀ d a, (func d a).1 ≠ FAILURE) →
  forEachRBTree func (Some st) args
  = Some (SUCCESS, foldl (λ a d, (func (Some d) a).2) args (inorder t)).
Proof.
  intros HR Hok. rewrite (forEachRBTree_spec func F z fr st t args HR). f_equal.
  generalize (inorder t) as xs. intros xs. revert args.
  induction xs as [|x xs IH]; intros args; [done|].
  simpl. specialize (Hok (Some x) args).
  destruct (func (Some x) args) as [r args']. simpl in *.
  rewrite decide_False by done. apply IH.
Qed.

End Shape.

(** ** Sequences of payloads *)

Section Sequences.
Context {A : Type}.
Variable compFunc : option A → option A → Z.
Hypothesis Hcmp : comparator compFunc.
Implicit Types (t l r : tree A) (k : path A) (h : gmap addr (@Node A)).
Implicit Types (F : gmap addr (@Node A)) (st : @state A).

Lemma sorted_perm_eq (xs ys : list A) :
  sorted compFunc xs → sorted compFunc ys → xs ≡ₚ ys → xs = ys.
Proof.
  revert ys. induction xs as [|x xs IH]; intros ys Hxs Hys Hperm.
  - by apply Permutation_nil_l in Hperm.
  - destruct ys as [|y ys]; [by apply Permutation_nil_r in Hperm|].
    destruct Hxs as [Hx Hxs], Hys as [Hy Hys].
    assert (x = y) as ->.
    { assert (x ∈ y :: ys) as Hin by (rewrite <-Hperm; by left).
      assert (y ∈ x :: xs) as Hin' by (rewrite Hperm; by left).
      apply elem_of_cons in Hin as [?|Hin]; [done|].
      apply elem_of_cons in Hin' as [?|Hin']; [done|].
      eapply Forall_forall in Hx; [|exact Hin'].
      eapply Forall_forall in Hy; [|exact Hin]. simpl in *.
      pose proof (cmp_flip compFunc Hcmp x y). lia. }
    f_equal. apply IH; try done. by apply Permutation_cons_inv in Hperm.
Qed.

End Sequences.

Section Orders.
Context {A : Type}.
Variable compFunc : option A → option A → Z.
Implicit Types (t l r : tree A) (k : path A) (h : gmap addr (@Node A)).
Implicit Types (F : gmap addr (@Node A)) (st : @state A).

(** The sequence of payloads a run of insertions builds depends on the
    payloads only, not on the order in which they are inserted. *)
Theorem insertion_order_irrelevant (ps qs : list (A * addr)) :
  comparator compFunc →
  NoDup ps.*2 → NoDup qs.*2 →
  distinct compFunc ps.*1 → distinct compFunc qs.*1 → ps.*1 ≡ₚ qs.*1 →
  ∃ st1 st2 t1 t2,
    insert_all compFunc newRBTree ps = Some st1
    ∧ insert_all compFunc newRBTree qs = Some st2
    ∧ Rep ∅ (Z.of_nat (length ps)) [] st1 t1
    ∧ Rep ∅ (Z.of_nat (length ps)) [] st2 t2
    ∧ inorder t1 = inorder t2.
Proof.
  intros Hcmp Hp Hq Hdp Hdq Hperm.
  destruct (insert_all_valid compFunc Hcmp ps newRBTree E [] Rep_new)
    as (st1 & t1 & Hins1 & HR1 & _ & Hs1 & Hin1); try done.
  { intros a _. apply not_elem_of_nil. }
  { intros x y _ Hy. by apply elem_of_nil in Hy. }
  destruct (insert_all_valid compFunc Hcmp qs newRBTree E [] Rep_new)
    as (st2 & t2 & Hins2 & HR2 & _ & Hs2 & Hin2); try done.
  { intros a _. apply not_elem_of_nil. }
  { intros x y _ Hy. by apply elem_of_nil in Hy. }
  simpl in Hin1, Hin2. rewrite app_nil_r in Hin1, Hin2.
  exists st1, st2, t1, t2.
  assert (count t1 = length ps) as Hc1.
  { by rewrite <-length_inorder, Hin1, length_fmap. }
  assert (count t2 = length ps) as Hc2.
  { rewrite <-length_inorder, Hin2, <-Hperm. by rewrite length_fmap. }
  rewrite Hc1 in HR1. rewrite Hc2 in HR2. split_and!; try done.
  apply (sorted_perm_eq compFunc Hcmp); try done. by rewrite Hin1, Hin2.
Qed.

(** Inserting a payload and deleting it again gives back the sequence of
    payloads and the count; the payload has gone to the destructor. *)
Theorem insert_then_delete F fr st t a d :
  comparator compFunc →
  Rep F (Z.of_nat (count t)) fr st t → red_black t → sorted compFunc (inorder t) →
  heap st !! a = None →
  (∀ y, y ∈ inorder t → compFunc (Some d) (Some y) ≠ EQUAL) →
  ∃ st1 st2 t2,
    insertToRBTree compFunc (Some st) (Some d) (Some a) = Some (SUCCESS, Some st1)
    ∧ deleteFromRBTree compFunc (Some st1) (Some d) = Some (SUCCESS, Some st2)
    ∧ Rep F (Z.of_nat (count t)) (fr ++ [Some d]) st2 t2
    ∧ red_black t2 ∧ inorder t2 = inorder t.
Proof.
  intros Hcmp HR Hrb Hs Ha Hne.
  pose proof (insert_valid compFunc F fr st t a d Hcmp HR Hrb Hs Ha) as Hins.
  pose proof (descend_none compFunc (Some d) t [] Hne) as Hnone.
  destruct (descend compFunc (Some d) [] t) as [k n]. cbn [snd] in Hnone. subst n.
  destruct Hins as (st1 & c & Y & _ & Hins & HR1 & HY & HsY & HinY & Hint & _).
  destruct (descend_finds compFunc Hcmp d Y HsY) as (k1 & c1 & l1 & a1 & x & r1 & Hd1).
  { exists d. split; [|by apply cmp_refl]. rewrite HinY.
    apply elem_of_app. right. by left. }
  assert (x = d) as ->.
  { symmetry. eapply (sorted_unique compFunc Hcmp (inorder Y)); try done.
    - rewrite HinY. apply elem_of_app. right. by left.
    - by eapply descend_in.
    - by eapply descend_found. }
  destruct (delete_valid compFunc _ _ _ _ _ _ _ _ _ _ _ HR1 HY HsY Hd1)
    as (st2 & Y2 & Hdel & HR2 & HY2 & HsY2 & HintY & HinY2).
  exists st1, st2, Y2.
  assert (inorder Y2 = inorder t) as Heq.
  { apply (sorted_perm_eq compFunc Hcmp); try done.
    apply (Permutation_cons_inv (a:=d)).
    transitivity (inorder Y).
    - rewrite HintY, HinY2. solve_Permutation.
    - rewrite HinY, Hint. solve_Permutation. }
  split_and!; try done.
  replace (Z.of_nat (count t)) with (Z.of_nat (count Y2)); [done|].
  by rewrite <-!length_inorder, Heq.
Qed.

End Orders.

(** ** Structs.c: the comparator of vectors *)

Section VectorLaws.
Context {D : Type}.
Variable ltD : D → D → bool.

Lemma vectorCompare_loop_total : ∀ n i (va vb : list D) s,
  (i + n ≤ length va)%nat → (i + n ≤ length vb)%nat →
  ∃ r, vectorCompare_loop ltD n i va vb s = Some r
       ∧ (r = SMALLER ∨ r = GREATER ∨ r = s).
Proof.
  induction n as [|n IH]; intros i va vb s Ha Hb; simpl.
  - exists s. by auto.
  - destruct (lookup_lt_is_Some_2 va i ltac:(lia)) as [x ->].
    destruct (lookup_lt_is_Some_2 vb i ltac:(lia)) as [y ->]. simpl.
    destruct (ltD x y); [exists SMALLER; by auto|].
    destruct (ltD y x); [exists GREATER; by auto|].
    apply IH; lia.
Qed.

(** On vectors whose length field is right, vectorCompare1By1 returns
    SMALLER, 0 or GREATER and reads no coordinate past the end. *)
Theorem vectorCompare1By1_result (a b : @Vector D) :
  well_formed a → well_formed b →
  ∃ r, vectorCompare1By1 ltD a b = Some r
       ∧ (r = SMALLER ∨ r = START_VAL ∨ r = GREATER).
Proof.
  unfold well_formed, vectorCompare1By1. intros Ha Hb.
  repeat case_decide;
    match goal with
    | |- context [vectorCompare_loop ltD ?n ?i ?va ?vb ?s] =>
        destruct (vectorCompare_loop_total n i va vb s) as (r & -> & Hr);
          [unfold STARTING_IDX; lia..|]
    end; exists r; split; try done; unfold SMALLER, GREATER, START_VAL in *; lia.
Qed.

Hypothesis Hord : strict_total ltD.

Lemma vectorCompare_loop_flip : ∀ n i (va vb : list D) s r,
  vectorCompare_loop ltD n i va vb s = Some r →
  vectorCompare_loop ltD n i vb va (- s) = Some (- r).
Proof.
  induction n as [|n IH]; intros i va vb s r; simpl.
  - by intros [= <-].
  - destruct (va !! i) as [x|], (vb !! i) as [y|]; simpl; try done.
    destruct (ltD x y) eqn:Hxy.
    + intros [= <-]. destruct (ltD y x) eqn:Hyx; [|done].
      pose proof (ord_trans _ Hord x y x Hxy Hyx) as Hxx.
      by rewrite (ord_irrefl _ Hord) in Hxx.
    + destruct (ltD y x); [by intros [= <-]|]. apply IH.
Qed.

(** With [<] a strict total order on the coordinates, exchanging the
    arguments of vectorCompare1By1 negates the result. *)
Theorem vectorCompare1By1_flip (a b : @Vector D) r :
  vectorCompare1By1 ltD a b = Some r → vectorCompare1By1 ltD b a = Some (- r).
Proof.
  unfold vectorCompare1By1. repeat case_decide; try lia; intros Hv;
    apply vectorCompare_loop_flip in Hv; try done.
  by replace (len b) with (len a).
Qed.

Lemma vectorCompare_loop_equal : ∀ n i (va vb : list D),
  vectorCompare_loop ltD n i va vb START_VAL = Some 0 →
  take n (drop i va) = take n (drop i vb).
Proof.
  induction n as [|n IH]; intros i va vb; simpl; [done|].
  destruct (va !! i) as [x|] eqn:Hx, (vb !! i) as [y|] eqn:Hy; simpl; try done.
  destruct (ltD x y) eqn:Hxy; [done|]. destruct (ltD y x) eqn:Hyx; [done|].
  intros H. rewrite (drop_S _ _ _ Hx), (drop_S _ _ _ Hy). simpl.
  rewrite (ord_total _ Hord x y Hxy Hyx). f_equal. by apply IH.
Qed.

Lemma vectorCompare_loop_refl : ∀ n i (va : list D) s,
  (i + n ≤ length va)%nat → vectorCompare_loop ltD n i va va s = Some s.
Proof.
  induction n as [|n IH]; intros i va s Hlen; simpl; [done|].
  destruct (lookup_lt_is_Some_2 va i ltac:(lia)) as [x ->]. simpl.
  rewrite (ord_irrefl _ Hord). apply IH. lia.
Qed.

(** With [<] a strict total order on the coordinates, vectorCompare1By1
    returns 0 on two vectors exactly when they are the same vector. *)
Theorem vectorCompare1By1_equal (a b : @Vector D) :
  well_formed a → well_formed b →
  (vectorCompare1By1 ltD a b = Some 0 ↔ a = b).
Proof.
  intros Ha Hb. unfold well_formed in *. split.
  - unfold vectorCompare1By1. repeat case_decide; intros Hv.
    + apply vectorCompare_loop_equal in Hv. unfold STARTING_IDX in Hv.
      rewrite !drop_0 in Hv.
      rewrite firstn_all2 in Hv by lia. rewrite firstn_all2 in Hv by lia.
      destruct a, b; simpl in *; congruence.
    + destruct (vectorCompare_loop_total (Z.to_nat (len a)) STARTING_IDX
                  (vector a) (vector b) SMALLER) as (r & Hr & Hcases);
        [unfold STARTING_IDX; lia..|].
      exfalso. rewrite Hr in Hv. unfold SMALLER, GREATER in *. injection Hv as ->. lia.
    + destruct (vectorCompare_loop_total (Z.to_nat (len b)) STARTING_IDX
                  (vector a) (vector b) GREATER) as (r & Hr & Hcases);
        [unfold STARTING_IDX; lia..|].
      exfalso. rewrite Hr in Hv. unfold SMALLER, GREATER in *. injection Hv as ->. lia.
  - intros <-. unfold vectorCompare1By1. rewrite decide_True by done.
    apply vectorCompare_loop_refl. unfold STARTING_IDX. lia.
Qed.

End VectorLaws.

(** ** The vector comparator as a lexicographic order *)

Section VectorOrder.
Context {D : Type}.
Variable ltD : D → D → bool.

Lemma vectorCompare_loop_lex : ∀ n i (va vb : list D) s,
  n = (length (drop i va) `min` length (drop i vb))%nat →
  s = (if decide (length va = length vb) then START_VAL
       else if decide (length va < length vb)%nat then SMALLER else GREATER) →
  (i ≤ length va)%nat → (i ≤ length vb)%nat →
  vectorCompare_loop ltD n i va vb s = Some (lex_compare ltD (drop i va) (drop i vb)).
Proof.
  induction n as [|n IH]; intros i va vb s Hn Hs Hia Hib.
  - simpl. rewrite !length_drop in Hn. f_equal.
    destruct (drop i va) as [|x xs] eqn:Ha, (drop i vb) as [|y ys] eqn:Hb; simpl.
    + apply (f_equal length) in Ha, Hb. rewrite length_drop in Ha, Hb. simpl in *.
      by rewrite Hs, decide_True by lia.
    + apply (f_equal length) in Ha, Hb. rewrite length_drop in Ha, Hb. simpl in *.
      rewrite Hs, decide_False by lia. by rewrite decide_True by lia.
    + apply (f_equal length) in Ha, Hb. rewrite length_drop in Ha, Hb. simpl in *.
      rewrite Hs, decide_False by lia. by rewrite decide_False by lia.
    + apply (f_equal length) in Ha, Hb. rewrite length_drop in Ha, Hb. simpl in *. lia.
  - rewrite !length_drop in Hn.
    destruct (lookup_lt_is_Some_2 va i ltac:(lia)) as [x Hx].
    destruct (lookup_lt_is_Some_2 vb i ltac:(lia)) as [y Hy].
    cbn [vectorCompare_loop]. rewrite Hx, Hy. cbn [mbind option_bind].
    rewrite (drop_S _ _ _ Hx), (drop_S _ _ _ Hy). cbn [lex_compare].
    destruct (ltD x y); [done|]. destruct (ltD y x); [done|].
    apply lookup_lt_Some in Hx, Hy.
    apply IH; try done; try lia. rewrite !length_drop. lia.
Qed.

Lemma vectorCompare1By1_lex (a b : @Vector D) :
  well_formed a → well_formed b →
  vectorCompare1By1 ltD a b = Some (lex_compare ltD (vector a) (vector b)).
Proof.
  unfold well_formed, vectorCompare1By1. intros Ha Hb.
  repeat case_decide;
    apply (vectorCompare_loop_lex _ 0%nat (vector a) (vector b));
    rewrite ?drop_0; try lia;
    repeat case_decide; try done; lia.
Qed.

(** vectorCompare1By1 computes the order its documentation describes. *)
Theorem vectorCompare1By1_lexicographic (a b : @Vector D) :
  well_formed a → well_formed b →
  vectorCompare1By1 ltD a b = Some (lex_compare ltD (vector a) (vector b)).
Proof. apply vectorCompare1By1_lex. Qed.

Hypothesis Hord : strict_total ltD.

Lemma lex_compare_trans : ∀ (va vb vc : list D),
  lex_compare ltD va vb ≤ 0 → lex_compare ltD vb vc ≤ 0 →
  lex_compare ltD va vc ≤ 0.
Proof.
  induction va as [|x va IH]; intros vb vc.
  - destruct vc; simpl; unfold SMALLER; lia.
  - destruct vb as [|y vb]; [simpl; unfold GREATER; lia|].
    destruct vc as [|z vc]; [simpl; unfold GREATER; lia|].
    cbn [lex_compare]. unfold SMALLER, GREATER.
    destruct (ltD x y) eqn:Hxy.
    + intros _. destruct (ltD y z) eqn:Hyz.
      * intros _. by rewrite (ord_trans _ Hord x y z Hxy Hyz).
      * destruct (ltD z y) eqn:Hzy; [lia|].
        rewrite <-(ord_total _ Hord y z Hyz Hzy). rewrite Hxy. lia.
    + destruct (ltD y x) eqn:Hyx; [lia|].
      rewrite (ord_total _ Hord x y Hxy Hyx). intros Hab.
      destruct (ltD y z); [lia|]. destruct (ltD z y); [lia|]. by apply IH.
Qed.

(** With [<] a strict total order on the coordinates, "not greater" by
    vectorCompare1By1 is transitive. *)
Theorem vectorCompare1By1_trans (a b c : @Vector D) r1 r2 :
  well_formed a → well_formed b → well_formed c →
  vectorCompare1By1 ltD a b = Some r1 → r1 ≤ 0 →
  vectorCompare1By1 ltD b c = Some r2 → r2 ≤ 0 →
  ∃ r3, vectorCompare1By1 ltD a c = Some r3 ∧ r3 ≤ 0.
Proof.
  intros Ha Hb Hc.
  rewrite !vectorCompare1By1_lex by done.
  intros [= <-] H1 [= <-] H2. eexists. split; [reflexivity|].
  by eapply lex_compare_trans.
Qed.

End VectorOrder.

(** ** The further properties on the small trees *)

Ltac check_rb := repeat split; intros; try discriminate; repeat split.
Ltac check_sorted := repeat constructor; vm_compute; reflexivity.

Lemma two_red_black : red_black two_tree.
Proof. check_rb. Qed.

Lemma three_red_black : red_black three_tree.
Proof. check_rb. Qed.

Lemma five_red_black : red_black five_tree.
Proof. check_rb. Qed.

Lemma two_sorted : sorted cmpZ (inorder two_tree).
Proof. check_sorted. Qed.

Lemma three_sorted : sorted cmpZ (inorder three_tree).
Proof. check_sorted. Qed.

Lemma five_sorted : sorted cmpZ (inorder five_tree).
Proof. check_sorted. Qed.

Lemma red_parent_Rep : Rep ∅ 5 [] red_parent_state red_parent_tree.
Proof.
  change (Rep ∅ (size red_parent_state) (freed red_parent_state)
            red_parent_state red_parent_tree).
  check_rep.
Qed.

Lemma Zltb_strict_total : strict_total Z.ltb.
Proof.
  split.
  - intros x. apply Z.ltb_irrefl.
  - intros x y z ?%Z.ltb_lt ?%Z.ltb_lt. apply Z.ltb_lt. lia.
  - intros x y ?%Z.ltb_ge ?%Z.ltb_ge. lia.
Qed.

Lemma empty_tree_operations_witness :
  RBTreeContains cmpZ (Some newRBTree) (Some 7) = Some 0
  ∧ deleteFromRBTree cmpZ (Some newRBTree) (Some 7) = Some (FAILURE, Some newRBTree)
  ∧ forEachRBTree record_all (Some newRBTree) [] = Some (SUCCESS, []).
Proof.
  apply (empty_tree_operations cmpZ record_all newRBTree (Some 7) []). reflexivity.
Defined.

Lemma contains_correct_witness :
  (RBTreeContains cmpZ (Some three_state) (Some 30) = Some 1
   ↔ ∃ y, y ∈ inorder three_tree ∧ cmpZ (Some 30) (Some y) = EQUAL)
  ∧ (RBTreeContains cmpZ (Some three_state) (Some 30) = Some 1
     ∨ RBTreeContains cmpZ (Some three_state) (Some 30) = Some 0).
Proof.
  exact (contains_correct cmpZ ∅ 3 [] three_state three_tree 30 cmpZ_comparator
           three_Rep three_sorted).
Defined.

Lemma delete_removes_payload_witness :
  ∃ st' t' before after,
    deleteFromRBTree cmpZ (Some five_state) (Some 10) = Some (SUCCESS, Some st')
    ∧ Rep ∅ (Z.of_nat (count five_tree) - 1) ([] ++ [Some 10]) st' t'
    ∧ cmpZ (Some 10) (Some 10) = EQUAL
    ∧ inorder five_tree = before ++ 10 :: after ∧ inorder t' = before ++ after
    ∧ red_black t' ∧ sorted cmpZ (inorder t').
Proof.
  apply (delete_removes_payload cmpZ ∅ [] five_state five_tree (Some 10)
           [FL BLACK 1%positive 20
              (T BLACK (T RED E 4%positive 25 E) 3%positive 30 (T RED E 5%positive 35 E))]
           BLACK E 2%positive 10 E five_Rep five_red_black five_sorted).
  reflexivity.
Defined.

Lemma contains_after_insert_witness :
  RBTreeContains cmpZ (Some three_state) (Some 20) = Some 1.
Proof.
  apply (contains_after_insert cmpZ ∅ [] two_state two_tree 20 3%positive three_state
           cmpZ_comparator two_Rep two_red_black two_sorted).
  - vm_compute. reflexivity.
  - vm_compute. reflexivity.
Defined.

Lemma contains_after_delete_witness :
  RBTreeContains cmpZ (Some four_state) (Some 10) = Some 0.
Proof.
  apply (contains_after_delete cmpZ ∅ [] five_state five_tree 10 four_state
           cmpZ_comparator five_Rep five_red_black five_sorted).
  vm_compute. reflexivity.
Defined.

Lemma size_counts_nodes_witness :
  size four_state = Z.of_nat (base.size (heap four_state))
  ∧ (∀ d p, (∀ a, p = Some a → heap four_state !! a = None) →
       ∃ (r : Z) st',
         insertToRBTree cmpZ (Some four_state) d p = Some (r, Some st')
         ∧ size st' = Z.of_nat (base.size (heap st'))
         ∧ size st' = size four_state + (if decide (r = FAILURE) then 0 else 1))
  ∧ (∀ d, ∃ (r : Z) st',
       deleteFromRBTree cmpZ (Some four_state) d = Some (r, Some st')
       ∧ size st' = Z.of_nat (base.size (heap st'))
       ∧ size st' = size four_state - (if decide (r = FAILURE) then 0 else 1)).
Proof.
  exact (size_counts_nodes cmpZ four_state cmpZ_comparator four_reachable).
Defined.

Lemma insert_failure_atomic_witness : three_state = three_state.
Proof.
  apply (insert_failure_atomic cmpZ three_state (Some 30) (Some 4%positive) three_state).
  - intros a [= <-]. vm_compute. reflexivity.
  - vm_compute. reflexivity.
Defined.

Lemma delete_failure_atomic_witness : three_state = three_state.
Proof.
  apply (delete_failure_atomic cmpZ three_state (Some 15) three_state).
  vm_compute. reflexivity.
Defined.

Lemma getSide_position_witness :
  getSide None three_state = Some FAILURE
  ∧ getSide (Some 1%positive) three_state = Some LEFT.
Proof.
  exact (getSide_position ∅ 3 [] three_state
           [FL BLACK 3%positive 20 (T RED E 2%positive 30 E)] RED E 1%positive 10 E
           three_Rep).
Defined.

Lemma getSingleChild_cases_witness :
  getSingleChild (Some 1%positive) two_state = Some (Some 2%positive).
Proof.
  exact (getSingleChild_cases ∅ 2 [] two_state [] BLACK E 1%positive 10
           (T RED E 2%positive 30 E) two_Rep).
Defined.

Lemma findSuccessor_next_witness :
  ∃ p, findSuccessor 5 (Some 1%positive) five_state = Some p
       ∧ (T BLACK (T RED E 4%positive 25 E) 3%positive 30 (T RED E 5%positive 35 E)
          = E → p = None)
       ∧ (T BLACK (T RED E 4%positive 25 E) 3%positive 30 (T RED E 5%positive 35 E)
          ≠ E →
          ∃ x n, p = Some x ∧ heap five_state !! x = Some n
                 ∧ data n = head (inorder (T BLACK (T RED E 4%positive 25 E)
                                             3%positive 30 (T RED E 5%positive 35 E)))
                 ∧ left n = None).
Proof.
  apply (findSuccessor_next ∅ 5 [] five_state [] BLACK (T BLACK E 2%positive 10 E)
           1%positive 20 _ 5%nat five_Rep).
  simpl. lia.
Defined.

Lemma switchNodes_successor_witness :
  ∃ st', switchNodes (Some 1%positive) (Some 4%positive) five_state = Some st'
         ∧ Rep ∅ 5 [] st'
             (T BLACK (T BLACK E 2%positive 10 E) 4%positive 25
                (T BLACK (T RED E 1%positive 20 E) 3%positive 30
                   (T RED E 5%positive 35 E))).
Proof.
  apply (switchNodes_successor ∅ 5 [] five_state []
           [FL BLACK 3%positive 30 (T RED E 5%positive 35 E)]
           BLACK (T BLACK E 2%positive 10 E) 1%positive 20 RED 4%positive 25 E).
  - by repeat constructor.
  - exact five_Rep.
Defined.

Lemma connectNode_attach_witness :
  ∃ st', connectNode (Some 4%positive) (Some 2%positive) RIGHT
           (set_heap (<[4%positive := mkNode None None None BLACK (Some 40)]>
                        (heap three_state)) three_state)
         = Some st'
         ∧ Rep (delete 4%positive
                  (<[4%positive := mkNode None None None BLACK (Some 40)]> ∅))
             3 [] st'
             (T BLACK (T RED E 1%positive 10 E) 3%positive 20
                (T RED E 2%positive 30 (T BLACK E 4%positive 40 E))).
Proof.
  apply (connectNode_attach _ 3 [] _
           [FR RED E 2%positive 30; FR BLACK (T RED E 1%positive 10 E) 3%positive 20]
           4%positive 40).
  - apply (alloc_spec ∅ 3 [] three_state three_tree); [exact three_Rep|].
    vm_compute. reflexivity.
  - by rewrite lookup_insert_eq.
Defined.

Lemma connectNode_detach_witness :
  ∃ st' n, connectNode (Some 2%positive) None FAILURE two_state = Some st'
           ∧ Rep (<[1%positive := n]> ∅) 2 [] st' (T RED E 2%positive 30 E)
           ∧ data n = Some 10.
Proof.
  exact (proj2 (connectNode_detach ∅ 2 [] two_state [] BLACK
                  (T RED E 2%positive 30 E) 1%positive 10) two_Rep).
Defined.

Lemma rotate_back_witness :
  ∃ st', rotate (Some 1%positive) (Some 3%positive) three_state = Some st'
         ∧ rotate (Some 3%positive) (Some 1%positive) st' = Some three_state.
Proof.
  exact (proj1 (rotate_back ∅ 3 [] three_state [] BLACK RED E 1%positive 10 E
                  3%positive 20 (T RED E 2%positive 30 E)) three_Rep).
Defined.

Lemma updateColors_restores_witness :
  (∃ c st' t',
     updateColors 3 (Some 3%positive) zigzag_state = Some (c, st')
     ∧ Rep ∅ 2 [] st' t'
     ∧ red_black (paint 3%positive c t')
     ∧ inorder t' = inorder zigzag_tree)
  ∧ (λ res, (res.1, root res.2, parent <$> heap res.2 !! 1%positive))
      <$> updateColors 3 (Some 3%positive) zigzag_state
    = Some (BLACK, Some 3%positive, Some (Some 3%positive))
  ∧ (∃ c st' t',
       updateColors 3 (Some 4%positive) red_uncle_state = Some (c, st')
       ∧ Rep ∅ 3 [] st' t'
       ∧ red_black (paint 4%positive c t')
       ∧ inorder t' = inorder red_uncle_tree)
  ∧ (λ res, (res.1, color <$> heap res.2 !! 2%positive,
             color <$> heap res.2 !! 3%positive))
      <$> updateColors 3 (Some 4%positive) red_uncle_state
    = Some (RED, Some BLACK, Some BLACK).
Proof.
  split_and!.
  - apply (updateColors_restores ∅ 2 [] zigzag_state
             [FL RED 2%positive 30 E; FR BLACK E 1%positive 10] BLACK E 3%positive 20 E
             3%nat zigzag_Rep); simpl; try done; try lia.
  - vm_compute. reflexivity.
  - apply (updateColors_restores ∅ 3 [] red_uncle_state
             [FL RED 3%positive 30 E; FR BLACK (T RED E 2%positive 10 E) 1%positive 20]
             BLACK E 4%positive 25 E 3%nat red_uncle_Rep); simpl; try done; try lia.
  - vm_compute. reflexivity.
Defined.

Lemma solveDB_restores_witness :
  ∃ st' t',
    solveDB 3 (RefVar (Some 1%positive)) (RefVar None) LEFT left_short_state = Some st'
    ∧ Rep ∅ 3 [] st' t' ∧ red_black t'
    ∧ inorder t' = inorder left_short_tree.
Proof.
  apply (solveDB_restores ∅ 3 [] left_short_state
           [FL BLACK 1%positive 20 (T BLACK E 3%positive 30 (T RED E 5%positive 35 E))]
           E 0%nat 3%nat left_short_Rep); simpl; try done; try lia.
Defined.

Lemma black_nephews_red_parent_witness :
  ∃ st', solveDB 1 (RefVar (Some 1%positive)) (RefVar None) LEFT red_parent_state
         = Some st'
         ∧ Rep ∅ 5 [] st'
             (T BLACK (T BLACK E 1%positive 20 (T RED E 3%positive 30 E)) 7%positive 40
                (T BLACK E 8%positive 50 E)).
Proof.
  exact (proj1 (black_nephews_red_parent ∅ 5 [] red_parent_state
                  [FL BLACK 7%positive 40 (T BLACK E 8%positive 50 E)]
                  1%positive 20 E 3%positive 30 E E 0%nat eq_refl eq_refl)
           red_parent_Rep).
Defined.

Lemma close_nephew_red_witness :
  ∃ st', solveDB 1 (RefVar (Some 1%positive)) (RefVar None) LEFT red_nephews_state
         = Some st'
         ∧ Rep ∅ 5 [] st'
             (T BLACK (T BLACK E 1%positive 20 E) 4%positive 25
                (T BLACK E 3%positive 30 (T RED E 5%positive 35 E))).
Proof.
  exact (proj1 (close_nephew_red ∅ 5 [] red_nephews_state [] BLACK 1%positive 20
                  3%positive 30 E 0%nat)
           E 4%positive 25 E (T RED E 5%positive 35 E) red_nephews_Rep).
Defined.

Lemma reachable_height_witness :
  shallow four_state
  ∧ (∀ d p, (∀ a, p = Some a → heap four_state !! a = None) →
       ∃ (r : Z) st',
         insertToRBTree cmpZ (Some four_state) d p = Some (r, Some st')
         ∧ shallow st')
  ∧ (∀ d, ∃ (r : Z) st',
       deleteFromRBTree cmpZ (Some four_state) d = Some (r, Some st')
       ∧ shallow st').
Proof.
  exact (reachable_height cmpZ four_state cmpZ_comparator four_reachable).
Defined.

Lemma freeRBTree_releases_all_witness :
  freeRBTree (Some three_state)
  = Some (None, ∅, [] ++ (Some <$> postorder three_tree)).
Proof.
  exact (freeRBTree_releases_all ∅ 3 [] three_state three_tree three_Rep).
Defined.

Lemma forEach_stops_at_failure_witness :
  forEachRBTree (record_until 20) (Some three_state) []
  = Some (FAILURE,
          (record_until 20 (Some 20)
             (visit (record_until 20) (Some <$> [10]) []).2).2).
Proof.
  apply (forEach_stops_at_failure (record_until 20) ∅ 3 [] three_state three_tree
           [10] [30] 20 [] three_Rep); reflexivity.
Defined.

Lemma forEach_all_succeed_witness :
  forEachRBTree record_all (Some three_state) []
  = Some (SUCCESS, foldl (λ a d, (record_all (Some d) a).2) [] (inorder three_tree)).
Proof.
  apply (forEach_all_succeed record_all ∅ 3 [] three_state three_tree [] three_Rep).
  intros d a. discriminate.
Defined.

Lemma insertion_order_irrelevant_witness :
  ∃ st1 st2 t1 t2,
    insert_all cmpZ newRBTree three_keys = Some st1
    ∧ insert_all cmpZ newRBTree [(20, 1%positive); (10, 2%positive); (30, 3%positive)]
      = Some st2
    ∧ Rep ∅ (Z.of_nat (length three_keys)) [] st1 t1
    ∧ Rep ∅ (Z.of_nat (length three_keys)) [] st2 t2
    ∧ inorder t1 = inorder t2.
Proof.
  apply (insertion_order_irrelevant cmpZ three_keys
           [(20, 1%positive); (10, 2%positive); (30, 3%positive)] cmpZ_comparator).
  - apply (bool_decide_unpack _). vm_compute. exact I.
  - apply (bool_decide_unpack _). vm_compute. exact I.
  - repeat constructor; vm_compute; discriminate.
  - repeat constructor; vm_compute; discriminate.
  - simpl. etrans; [apply perm_skip, perm_swap|]. apply perm_swap.
Defined.

Lemma insert_then_delete_witness :
  ∃ st1 st2 t2,
    insertToRBTree cmpZ (Some two_state) (Some 20) (Some 3%positive)
    = Some (SUCCESS, Some st1)
    ∧ deleteFromRBTree cmpZ (Some st1) (Some 20) = Some (SUCCESS, Some st2)
    ∧ Rep ∅ (Z.of_nat (count two_tree)) ([] ++ [Some 20]) st2 t2
    ∧ red_black t2 ∧ inorder t2 = inorder two_tree.
Proof.
  apply (insert_then_delete cmpZ ∅ [] two_state two_tree 3%positive 20
           cmpZ_comparator two_Rep two_red_black two_sorted).
  - vm_compute. reflexivity.
  - intros y Hy. vm_compute in Hy.
    apply elem_of_cons in Hy as [->|Hy]; [by vm_compute|].
    apply elem_of_cons in Hy as [->|Hy]; [by vm_compute|].
    by apply elem_of_nil in Hy.
Defined.

Lemma vectorCompare1By1_result_witness :
  ∃ r, vectorCompare1By1 Z.ltb (mkVector 2 [1; 2]) (mkVector 3 [1; 2; 3]) = Some r
       ∧ (r = SMALLER ∨ r = START_VAL ∨ r = GREATER).
Proof.
  apply (vectorCompare1By1_result Z.ltb (mkVector 2 [1; 2]) (mkVector 3 [1; 2; 3]));
    reflexivity.
Defined.

Lemma vectorCompare1By1_flip_witness :
  vectorCompare1By1 Z.ltb (mkVector 3 [1; 2; 3]) (mkVector 2 [1; 2])
  = Some (- SMALLER).
Proof.
  apply (vectorCompare1By1_flip Z.ltb Zltb_strict_total (mkVector 2 [1; 2])
           (mkVector 3 [1; 2; 3]) SMALLER).
  reflexivity.
Defined.

Lemma vectorCompare1By1_equal_witness :
  vectorCompare1By1 Z.ltb (mkVector 2 [1; 2]) (mkVector 2 [1; 2]) = Some 0
  ↔ mkVector 2 [1; 2] = mkVector 2 [1; 2].
Proof.
  apply (vectorCompare1By1_equal Z.ltb Zltb_strict_total (mkVector 2 [1; 2])
           (mkVector 2 [1; 2])); reflexivity.
Defined.

Lemma vectorCompare1By1_lexicographic_witness :
  vectorCompare1By1 Z.ltb (mkVector 2 [1; 5]) (mkVector 3 [1; 2; 3])
  = Some (lex_compare Z.ltb [1; 5] [1; 2; 3]).
Proof.
  apply (vectorCompare1By1_lexicographic Z.ltb (mkVector 2 [1; 5])
           (mkVector 3 [1; 2; 3])); reflexivity.
Defined.

Lemma vectorCompare1By1_trans_witness :
  ∃ r3, vectorCompare1By1 Z.ltb (mkVector 1 [1]) (mkVector 3 [1; 2; 3]) = Some r3
        ∧ r3 ≤ 0.
Proof.
  apply (vectorCompare1By1_trans Z.ltb Zltb_strict_total (mkVector 1 [1])
           (mkVector 2 [1; 2]) (mkVector 3 [1; 2; 3]) SMALLER SMALLER);
    try reflexivity; by vm_compute.
Defined.
